(** * term-image: size resolution, format specifiers, frame iteration and drawing

    A shallow embedding of [src/term_image/image/common.py]:
    - Python numbers ([int] as [Z], [float] as IEEE-754 binary64 through
      the Standard Library's [spec_float]), exceptions as values of an error
      monad;
    - [BaseImage._valid_size], [set_size], the [size] setter and the
      [rendered_*] properties;
    - the [_FORMAT_SPEC] regular expressions with a backtracking matcher, and
      [_check_format_spec] / [_check_formatting];
    - the generator [ImageIterator._animate] as an explicit state machine,
      [ImageIterator.__next__] / [seek] / [close];
    - [BaseImage._display_animated] and [BaseImage.draw] as producers of
      terminal writes.

    Part I holds the definitions, Part II the theorems. *)

From Stdlib Require Import ZArith Lia Bool List String Ascii.
From Stdlib Require Import Floats.SpecFloat.
From stdpp Require Import base tactics option list.

Open Scope string_scope.
Open Scope list_scope.
Open Scope Z_scope.

(* ===================================================================== *)
(** * Part I. Definitions *)
(* ===================================================================== *)

(** ** Sizes: the values of a [width] or [height]

    [class Size(Enum)]; its members are always true ([Enum] defines no
    truth value of its own) and have no order. *)
Inductive Size := AUTO | FIT | FIT_TO_WIDTH | ORIGINAL.

Definition Size_eqb (a b : Size) : bool :=
  match a, b with
  | AUTO, AUTO | FIT, FIT | FIT_TO_WIDTH, FIT_TO_WIDTH | ORIGINAL, ORIGINAL => true
  | _, _ => false
  end.

(** A value that is neither [None], an [int] nor a member of [Size], as far
    as the code observes it: the name of its type (for messages), its truth
    value (in [x or 1]) and its order with an [int] (in [x > columns]; [None]
    where [>] raises [TypeError]).  It equals no member of [Size]. *)
Record other_value := {
  type_name : string;
  truth : bool;
  gt_int : Z -> option bool;
}.

(** A [width] or [height] argument: [Union[int, Size, None]], or a value of
    another type (which [set_size] rejects). *)
Inductive dim :=
  | DNone
  | DInt (z : Z)
  | DSize (s : Size)
  | DOther (v : other_value).

(** ** Exceptions

    One constructor per [raise] statement of the embedded code (the message
    template with its interpolated values as arguments), plus the built-in
    exceptions that the arithmetic, the generator protocol and the external
    collaborators can raise. *)

Inductive exn_class :=
  | CValueError | CTypeError | CInvalidSizeError | CStyleError
  | CTermImageError | CZeroDivisionError | COverflowError | CEOFError
  | CStopIteration | CAttributeError | CKeyboardInterrupt | COtherError.

Inductive exn :=
  (* _valid_size *)
  | Available_too_small (name : string)
      (* ValueError(f"Amount of available {name} too small") *)
  | Will_not_fit_maxsize (size : dim * dim) (maxsize : Z * Z)
      (* InvalidSizeError("The resulting size ... will not fit into 'maxsize' ...") *)
  (* set_size *)
  | Both_width_and_height
      (* ValueError("Cannot specify both width and height") *)
  | Dimension_bad_type (argname : string)
      (* TypeError(f"{argname!r} must be `None`, a `Size` enum member or an integer ...") *)
  | Dimension_not_positive (argname : string) (x : Z)
      (* ValueError(f"{argname!r} must be positive (got: {x})") *)
  | Allowance_bad_type (argname : string)
      (* TypeError(f"{argname!r} must be an integer ...") *)
  | Allowance_negative (argname : string) (x : Z)
      (* ValueError(f"{argname!r} must be non-negative (got: {x})") *)
  | Maxsize_bad_type
      (* TypeError("'maxsize' must be a tuple of integers ...") *)
  | Maxsize_bad_value
      (* ValueError("'maxsize' must contain two positive integers ...") *)
  | Size_not_enum
      (* TypeError("'size' must be a `Size` enum member") *)
  (* _check_format_spec / _check_formatting / _check_style_format_spec *)
  | Invalid_format_specifier (spec : string)
      (* ValueError(f"Invalid format specifier (got: {spec!r})") *)
  | Invalid_h_align (h_align : string)
      (* ValueError(f"Invalid horizontal alignment option: {h_align!r}") *)
  | Invalid_v_align (v_align : string)
      (* ValueError(f"Invalid vertical alignment option: {v_align!r}") *)
  | Padding_width_not_positive (width : Z)
      (* ValueError(f"Padding width must be positive (got: {width})") *)
  | Padding_height_not_positive (height : Z)
      (* ValueError(f"Padding height must be positive (got: {height})") *)
  | Invalid_style_specifier (original : string) (detected : option string)
      (* StyleError(f"Invalid style-specific format specifier {original!r}"
                    + (f", detected at {spec!r}" if spec != original else "")) *)
  (* draw *)
  | Alpha_out_of_range
      (* ValueError(f"Alpha threshold out of range (got: {alpha})") *)
  | Invalid_hex_color (alpha : string)
      (* ValueError(f"Invalid hex color string (got: {alpha})") *)
  | Padding_width_too_large
      (* ValueError("Padding width is greater than the available terminal width") *)
  | Padding_height_too_large
      (* ValueError("Padding height can not be greater than the terminal height for animations") *)
  (* _renderer *)
  | Cannot_fit_terminal (animated : bool)
      (* InvalidSizeError("The animation|image cannot fit into the available terminal size") *)
  | Height_exceeds_terminal
      (* InvalidSizeError("The rendered height cannot be greater than the terminal height for animations") *)
  | Image_finalized
      (* TermImageError("This image has been finalized") *)
  (* ImageIterator *)
  | Not_animated
      (* ValueError("This image is not animated") *)
  | Repeat_zero
      (* ValueError("'repeat' must be non-zero") *)
  | Cached_not_positive
      (* ValueError("'cached' must be a boolean or a positive integer") *)
  | StopIteration (msg : string)
  | Frame_out_of_range (pos : Z)
      (* ValueError("Frame number out of range ...") *)
  | Iteration_not_started
      (* TermImageError("Iteration has not yet started") *)
  | Iterator_closed
      (* TermImageError("Iterator exhausted or closed") *)
  (* built-in *)
  | ZeroDivisionError
  | OverflowError
  | Float_NaN_to_integer  (* ValueError: cannot convert float NaN to integer *)
  | Unsupported_operands  (* TypeError: '>' not supported between instances of ... *)
  | Int_too_many_digits (digits : nat)
      (* ValueError: Exceeds the limit (4300 digits) for integer string
         conversion: value has {digits} digits; ... *)
  | Cannot_send_non_None  (* TypeError: can't send non-None value to a just-started generator *)
  | EOFError
  | AttributeError (msg : string)
  | KeyboardInterrupt
  | OtherError (cls : string).

Definition class_of (e : exn) : exn_class :=
  match e with
  | Available_too_small _ | Both_width_and_height | Dimension_not_positive _ _
  | Allowance_negative _ _ | Maxsize_bad_value | Invalid_format_specifier _
  | Invalid_h_align _ | Invalid_v_align _ | Padding_width_not_positive _
  | Padding_height_not_positive _ | Alpha_out_of_range | Invalid_hex_color _
  | Padding_width_too_large | Padding_height_too_large | Not_animated
  | Repeat_zero | Cached_not_positive | Frame_out_of_range _
  | Float_NaN_to_integer | Int_too_many_digits _ => CValueError
  | Dimension_bad_type _ | Allowance_bad_type _ | Maxsize_bad_type
  | Size_not_enum | Unsupported_operands | Cannot_send_non_None => CTypeError
  | Will_not_fit_maxsize _ _ | Cannot_fit_terminal _
  | Height_exceeds_terminal => CInvalidSizeError
  | Invalid_style_specifier _ _ => CStyleError
  | Image_finalized | Iteration_not_started | Iterator_closed => CTermImageError
  | StopIteration _ => CStopIteration
  | ZeroDivisionError => CZeroDivisionError
  | OverflowError => COverflowError
  | EOFError => CEOFError
  | AttributeError _ => CAttributeError
  | KeyboardInterrupt => CKeyboardInterrupt
  | OtherError _ => COtherError
  end.

(** [except Exception] catches everything but [KeyboardInterrupt] (and the
    other [BaseException]s, none of which is modelled). *)
Definition is_Exception (e : exn) : bool :=
  match e with KeyboardInterrupt => false | _ => true end.

(** ** The error monad *)

Inductive result (A : Type) :=
  | Ok (a : A)
  | Raise (e : exn).
Arguments Ok {A} a.
Arguments Raise {A} e.

Definition bind {A B} (c : result A) (k : A -> result B) : result B :=
  match c with
  | Ok a => k a
  | Raise e => Raise e
  end.

Notation "x <- c ;; k" := (bind c (fun x => k))
  (at level 100, c at next level, right associativity).

Definition is_ok {A} (r : result A) : bool :=
  match r with Ok _ => true | Raise _ => false end.

(** ** Python floats

    A Python [float] is an IEEE-754 binary64 number; [spec_float] with
    [prec = 53] and [emax = 1024] is the Standard Library's executable
    specification of it.  Arithmetic raises where CPython raises. *)

Definition float := spec_float.

Definition prec : Z := 53.
Definition emax : Z := 1024.

Definition is_zero (f : float) : bool :=
  match f with S754_zero _ => true | _ => false end.

Definition is_infinity (f : float) : bool :=
  match f with S754_infinity _ => true | _ => false end.

(** An integer as an (unrounded) binary floating-point datum. *)
Definition Z2SF (z : Z) : spec_float :=
  match z with
  | Z0 => S754_zero false
  | Zpos p => S754_finite false p 0
  | Zneg p => S754_finite true p 0
  end.

(** [float(z)] as done implicitly by [int * float] and [int / float]:
    round to nearest even, [OverflowError] when out of range. *)
Definition float_of_int (z : Z) : result float :=
  let f := binary_normalize prec emax z 0 false in
  if is_infinity f then Raise OverflowError else Ok f.

(** [a / b] for two [int]s: the correctly rounded quotient. *)
Definition int_truediv (a b : Z) : result float :=
  if b =? 0 then Raise ZeroDivisionError
  else
    let f := SFdiv prec emax (Z2SF a) (Z2SF b) in
    if is_infinity f then Raise OverflowError else Ok f.

(** [x * y] for two [float]s (overflow gives an infinity, silently). *)
Definition fmul (x y : float) : float := SFmul prec emax x y.

(** [x / y] for two [float]s. *)
Definition float_truediv (x y : float) : result float :=
  if is_zero y then Raise ZeroDivisionError else Ok (SFdiv prec emax x y).

(** [x < y] for two [float]s. *)
Definition float_lt (x y : float) : bool := SFltb x y.

(** [round(x)] for a [float]: the nearest integer, ties to even. *)
Definition round_half_even (m : positive) (e : Z) : Z :=
  if 0 <=? e then Z.shiftl (Zpos m) e
  else
    let d := Z.shiftl 1 (- e) in
    let q := Zpos m / d in
    let r := Zpos m mod d in
    match 2 * r ?= d with
    | Lt => q
    | Gt => q + 1
    | Eq => if Z.even q then q else q + 1
    end.

Definition round_float (f : float) : result Z :=
  match f with
  | S754_zero _ => Ok 0
  | S754_infinity _ => Raise OverflowError
  | S754_nan => Raise Float_NaN_to_integer
  | S754_finite s m e => Ok (cond_Zopp s (round_half_even m e))
  end.

(** A value that is an [int] or a [float] ([min(_height_px, max_height)]
    returns either). *)
Inductive num :=
  | Int (z : Z)
  | Float (f : float).

(** Exact comparison of an [int] with a [float], as CPython does it. *)
Definition compare_int_float (z : Z) (f : float) : option comparison :=
  match f with
  | S754_nan => None
  | S754_infinity s => Some (if s then Gt else Lt)
  | S754_zero _ => Some (z ?= 0)
  | S754_finite s m e =>
      let v := cond_Zopp s (Zpos m) in
      Some (if 0 <=? e then z ?= Z.shiftl v e else Z.shiftl z (- e) ?= v)
  end.

Definition num_lt (a b : num) : bool :=
  match a, b with
  | Int x, Int y => x <? y
  | Float x, Float y => float_lt x y
  | Int x, Float y =>
      match compare_int_float x y with Some Lt => true | _ => false end
  | Float x, Int y =>
      match compare_int_float y x with Some Gt => true | _ => false end
  end.

(** [min(a, b)]: the first argument unless the second is smaller. *)
Definition py_min (a b : num) : num := if num_lt b a then b else a.

Definition fmin (x y : float) : float := if float_lt y x then y else x.

(** [a / y] with [y] a [float]: an [int] operand is converted first. *)
Definition num_truediv (a : num) (y : float) : result float :=
  match a with
  | Int z => x <- float_of_int z ;; float_truediv x y
  | Float x => float_truediv x y
  end.

(** [round(a)]; an [int] is its own rounding. *)
Definition py_round (a : num) : result Z :=
  match a with
  | Int z => Ok z
  | Float f => round_float f
  end.

(** [z * f] with [z] an [int]. *)
Definition int_mul_float (z : Z) (f : float) : result float :=
  x <- float_of_int z ;; Ok (fmul x f).

(** [f * z] with [z] an [int]. *)
Definition float_mul_int (f : float) (z : Z) : result float :=
  x <- float_of_int z ;; Ok (fmul f x).

(** [x or 1] for an [int]. *)
Definition or_1 (x : Z) : Z := if x =? 0 then 1 else x.

(** Literals. *)
Definition float_1_0 : float := S754_finite false 4503599627370496 (-52).
Definition float_0_5 : float := S754_finite false 4503599627370496 (-53).
Definition float_0_0 : float := S754_zero false.

(** ** Render styles and images *)

(** [isinstance(x, int)] *)
Definition is_int (x : dim) : bool :=
  match x with DInt _ => true | _ => false end.

(** [x is None] *)
Definition is_None (x : dim) : bool :=
  match x with DNone => true | _ => false end.

(** [s in (width, height)] for an enum member [s]. *)
Definition dim_is (s : Size) (x : dim) : bool :=
  match x with DSize s' => Size_eqb s s' | _ => false end.

Definition Size_in (s : Size) (width height : dim) : bool :=
  dim_is s width || dim_is s height.

(** The argument of [_pixels_cols] / [_pixels_lines]: [pixels=...] takes
    precedence; otherwise [cols=...] (resp. [lines=...]). *)
Inductive px_arg :=
  | Pixels (pixels : Z)
  | Cells (cells : Z).

(** The abstract members of [BaseImage] that size resolution uses. *)
Class RenderStyle := {
  _pixel_ratio : float;
  _pixels_cols : px_arg -> Z;
  _pixels_lines : px_arg -> Z;
}.

(** [GraphicsImage]: [cell_size] is [get_cell_size() or (1, 2)].
    [ceil(pixels // w)] is [pixels // w], the operand being an [int]. *)
Definition GraphicsImage (cell_size : Z * Z) : RenderStyle := {|
  _pixel_ratio := float_1_0;
  _pixels_cols a :=
    match a with
    | Pixels pixels => pixels / fst cell_size
    | Cells cols => cols * fst cell_size
    end;
  _pixels_lines a :=
    match a with
    | Pixels pixels => pixels / snd cell_size
    | Cells lines => lines * snd cell_size
    end;
|}.

(** [self._size]: an enum member (dynamic size) or a tuple (fixed size). *)
Inductive size_value :=
  | Dynamic (s : Size)
  | Fixed (size : Z * Z).

(** The attributes of a [BaseImage] instance that sizing reads and writes. *)
Record Image := {
  _original_size : Z * Z;
  _size : size_value;
  _fit_to_width : bool;
  _h_allow : Z;
  _v_allow : Z;
  _scale : float * float;
}.

Section SizeResolution.
Context {style : RenderStyle}.

(** What [get_terminal_size()] returns: [(columns, lines)]. *)
Variable get_terminal_size : Z * Z.

(** [_width_height_px(w=...)]: [(w / ori_width) * ori_height] *)
Definition _width_height_px_w (self : Image) (w : Z) : result float :=
  let '(ori_width, ori_height) := _original_size self in
  q <- int_truediv w ori_width ;;
  float_mul_int q ori_height.

(** [_width_height_px(h=...)]: [(h / ori_height) * ori_width] *)
Definition _width_height_px_h (self : Image) (h : Z) : result float :=
  let '(ori_width, ori_height) := _original_size self in
  q <- int_truediv h ori_height ;;
  float_mul_int q ori_width.

(** [columns, lines = maxsize or map(sub, get_terminal_size(), (h_allow, v_allow))] *)
Definition available (h_allow v_allow : Z) (maxsize : option (Z * Z)) : Z * Z :=
  match maxsize with
  | Some m => m
  | None => (fst get_terminal_size - h_allow, snd get_terminal_size - v_allow)
  end.

(** The loop over [("columns", "lines")]. *)
Definition check_available (columns lines : Z) : result unit :=
  if columns <=? 0 then Raise (Available_too_small "columns")
  else if lines <=? 0 then Raise (Available_too_small "lines")
  else Ok tt.

(** [round(ori_height * self._pixel_ratio)] *)
Definition ori_height_px (self : Image) : result Z :=
  x <- int_mul_float (snd (_original_size self)) _pixel_ratio ;;
  round_float x.

(** The condition under [if Size.AUTO in (width, height)]: [or] does not
    evaluate its second operand when the first holds. *)
Definition exceeds_available (self : Image) (max_width max_height : Z)
  : result bool :=
  if fst (_original_size self) >? max_width then Ok true
  else h <- ori_height_px self ;; Ok (h >? max_height).

(** The value returned under [elif Size.FIT_TO_WIDTH in (width, height)]. *)
Definition fit_to_width_size (self : Image) (max_width : Z) : result (Z * Z) :=
  let cols := or_1 (_pixels_cols (Pixels max_width)) in
  h <- _width_height_px_w self max_width ;;
  height_px <- round_float (fmul h _pixel_ratio) ;;
  Ok (cols, or_1 (_pixels_lines (Pixels height_px))).

(** The value returned under [if Size.ORIGINAL in (width, height)]. *)
Definition original_size_cells (self : Image) : result (Z * Z) :=
  let cols := or_1 (_pixels_cols (Pixels (fst (_original_size self)))) in
  height_px <- ori_height_px self ;;
  Ok (cols, or_1 (_pixels_lines (Pixels height_px))).

(** The rest of the dynamic branch ([Size.FIT]). *)
Definition fit_size (self : Image) (max_width max_height : Z) : result (Z * Z) :=
  let '(ori_width, ori_height) := _original_size self in
  x <- int_truediv max_width ori_width ;;
  y <- int_truediv max_height ori_height ;;
  _width_px <- int_mul_float ori_width (fmin x y) ;;
  _height_px <- int_mul_float ori_height (fmin x y) ;;
  px <-
    (if float_lt x y then
       let _height_px := fmul _height_px _pixel_ratio in
       let height_px := py_min (Float _height_px) (Int max_height) in
       q <- num_truediv height_px _height_px ;;
       width_px <- round_float (fmul q _width_px) ;;
       height_px <- py_round height_px ;;
       Ok (width_px, height_px)
     else
       _width_px <- float_truediv _width_px _pixel_ratio ;;
       let width_px := py_min (Float _width_px) (Int max_width) in
       q <- num_truediv width_px _width_px ;;
       height_px <- round_float (fmul q _height_px) ;;
       width_px <- py_round width_px ;;
       Ok (width_px, height_px)) ;;
  Ok (or_1 (_pixels_cols (Pixels (fst px))),
      or_1 (_pixels_lines (Pixels (snd px)))).

(** The dynamic branch: neither [width] nor [height] is an [int]. *)
Definition dynamic_size (self : Image) (width height : dim)
    (columns lines max_width max_height : Z) : result (Z * Z) :=
  _ <- check_available columns lines ;;
  if Size_in AUTO width height then
    exceeds <- exceeds_available self max_width max_height ;;
    if exceeds : bool then fit_size self max_width max_height
    else original_size_cells self
  else if Size_in FIT_TO_WIDTH width height then
    fit_to_width_size self max_width
  else if Size_in ORIGINAL width height then
    original_size_cells self
  else fit_size self max_width max_height.

(** The branches taken when [width] or [height] is an [int]: with the
    other one [None], it is derived from the given one; with both given
    (which [set_size] refuses), neither branch is taken and both go on as
    they are. *)
Definition fixed_size (self : Image) (width height : dim) : result (dim * dim) :=
  match width, height with
  | DNone, DInt height =>
      h <- _width_height_px_h self (_pixels_lines (Cells height)) ;;
      q <- float_truediv h _pixel_ratio ;;
      width_px <- round_float q ;;
      Ok (DInt (_pixels_cols (Pixels width_px)), DInt height)
  | DInt width, DNone =>
      h <- _width_height_px_w self (_pixels_cols (Cells width)) ;;
      height_px <- round_float (fmul h _pixel_ratio) ;;
      Ok (DInt width, DInt (_pixels_lines (Pixels height_px)))
  | _, _ => Ok (width, height)
  end.

(** [x > n] for an [int] [n]. *)
Definition dim_gt (x : dim) (n : Z) : result bool :=
  match x with
  | DInt z => Ok (z >? n)
  | DOther v =>
      match gt_int v n with
      | Some b => Ok b
      | None => Raise Unsupported_operands
      end
  | DNone | DSize _ => Raise Unsupported_operands
  end.

(** [width > columns or height > lines]: [or] does not evaluate its second
    operand when the first holds. *)
Definition exceeds_maxsize (width height : dim) (columns lines : Z)
  : result bool :=
  w <- dim_gt width columns ;;
  if w : bool then Ok true else dim_gt height lines.

(** [x or 1] *)
Definition dim_or_1 (x : dim) : dim :=
  match x with
  | DNone => DInt 1
  | DInt z => DInt (or_1 z)
  | DSize _ => x
  | DOther v => if truth v then x else DInt 1
  end.

(** [BaseImage._valid_size].  The tuple it returns holds two [int]s, except
    that a call with both [width] and [height] returns them as given. *)
Definition _valid_size (self : Image) (width height : dim)
    (h_allow v_allow : Z) (maxsize : option (Z * Z)) : result (dim * dim) :=
  let '(columns, lines) := available h_allow v_allow maxsize in
  let max_width := _pixels_cols (Cells columns) in
  let max_height := _pixels_lines (Cells lines) in
  if negb (is_int width) && negb (is_int height) then
    size <- dynamic_size self width height columns lines max_width max_height ;;
    Ok (DInt (fst size), DInt (snd size))
  else
    wh <- fixed_size self width height ;;
    let '(width, height) := wh in
    match maxsize with
    | Some m =>
        exceeds <- exceeds_maxsize width height columns lines ;;
        if exceeds : bool then Raise (Will_not_fit_maxsize (width, height) m)
        else Ok (dim_or_1 width, dim_or_1 height)
    | None => Ok (dim_or_1 width, dim_or_1 height)
    end.

(** The size that a call of [_valid_size] with at most one of [width] and
    [height] returns, as the pair of [int]s it is (see
    [valid_size_one_axis]); this is how [set_size] and the [rendered_*]
    properties call it.  A pair with another member would fail at its first
    arithmetic use. *)
Definition int_pair (r : result (dim * dim)) : result (Z * Z) :=
  size <- r ;;
  match size with
  | (DInt width, DInt height) => Ok (width, height)
  | _ => Raise Unsupported_operands
  end.

(** An [h_allow] / [v_allow] argument: an [int], or something else. *)
Inductive allowance_arg :=
  | AInt (z : Z)
  | AOther (type_name : string).

(** A [maxsize] argument: [None], a tuple (whose members are [int]s or
    not), or something else. *)
Inductive maxsize_arg :=
  | MNone
  | MTuple (items : list allowance_arg)
  | MOther.

Definition check_dimension (argname : string) (x : dim) : result unit :=
  match x with
  | DOther _ => Raise (Dimension_bad_type argname)
  | DInt z => if z <=? 0 then Raise (Dimension_not_positive argname z) else Ok tt
  | _ => Ok tt
  end.

Definition check_allowance (argname : string) (x : allowance_arg) : result Z :=
  match x with
  | AOther _ => Raise (Allowance_bad_type argname)
  | AInt z => if z <? 0 then Raise (Allowance_negative argname z) else Ok z
  end.

Definition is_AInt (x : allowance_arg) : bool :=
  match x with AInt _ => true | AOther _ => false end.

Definition check_maxsize (maxsize : maxsize_arg) : result (option (Z * Z)) :=
  match maxsize with
  | MNone => Ok None
  | MOther => Raise Maxsize_bad_type
  | MTuple items =>
      if negb (forallb is_AInt items) then Raise Maxsize_bad_type
      else
        match items with
        | [AInt c; AInt l] =>
            if (0 <? c) && (0 <? l) then Ok (Some (c, l))
            else Raise Maxsize_bad_value
        | _ => Raise Maxsize_bad_value
        end
  end.

(** [BaseImage.set_size]: the new state of the instance and the outcome. *)
Definition set_size (self : Image) (width height : dim)
    (h_allow v_allow : allowance_arg) (maxsize : maxsize_arg)
  : Image * result unit :=
  if negb (is_None width) && negb (is_None height) then
    (self, Raise Both_width_and_height)
  else
    match
      (_ <- check_dimension "width" width ;;
       _ <- check_dimension "height" height ;;
       h <- check_allowance "h_allow" h_allow ;;
       v <- check_allowance "v_allow" v_allow ;;
       m <- check_maxsize maxsize ;;
       let fit_to_width := Size_in FIT_TO_WIDTH width height in
       let v := if fit_to_width then 0 else v in
       size <- int_pair (_valid_size self width height h v m) ;;
       Ok (size, fit_to_width, h, v))
    with
    | Raise e => (self, Raise e)
    | Ok (size, fit_to_width, h, v) =>
        ({| _original_size := _original_size self;
            _size := Fixed size;
            _fit_to_width := fit_to_width;
            _h_allow := h;
            _v_allow := v;
            _scale := _scale self |}, Ok tt)
    end.

(** The setter of [BaseImage.size], given an enum member. *)
Definition set_size_enum (self : Image) (value : Size) : Image :=
  {| _original_size := _original_size self;
     _size := Dynamic value;
     _fit_to_width := Size_eqb value FIT_TO_WIDTH;
     _h_allow := 0;
     _v_allow := 2;
     _scale := _scale self |}.

(** [round(x * scale) or 1] *)
Definition scaled (x : Z) (scale : float) : result Z :=
  p <- int_mul_float x scale ;;
  r <- round_float p ;;
  Ok (or_1 r).

(** [BaseImage.rendered_size] *)
Definition rendered_size (self : Image) : result (Z * Z) :=
  size <- match _size self with
          | Dynamic s => int_pair (_valid_size self (DSize s) DNone 0 2 None)
          | Fixed size => Ok size
          end ;;
  w <- scaled (fst size) (fst (_scale self)) ;;
  h <- scaled (snd size) (snd (_scale self)) ;;
  Ok (w, h).

(** [BaseImage.rendered_height] *)
Definition rendered_height (self : Image) : result Z :=
  size <- match _size self with
          | Dynamic s => int_pair (_valid_size self DNone (DSize s) 0 2 None)
          | Fixed size => Ok size
          end ;;
  scaled (snd size) (snd (_scale self)).

(** [BaseImage.rendered_width] *)
Definition rendered_width (self : Image) : result Z :=
  size <- match _size self with
          | Dynamic s => int_pair (_valid_size self (DSize s) DNone 0 2 None)
          | Fixed size => Ok size
          end ;;
  scaled (fst size) (fst (_scale self)).

End SizeResolution.

(** ** Regular expressions

    The subset of Python's [re] syntax that the three patterns of the module
    use, and a backtracking matcher with Python's priorities: a greedy
    quantifier tries the longer match first, an alternation its left branch
    first, and a capture undone by backtracking is forgotten.  The only
    unbounded or counted repetitions in the patterns are over single
    characters, so [+] and [{n}] take a character set. *)

Inductive cset :=
  | CChars (cs : list ascii)     (* [abc] or a literal *)
  | CRange (lo hi : ascii)       (* [a-z] *)
  | CUnion (a b : cset)
  | CDot.                        (* . : anything but a newline *)

Fixpoint cset_mem (a : ascii) (c : cset) : bool :=
  match c with
  | CChars cs => existsb (Ascii.eqb a) cs
  | CRange lo hi => (nat_of_ascii lo <=? nat_of_ascii a)%nat
                    && (nat_of_ascii a <=? nat_of_ascii hi)%nat
  | CUnion x y => cset_mem a x || cset_mem a y
  | CDot => negb (Ascii.eqb a "010")
  end.

(** Every character of [s] is in [c]. *)
Fixpoint all_in (c : cset) (s : string) : bool :=
  match s with
  | EmptyString => true
  | String a s' => cset_mem a c && all_in c s'
  end.

(** [s] starts with a character of [c]. *)
Definition starts_in (c : cset) (s : string) : bool :=
  match s with
  | EmptyString => false
  | String a _ => cset_mem a c
  end.

Infix "+:+" := String.append (at level 60, right associativity).

Inductive regex :=
  | REmpty
  | RChar (c : cset)
  | RPlus (c : cset)                 (* c+ *)
  | RRepeat (n : nat) (c : cset)     (* c{n} *)
  | RSeq (r1 r2 : regex)
  | RAlt (r1 r2 : regex)             (* r1|r2 *)
  | ROpt (r : regex)                 (* r? *)
  | RGroup (i : nat) (r : regex).    (* the i-th capturing group *)

(** Group [i] of a match is [captures !! i]; index 0 is the whole match. *)
Definition captures := list (option string).

(** The part of [s] consumed when [rest] is what remains of it. *)
Definition consumed (s rest : string) : string :=
  substring 0 (String.length s - String.length rest) s.

Fixpoint plus_match {A} (c : cset) (s : string) (k : string -> option A)
  : option A :=
  match s with
  | String a s' =>
      if cset_mem a c then
        match plus_match c s' k with
        | Some r => Some r
        | None => k s'
        end
      else None
  | EmptyString => None
  end.

Fixpoint repeat_match {A} (n : nat) (c : cset) (s : string)
    (k : string -> option A) : option A :=
  match n with
  | O => k s
  | S n' =>
      match s with
      | String a s' => if cset_mem a c then repeat_match n' c s' k else None
      | EmptyString => None
      end
  end.

Fixpoint rmatch (r : regex) (s : string) (caps : captures)
    (k : string -> captures -> option captures) : option captures :=
  match r with
  | REmpty => k s caps
  | RChar c =>
      match s with
      | String a s' => if cset_mem a c then k s' caps else None
      | EmptyString => None
      end
  | RPlus c => plus_match c s (fun s' => k s' caps)
  | RRepeat n c => repeat_match n c s (fun s' => k s' caps)
  | RSeq r1 r2 => rmatch r1 s caps (fun s' caps' => rmatch r2 s' caps' k)
  | RAlt r1 r2 =>
      match rmatch r1 s caps k with
      | Some m => Some m
      | None => rmatch r2 s caps k
      end
  | ROpt r =>
      match rmatch r s caps k with
      | Some m => Some m
      | None => k s caps
      end
  | RGroup i r =>
      rmatch r s caps (fun s' caps' => k s' (<[i := Some (consumed s s')]> caps'))
  end.

(** The strings that a pattern denotes, captures apart. *)
Fixpoint denotes (r : regex) (s : string) : Prop :=
  match r with
  | REmpty => s = ""
  | RChar c => exists a, s = String a "" /\ cset_mem a c = true
  | RPlus c => s <> "" /\ all_in c s = true
  | RRepeat n c => String.length s = n /\ all_in c s = true
  | RSeq r1 r2 => exists s1 s2, s = s1 +:+ s2 /\ denotes r1 s1 /\ denotes r2 s2
  | RAlt r1 r2 => denotes r1 s \/ denotes r2 s
  | ROpt r => s = "" \/ denotes r s
  | RGroup _ r => denotes r s
  end.

(** [r] matches the empty string. *)
Fixpoint nullable (r : regex) : bool :=
  match r with
  | REmpty => true
  | RChar _ | RPlus _ => false
  | RRepeat n _ => (n =? 0)%nat
  | RSeq r1 r2 => nullable r1 && nullable r2
  | RAlt r1 r2 => nullable r1 || nullable r2
  | ROpt _ => true
  | RGroup _ r => nullable r
  end.

(** A match of [r] can start with the character [a]. *)
Fixpoint first (a : ascii) (r : regex) : bool :=
  match r with
  | REmpty => false
  | RChar c | RPlus c => cset_mem a c
  | RRepeat n c => negb (n =? 0)%nat && cset_mem a c
  | RSeq r1 r2 => first a r1 || (nullable r1 && first a r2)
  | RAlt r1 r2 => first a r1 || first a r2
  | ROpt r => first a r
  | RGroup _ r => first a r
  end.

(** No match of [r] takes a character of [s]. *)
Definition no_start (r : regex) (s : string) : Prop :=
  match s with
  | EmptyString => True
  | String a _ => first a r = false
  end.

(** Setting a group that took part in the match. *)
Definition ins (i : nat) (o : option string) (caps : captures) : captures :=
  match o with
  | Some x => <[i := Some x]> caps
  | None => caps
  end.

(** [pattern.fullmatch(s)] for a pattern with [ngroups] groups. *)
Definition fullmatch (ngroups : nat) (r : regex) (s : string) : option captures :=
  rmatch r s (replicate (S ngroups) None)
    (fun rest caps =>
       match rest with
       | EmptyString => Some (<[O := Some s]> caps)
       | _ => None
       end).

(** [match.groups()] picks groups by number; [group m i] is the i-th. *)
Definition group (m : captures) (i : nat) : option string :=
  match m !! i with
  | Some g => g
  | None => None
  end.

Definition lit (a : ascii) : regex := RChar (CChars [a]).
Definition digit : cset := CRange "0" "9".
Definition hexdigit : cset :=
  CUnion (CRange "0" "9") (CUnion (CRange "a" "f") (CRange "A" "F")).

Declare Scope regex_scope.
Notation "r1 >> r2" := (RSeq r1 r2) (at level 60, right associativity) : regex_scope.
Delimit Scope regex_scope with regex.

(** [(([<|>])?(\d+)?)?]: groups 1 to 3, shared by two patterns. *)
Definition horizontal_part : regex :=
  ROpt (RGroup 1 (ROpt (RGroup 2 (RChar (CChars ["<"; "|"; ">"]%char)))
                  >> ROpt (RGroup 3 (RPlus digit))))%regex.

(** [(\.([-^_])?(\d+)?)?]: groups 4 to 6. *)
Definition vertical_part : regex :=
  ROpt (RGroup 4 (lit "."
                  >> ROpt (RGroup 5 (RChar (CChars ["-"; "^"; "_"]%char)))
                  >> ROpt (RGroup 6 (RPlus digit))))%regex.

(** [(#(\.\d+|[0-9a-fA-F]{6}|#)?)?]: groups 7 and 8. *)
Definition transparency_part : regex :=
  ROpt (RGroup 7 (lit "#"
                  >> ROpt (RGroup 8 (RAlt (lit "." >> RPlus digit)
                                          (RAlt (RRepeat 6 hexdigit)
                                                (lit "#"))))))%regex.

(** [(\+(.+))?]: groups 9 and 10. *)
Definition style_part : regex :=
  ROpt (RGroup 9 (lit "+" >> RGroup 10 (RPlus CDot)))%regex.

(** [_FORMAT_SPEC]:
    [(([<|>])?(\d+)?)?(\.([-^_])?(\d+)?)?(#(\.\d+|[0-9a-fA-F]{6}|#)?)?(\+(.+))?] *)
Definition _FORMAT_SPEC : regex :=
  (horizontal_part >> vertical_part >> transparency_part >> style_part)%regex.

(** [_NO_VERTICAL_SPEC]:
    [(([<|>])?(\d+)?)?\.(#(\.\d+|[0-9a-fA-F]{6})?)?] *)
Definition _NO_VERTICAL_SPEC : regex :=
  (horizontal_part
   >> lit "."
   >> ROpt (RGroup 4 (lit "#"
                      >> ROpt (RGroup 5 (RAlt (lit "." >> RPlus digit)
                                              (RRepeat 6 hexdigit))))))%regex.

(** [_ALPHA_BG_FORMAT]: [#([0-9a-fA-F]{6})?] *)
Definition _ALPHA_BG_FORMAT : regex :=
  (lit "#" >> ROpt (RGroup 1 (RRepeat 6 hexdigit)))%regex.

(** ** Format specifiers *)

(** The number that a string of ASCII digits denotes. *)
Definition digit_value (a : ascii) : Z := Z.of_nat (nat_of_ascii a) - 48.

Fixpoint decimal_value_from (acc : Z) (s : string) : Z :=
  match s with
  | EmptyString => acc
  | String a s' => decimal_value_from (10 * acc + digit_value a) s'
  end.

Definition decimal_value (s : string) : Z := decimal_value_from 0 s.

(** [sys.get_int_max_str_digits()]: CPython's default limit on the digits
    of a string that [int] converts. *)
Definition int_max_str_digits : Z := 4300.

(** [int(s)] for a string of ASCII digits: a string of more digits than the
    limit is refused with a [ValueError]. *)
Definition py_int (s : string) : result Z :=
  if Z.of_nat (String.length s) >? int_max_str_digits
  then Raise (Int_too_many_digits (String.length s))
  else Ok (decimal_value s).

(** [x and int(x)] for a group of digits, which is [None] or not empty. *)
Definition and_int (x : option string) : result (option Z) :=
  match x with
  | Some s => z <- py_int s ;; Ok (Some z)
  | None => Ok None
  end.

(** [s.lstrip("#")] *)
Fixpoint lstrip_hash (s : string) : string :=
  match s with
  | String "#" s' => lstrip_hash s'
  | _ => s
  end.

(** [float(s)] for [s] of the form [.ddd], the only form in which a string
    reaches it: the double nearest to [ddd / 10^len(ddd)].  ([float] of a
    string does not overflow.) *)
Definition float_of_fraction (s : string) : result float :=
  match s with
  | String "." ds =>
      if negb (String.eqb ds "") && all_in digit ds
      then Ok (SFdiv prec emax (Z2SF (decimal_value ds))
                 (Z2SF (10 ^ Z.of_nat (String.length ds))))
      else Raise (OtherError "ValueError")
  | _ => Raise (OtherError "ValueError")
  end.

(** The [alpha] argument of the renderers: [None], a threshold or a
    background colour. *)
Inductive alpha_value :=
  | Alpha_None
  | Alpha_threshold (f : float)
  | Alpha_bg (color : string).

(** [_ALPHA_THRESHOLD = 40 / 255] *)
Definition _ALPHA_THRESHOLD : float :=
  match int_truediv 40 255 with
  | Ok f => f
  | Raise _ => S754_nan
  end.

(** The first four members of the tuple that [_check_format_spec] returns. *)
Record formatting := {
  fmt_h_align : option string;
  fmt_width : option Z;
  fmt_v_align : option string;
  fmt_height : option Z;
}.

(** [BaseImage._check_formatting], on arguments of the declared types. *)
Definition _check_formatting (h_align : option string) (width : option Z)
    (v_align : option string) (height : option Z) : result formatting :=
  h_align <-
    match h_align with
    | None => Ok None
    | Some a =>
        if existsb (String.eqb a) ["<"; "|"; ">"] then Ok (Some a)
        else if String.eqb a "left" then Ok (Some "<")
        else if String.eqb a "center" then Ok (Some "|")
        else if String.eqb a "right" then Ok (Some ">")
        else Raise (Invalid_h_align a)
    end ;;
  _ <- match width with
       | Some w => if w <=? 0 then Raise (Padding_width_not_positive w) else Ok tt
       | None => Ok tt
       end ;;
  v_align <-
    match v_align with
    | None => Ok None
    | Some a =>
        if existsb (String.eqb a) ["^"; "-"; "_"] then Ok (Some a)
        else if String.eqb a "top" then Ok (Some "^")
        else if String.eqb a "middle" then Ok (Some "-")
        else if String.eqb a "bottom" then Ok (Some "_")
        else Raise (Invalid_v_align a)
    end ;;
  _ <- match height with
       | Some h => if h <=? 0 then Raise (Padding_height_not_positive h) else Ok tt
       | None => Ok tt
       end ;;
  Ok {| fmt_h_align := h_align; fmt_width := width;
        fmt_v_align := v_align; fmt_height := height |}.

(** Style-specific arguments, as keyword/value pairs. *)
Definition style_args := list (string * string).

(** [BaseImage._check_style_format_spec] *)
Definition _check_style_format_spec (spec original : string) : result style_args :=
  if negb (String.eqb spec "") then
    Raise (Invalid_style_specifier original
             (if String.eqb spec original then None else Some spec))
  else Ok [].

(** The last-but-one member of the tuple: the transparency setting. *)
Definition alpha_of_groups (alpha threshold_or_bg : option string)
  : result alpha_value :=
  match alpha with
  | None => Ok (Alpha_threshold _ALPHA_THRESHOLD)
  | Some _ =>
      match threshold_or_bg with
      | None => Ok Alpha_None
      | Some t =>
          let bg := String "#" (lstrip_hash t) in
          match fullmatch 1 _ALPHA_BG_FORMAT bg with
          | Some _ => Ok (Alpha_bg bg)
          | None => f <- float_of_fraction t ;; Ok (Alpha_threshold f)
          end
      end
  end.

(** [BaseImage._check_format_spec] *)
Definition _check_format_spec (spec : string)
  : result (formatting * alpha_value * style_args) :=
  match fullmatch 10 _FORMAT_SPEC spec with
  | None => Raise (Invalid_format_specifier spec)
  | Some match_ =>
      match fullmatch 5 _NO_VERTICAL_SPEC spec with
      | Some _ => Raise (Invalid_format_specifier spec)
      | None =>
        let h_align := group match_ 2 in
        let width := group match_ 3 in
        let v_align := group match_ 5 in
        let height := group match_ 6 in
        let alpha := group match_ 7 in
        let threshold_or_bg := group match_ 8 in
        let style_spec := group match_ 10 in
        width <- and_int width ;;
        height <- and_int height ;;
        fmt <- _check_formatting h_align width v_align height ;;
        alpha <- alpha_of_groups alpha threshold_or_bg ;;
        style <- match style_spec with
                 | Some s => _check_style_format_spec s s
                 | None => Ok []
                 end ;;
        Ok (fmt, alpha, style)
      end
  end.

(** ** The frame generator [ImageIterator._animate]

    A generator is a coroutine: its local variables and the [yield] at which
    it is suspended make up its state, and [next()] / [send()] run it to the
    next [yield].  What the generator asks of the outside when it runs (a
    rendered frame, the current rendered size) is a [World]: the answers
    that the image and the terminal give during that one resumption.  The
    caller may change the image size, the scale, the render method or the
    terminal between two resumptions, so each resumption has its own. *)

Record World := {
  (** [image._format_render(image._render_image(img, alpha, frame=True,
      **style_args), *fmt)] with [image._seek_position = n] *)
  render_frame : Z -> result string;
  (** [image.rendered_size] *)
  current_rendered_size : result (Z * Z);
}.

(** A cache slot [(frame, size_hash)].  The code writes the two members
    together, so a slot is the initial [(None, None)] or a pair. *)
Definition slot := option (string * Z).

Inductive gen_pc :=
  | GCreated          (* not started *)
  | GFirstLoop        (* suspended at the [yield] of the first [while] *)
  | GSecondLoop       (* suspended at the [yield] of the second [while] *)
  | GFinished.        (* returned, raised or closed *)

(** The generator object: where it is suspended and its local variables. *)
Record generator := {
  pc : gen_pc;
  g_img : nat;                   (* img, a PIL image, by identity *)
  g_cached : bool;               (* cached *)
  g_repeat : Z;                  (* repeat *)
  g_n : Z;                       (* n *)
  g_frame : string;              (* frame *)
  g_cache : list slot;           (* cache *)
}.

(** The attributes of the iterator and of its image that the generator and
    the iterator's methods read and write. *)
Record ImageIterator := {
  _repeat : Z;
  _cached : bool;
  _loop_no : option Z;
  _animator : option generator;  (* [None]: the attribute does not exist *)
  _img : option nat;             (* [None]: the attribute does not exist *)
  (* the underlying image *)
  n_frames : Z;                  (* image.n_frames *)
  _seek_position : Z;            (* image._seek_position *)
  _source : option nat;          (* image._source; absent once the image is closed *)
  pil_closed : list nat;         (* the PIL images on which [close()] was called *)
}.

Inductive gen_outcome :=
  | GYield (frame : string)
  | GReturn                      (* [StopIteration] *)
  | GRaise (e : exn)
  | GDiverge.                    (* the resumption neither yields nor ends *)

Definition set_animator (g : option generator) (it : ImageIterator) : ImageIterator :=
  {| _repeat := _repeat it; _cached := _cached it; _loop_no := _loop_no it;
     _animator := g; _img := _img it; n_frames := n_frames it;
     _seek_position := _seek_position it; _source := _source it;
     pil_closed := pil_closed it |}.

Definition set_seek_position (n : Z) (it : ImageIterator) : ImageIterator :=
  {| _repeat := _repeat it; _cached := _cached it; _loop_no := _loop_no it;
     _animator := _animator it; _img := _img it; n_frames := n_frames it;
     _seek_position := n; _source := _source it;
     pil_closed := pil_closed it |}.

Definition set_loop_no (r : Z) (it : ImageIterator) : ImageIterator :=
  {| _repeat := _repeat it; _cached := _cached it; _loop_no := Some r;
     _animator := _animator it; _img := _img it; n_frames := n_frames it;
     _seek_position := _seek_position it; _source := _source it;
     pil_closed := pil_closed it |}.

Definition set_img (img : option nat) (it : ImageIterator) : ImageIterator :=
  {| _repeat := _repeat it; _cached := _cached it; _loop_no := _loop_no it;
     _animator := _animator it; _img := img; n_frames := n_frames it;
     _seek_position := _seek_position it; _source := _source it;
     pil_closed := pil_closed it |}.

Definition add_pil_closed (img : nat) (it : ImageIterator) : ImageIterator :=
  {| _repeat := _repeat it; _cached := _cached it; _loop_no := _loop_no it;
     _animator := _animator it; _img := _img it; n_frames := n_frames it;
     _seek_position := _seek_position it; _source := _source it;
     pil_closed := img :: pil_closed it |}.

Definition set_pc (p : gen_pc) (g : generator) : generator :=
  {| pc := p; g_img := g_img g; g_cached := g_cached g; g_repeat := g_repeat g;
     g_n := g_n g; g_frame := g_frame g; g_cache := g_cache g |}.

Definition set_n (n : Z) (g : generator) : generator :=
  {| pc := pc g; g_img := g_img g; g_cached := g_cached g; g_repeat := g_repeat g;
     g_n := n; g_frame := g_frame g; g_cache := g_cache g |}.

Definition set_repeat (r : Z) (g : generator) : generator :=
  {| pc := pc g; g_img := g_img g; g_cached := g_cached g; g_repeat := r;
     g_n := g_n g; g_frame := g_frame g; g_cache := g_cache g |}.

Definition set_frame (frame : string) (cache : list slot) (g : generator) : generator :=
  {| pc := pc g; g_img := g_img g; g_cached := g_cached g; g_repeat := g_repeat g;
     g_n := g_n g; g_frame := frame; g_cache := cache |}.

(** An exception leaving the generator's frame; [StopIteration] raised
    inside a generator surfaces as [RuntimeError] (PEP 479). *)
Definition escaping (e : exn) : exn :=
  match e with
  | StopIteration _ => OtherError "RuntimeError"
  | _ => e
  end.

Definition gen_step := (ImageIterator * generator * gen_outcome)%type.

(** [yield frame] at the given suspension point. *)
Definition gen_yield (p : gen_pc) (g : generator) (it : ImageIterator) : gen_step :=
  (it, set_pc p g, GYield (g_frame g)).

(** Falling off the end of the generator. *)
Definition gen_return (g : generator) (it : ImageIterator) : gen_step :=
  (it, set_pc GFinished g, GReturn).

Definition gen_raise (e : exn) (g : generator) (it : ImageIterator) : gen_step :=
  (it, set_pc GFinished g, GRaise (escaping e)).

(** [image._seek_position = n = 0] and
    [if repeat > 0: self._loop_no = repeat = repeat - 1] *)
Definition wrap_around (g : generator) (it : ImageIterator)
  : generator * ImageIterator :=
  let it := set_seek_position 0 it in
  let g := set_n 0 g in
  if g_repeat g >? 0
  then (set_repeat (g_repeat g - 1) g, set_loop_no (g_repeat g - 1) it)
  else (g, it).

(** What a loop with nothing to yield does: it wraps around until the count
    is exhausted, for ever when the count is negative. *)
Definition spin (g : generator) (it : ImageIterator) : gen_step :=
  if g_repeat g >? 0
  then gen_return (set_repeat 0 g) (set_loop_no 0 it)
  else (it, g, GDiverge).

(** The [cached] argument: a [bool] or an [int]. *)
Inductive cached_arg :=
  | CBool (b : bool)
  | CInt (z : Z).

(** What a method call does to its caller. *)
Inductive outcome (A : Type) :=
  | Returns (a : A)
  | Raises (e : exn)
  | Diverges.
Arguments Returns {A} a.
Arguments Raises {A} e.
Arguments Diverges {A}.

Section Animate.
(** [hash] on a tuple of two [int]s. *)
Variable hash : Z * Z -> Z.

(** [cache[n] = (frame, hash(image.rendered_size))]; every [n] the code
    reaches is non-negative, and an [n] past the end is an [IndexError]. *)
Definition store (w : World) (cache : list slot) (n : Z) (frame : string)
  : result (list slot) :=
  size <- current_rendered_size w ;;
  if (0 <=? n) && (n <? Z.of_nat (length cache)) then
    Ok (<[Z.to_nat n := Some (frame, hash size)]> cache)
  else Raise (OtherError "IndexError").

(** The body of the second loop when [sent is None]: the cached frame if
    the fingerprint of the current size is the cached one, a new render
    stored in the slot otherwise. *)
Definition second_loop_frame (w : World) (g : generator) (it : ImageIterator)
  : gen_step :=
  let it := set_seek_position (g_n g) it in
  match g_cache g !! Z.to_nat (g_n g) with
  | None => gen_raise (OtherError "IndexError") g it
  | Some cached_slot =>
      match current_rendered_size w with
      | Raise e => gen_raise e g it
      | Ok size =>
          match cached_slot with
          | Some (frame, size_hash) =>
              if hash size =? size_hash
              then gen_yield GSecondLoop (set_frame frame (g_cache g) g) it
              else
                match render_frame w (g_n g) with
                | Raise e => gen_raise e g it
                | Ok frame =>
                    match store w (g_cache g) (g_n g) frame with
                    | Raise e => gen_raise e g it
                    | Ok cache => gen_yield GSecondLoop (set_frame frame cache g) it
                    end
                end
          | None =>
              match render_frame w (g_n g) with
              | Raise e => gen_raise e g it
              | Ok frame =>
                  match store w (g_cache g) (g_n g) frame with
                  | Raise e => gen_raise e g it
                  | Ok cache => gen_yield GSecondLoop (set_frame frame cache g) it
                  end
              end
          end
      end
  end.

(** The inner loop's body, at [if sent is None]. *)
Definition second_loop_body (w : World) (sent : option Z) (g : generator)
    (it : ImageIterator) : gen_step :=
  match sent with
  | Some _ => gen_yield GSecondLoop g it
  | None => second_loop_frame w g it
  end.

(** The second loop, at the test of [while n < n_frames] (inside
    [while repeat:]), with [n_frames = len(cache)]. *)
Definition second_loop (w : World) (sent : option Z) (g : generator)
    (it : ImageIterator) : gen_step :=
  let n_frames := Z.of_nat (length (g_cache g)) in
  if g_n g <? n_frames then second_loop_body w sent g it
  else
    let '(g, it) := wrap_around g it in
    if g_repeat g =? 0 then gen_return g it
    else if 0 <? n_frames then second_loop_body w sent g it
    else spin g it.

(** The first loop after [continue], at its test, with [n = 0], no cache
    and [sent is None]. *)
Definition first_loop_again (w : World) (g : generator) (it : ImageIterator)
  : gen_step :=
  if g_repeat g =? 0 then gen_return g it
  else
    let it := set_seek_position 0 it in
    match render_frame w 0 with
    | Ok frame => gen_yield GFirstLoop (set_frame frame (g_cache g) g) it
    | Raise EOFError => spin g it
    | Raise e => gen_raise e g it
    end.

(** The first loop, at the test of [while repeat:]. *)
Definition first_loop (w : World) (sent : option Z) (g : generator)
    (it : ImageIterator) : gen_step :=
  if g_repeat g =? 0 then gen_return g it
  else
    match sent with
    | Some _ => gen_yield GFirstLoop g it
    | None =>
        let it := set_seek_position (g_n g) it in
        match render_frame w (g_n g) with
        | Ok frame =>
            if g_cached g then
              match store w (g_cache g) (g_n g) frame with
              | Ok cache => gen_yield GFirstLoop (set_frame frame cache g) it
              | Raise e => gen_raise e g it
              end
            else gen_yield GFirstLoop (set_frame frame (g_cache g) g) it
        | Raise EOFError =>
            let '(g, it) := wrap_around g it in
            if g_cached g then
              (* break *)
              if g_repeat g =? 0 then gen_return g it
              else second_loop w None g it
            else
              (* continue *)
              first_loop_again w g it
        | Raise e => gen_raise e g it
        end
    end.

(** [n = n + 1 if sent is None else sent - 1] *)
Definition next_n (sent : option Z) (n : Z) : Z :=
  match sent with
  | None => n + 1
  | Some pos => pos - 1
  end.

(** [generator.send(sent)]; [next(generator)] is [send(None)]. *)
Definition gen_send (w : World) (sent : option Z) (g : generator)
    (it : ImageIterator) : gen_step :=
  match pc g with
  | GCreated =>
      match sent with
      | Some _ => (it, g, GRaise Cannot_send_non_None)
      | None =>
          let it := set_img (Some (g_img g)) it in
          let g := set_repeat (_repeat it) g in
          let it := set_loop_no (_repeat it) it in
          let g := {| pc := GCreated; g_img := g_img g; g_cached := _cached it;
                      g_repeat := g_repeat g; g_n := 0; g_frame := g_frame g;
                      g_cache := if _cached it
                                 then replicate (Z.to_nat (n_frames it)) None
                                 else [] |} in
          first_loop w None g it
      end
  | GFirstLoop => first_loop w sent (set_n (next_n sent (g_n g)) g) it
  | GSecondLoop => second_loop w sent (set_n (next_n sent (g_n g)) g) it
  | GFinished => (it, g, GReturn)
  end.

(** [generator.close()]: the generator has no handler around its [yield]s. *)
Definition gen_close (g : generator) : generator := set_pc GFinished g.

(** A new generator object: [self._animate(img, alpha, fmt, style_args)]. *)
Definition _animate (img : nat) : generator :=
  {| pc := GCreated; g_img := img; g_cached := false; g_repeat := 0;
     g_n := 0; g_frame := ""; g_cache := [] |}.

(** *** [ImageIterator] *)

(** [ImageIterator.__init__], after the type checks; [format_ok] is the
    outcome of [image._check_format_spec(format)] and [img] that of
    [image._renderer(...)] up to the call of [self._animate]. *)
Definition ImageIterator_init (is_animated : bool) (image_n_frames : Z)
    (image_seek_position : Z) (image_source : option nat)
    (repeat : Z) (format_ok : result unit) (cached : cached_arg)
    (img : result nat) : result ImageIterator :=
  if negb is_animated then Raise Not_animated
  else if repeat =? 0 then Raise Repeat_zero
  else
    _ <- format_ok ;;
    _ <- match cached with
         | CInt z => if z <=? 0 then Raise Cached_not_positive else Ok tt
         | CBool _ => Ok tt
         end ;;
    img <- img ;;
    Ok {| _repeat := repeat;
          _cached := match cached with
                     | CBool b => b
                     | CInt z => image_n_frames <=? z
                     end && negb (repeat =? 1);
          _loop_no := None;
          _animator := Some (_animate img);
          _img := None;
          n_frames := image_n_frames;
          _seek_position := image_seek_position;
          _source := image_source;
          pil_closed := [] |}.

(** [str.endswith] *)
Definition endswith (s suffix : string) : bool :=
  let n := String.length s in
  let m := String.length suffix in
  (m <=? n)%nat && String.eqb (substring (n - m) m s) suffix.

(** [ImageIterator.close] *)
Definition close (it : ImageIterator) : ImageIterator :=
  match _animator it with
  | None => it                       (* AttributeError: pass *)
  | Some _ =>
      (* self._animator.close(); del self._animator *)
      let it := set_animator None it in
      match _img it with
      | None => it                   (* AttributeError: pass *)
      | Some img =>
          (* self._image._close_image(self._img) *)
          match _source it with
          | None => it               (* AttributeError: pass *)
          | Some source =>
              let it := if Nat.eqb img source then it else add_pil_closed img it in
              (* del self._img *)
              set_img None it
          end
      end
  end.

Definition exhausted_or_closed : string := "Iterator exhausted or closed".
Definition reached_repeat_count : string :=
  "Iteration has reached the given repeat count".

(** [ImageIterator.__next__] *)
Definition __next__ (w : World) (it : ImageIterator)
  : ImageIterator * outcome string :=
  match _animator it with
  | None =>
      (* AttributeError: '...' object has no attribute '_animator' *)
      (it, Raises (StopIteration exhausted_or_closed))
  | Some g =>
      let '(it, g, out) := gen_send w None g it in
      let it := set_animator (Some g) it in
      match out with
      | GYield frame => (it, Returns frame)
      | GDiverge => (it, Diverges)
      | GReturn => (close it, Raises (StopIteration reached_repeat_count))
      | GRaise (AttributeError msg) =>
          if endswith msg "'_animator'"
          then (it, Raises (StopIteration exhausted_or_closed))
          else (close it, Raises (AttributeError msg))
      | GRaise e =>
          if is_Exception e then (close it, Raises e) else (it, Raises e)
      end
  end.

(** [ImageIterator.seek], after the type check. *)
Definition seek (w : World) (pos : Z) (it : ImageIterator)
  : ImageIterator * outcome unit :=
  if negb ((0 <=? pos) && (pos <? n_frames it))
  then (it, Raises (Frame_out_of_range pos))
  else
    match _animator it with
    | None => (it, Raises Iterator_closed)
    | Some g =>
        let '(it, g, out) := gen_send w (Some pos) g it in
        let it := set_animator (Some g) it in
        match out with
        | GYield _ => (it, Returns tt)
        | GDiverge => (it, Diverges)
        | GReturn => (it, Raises (StopIteration ""))
        | GRaise e =>
            match class_of e with
            | CTypeError => (it, Raises Iteration_not_started)
            | CAttributeError => (it, Raises Iterator_closed)
            | _ => (it, Raises e)
            end
        end
    end.
End Animate.

(** ** Drawing: [BaseImage.draw], [_renderer], [_display_animated] *)

(** What is written to standard output, one constructor per control
    sequence of the code and one for the rendered text. *)
Inductive write :=
  | Text (s : string)            (* a formatted render *)
  | HideCursor                   (* CSI ?25l *)
  | ShowCursor                   (* CSI ?25h *)
  | ColorReset                   (* COLOR_RESET *)
  | CarriageReturn               (* \r *)
  | CursorUp (n : Z)             (* CSI n A *)
  | CursorDown (n : Z)           (* CSI n B *)
  | Newline.                     (* the default [end] of [print] *)

(** An image as [draw] sees it. *)
Record Drawable := {
  image : Image;
  _is_animated : bool;
  image_n_frames : Z;
  image_seek_position : Z;
  image_source : option nat;
}.

Definition with_image (self : Drawable) (i : Image) : Drawable :=
  {| image := i; _is_animated := _is_animated self;
     image_n_frames := image_n_frames self;
     image_seek_position := image_seek_position self;
     image_source := image_source self |}.

Definition with_seek_position (self : Drawable) (n : Z) : Drawable :=
  {| image := image self; _is_animated := _is_animated self;
     image_n_frames := image_n_frames self;
     image_seek_position := n;
     image_source := image_source self |}.

(** The arguments of [draw], of their declared types. *)
Record draw_args := {
  a_h_align : option string;
  a_pad_width : option Z;
  a_v_align : option string;
  a_pad_height : option Z;
  a_alpha : alpha_value;
  a_scroll : bool;
  a_animate : bool;
  a_repeat : Z;
  a_cached : cached_arg;
  a_check_size : bool;
  a_native : bool;               (* style.get("native") *)
}.

(** What happens around one frame of an animation after the first: the
    world in which the generator renders it, and whether [KeyboardInterrupt]
    arrives during [time.sleep]. *)
Record frame_env := {
  env_world : World;
  env_interrupt : bool;
}.

(** What the outside answers during one call of [draw]. *)
Record DrawEnv := {
  isatty : bool;                         (* sys.stdout.isatty() *)
  get_image : result nat;                (* self._get_image() *)
  checked_style_args : result unit;      (* self._check_style_args(style) *)
  still_render : result string;          (* the formatted render of a still image *)
  first_world : World;                   (* for the first frame *)
  later_frames : list frame_env;         (* for the frames after it *)
}.

(** How a run ends: it returns or raises, it diverges inside the generator,
    or the animation is still running when [later_frames] is used up. *)
Inductive run_end :=
  | Ended (r : result unit)
  | Diverged
  | StillRunning.

Section Draw.
Context {style : RenderStyle}.
Variable get_terminal_size : Z * Z.
Variable hash : Z * Z -> Z.

(** [next(image_it._animator)] *)
Definition next_frame (w : World) (it : ImageIterator)
  : ImageIterator * gen_outcome :=
  match _animator it with
  | None => (it, GRaise (AttributeError "'ImageIterator' object has no attribute '_animator'"))
  | Some g =>
      let '(it, g, out) := gen_send hash w None g it in
      (set_animator (Some g) it, out)
  end.

(** The [for frame in image_it._animator] loop of [_display_animated]. *)
Fixpoint frame_loop (lines : Z) (frames : list frame_env) (it : ImageIterator)
  : ImageIterator * list write * run_end :=
  match frames with
  | [] => (it, [], StillRunning)
  | f :: frames =>
      let '(it, out) := next_frame (env_world f) it in
      match out with
      | GReturn => (it, [], Ended (Ok tt))
      | GRaise e => (it, [], Ended (Raise e))
      | GDiverge => (it, [], Diverged)
      | GYield frame =>
          if env_interrupt f then (it, [], Ended (Raise KeyboardInterrupt))
          else
            let '(it, ws, e) := frame_loop lines frames it in
            (it, ([CarriageReturn; CursorUp (lines - 1); Text frame] ++ ws)%list, e)
      end
  end.

(** The [try] block of [_display_animated]. *)
Definition first_and_later_frames (lines : Z) (env : DrawEnv) (it : ImageIterator)
  : ImageIterator * list write * run_end :=
  let '(it, out) := next_frame (first_world env) it in
  match out with
  | GReturn => (it, [], Ended (Raise (StopIteration "")))
  | GRaise e => (it, [], Ended (Raise e))
  | GDiverge => (it, [], Diverged)
  | GYield frame =>
      let '(it, ws, e) := frame_loop lines (later_frames env) it in
      (it, Text frame :: ws, e)
  end.

(** [(fmt or (None,))[-1] or get_terminal_size()[1] - self._v_allow]: the
    padding height, by default the available height. *)
Definition padding_lines (self : Drawable) (fmt : formatting) : Z :=
  match fmt_height fmt with
  | Some h => if h =? 0 then snd get_terminal_size - _v_allow (image self) else h
  | None => snd get_terminal_size - _v_allow (image self)
  end.

(** [max((fmt or (None,))[-1] or get_terminal_size()[1] - self._v_allow,
        self.rendered_height)] *)
Definition animation_lines (self : Drawable) (fmt : formatting) : result Z :=
  h <- rendered_height get_terminal_size (image self) ;;
  Ok (Z.max (padding_lines self fmt) h).

(** [BaseImage._display_animated] *)
Definition _display_animated (self : Drawable) (img : nat) (fmt : formatting)
    (repeat : Z) (cached : cached_arg) (env : DrawEnv)
  : Drawable * list write * run_end :=
  match animation_lines self fmt with
  | Raise e => (self, [], Ended (Raise e))
  | Ok lines =>
      let prev_seek_pos := image_seek_position self in
      match ImageIterator_init (_is_animated self) (image_n_frames self)
              (image_seek_position self) (image_source self) repeat
              (_ <- _check_format_spec "" ;; Ok tt) cached (get_image env) with
      | Raise e => (self, [], Ended (Raise e))
      | Ok image_it =>
          let image_it := set_animator (Some (_animate img)) image_it in
          let '(image_it, ws, e) := first_and_later_frames lines env image_it in
          match e with
          | Ended r =>
              (* finally *)
              (with_seek_position self prev_seek_pos,
               (ws ++ [CursorDown lines])%list, Ended r)
          | _ => (with_seek_position self (_seek_position image_it), ws, e)
          end
      end
  end.

(** The nested function [render] of [draw]. *)
Definition draw_render (self : Drawable) (args : draw_args) (fmt : formatting)
    (env : DrawEnv) (img : nat) : Drawable * list write * run_end :=
  let hide := if isatty env then [HideCursor] else [] in
  let restore := (ColorReset :: (if isatty env then [ShowCursor] else []) ++ [Newline])%list in
  let '(self, ws, e) :=
    match checked_style_args env with
    | Raise e => (self, [], Ended (Raise e))
    | Ok _ =>
        if _is_animated self && a_animate args then
          _display_animated self img fmt (a_repeat args) (a_cached args) env
        else
          match still_render env with
          | Ok text => (self, [Text text], Ended (Ok tt))
          | Raise e => (self, [], Ended (Raise e))
          end
    end in
  match e with
  | Ended r => (self, (hide ++ ws ++ restore)%list, Ended r)     (* finally *)
  | _ => (self, (hide ++ ws)%list, e)
  end.

(** The checks of [_renderer] before it calls the renderer. *)
Definition check_render_size (self : Image) (scroll check_size animated : bool)
  : result unit :=
  if check_size || animated then
    let columns := fst get_terminal_size - _h_allow self in
    let lines := snd get_terminal_size
                 - (if animated || negb scroll then _v_allow self else 0) in
    size <- rendered_size get_terminal_size self ;;
    let height := if _fit_to_width self || scroll then 0 else snd size in
    if (fst size >? columns) || (height >? lines)
    then Raise (Cannot_fit_terminal animated)
    else if animated then
      h <- rendered_height get_terminal_size self ;;
      if h >? lines then Raise Height_exceeds_terminal else Ok tt
    else Ok tt
  else Ok tt.

(** [BaseImage._renderer] as [draw] calls it. *)
Definition _renderer (self : Drawable) (args : draw_args) (fmt : formatting)
    (env : DrawEnv) : Drawable * list write * run_end :=
  let animated := negb (a_native args) && _is_animated self && a_animate args in
  let restore_size (d : Drawable) :=
    match _size (image self) with
    | Dynamic s => with_image d (set_size_enum (image d) s)
    | Fixed _ => d
    end in
  let prepared :=
    match _size (image self) with
    | Dynamic s =>
        let '(i, r) := set_size get_terminal_size (image self) (DSize s) DNone
                         (AInt 0) (AInt 2) MNone in
        (with_image self i, r)
    | Fixed _ =>
        (self, check_render_size (image self) (a_scroll args)
                 (a_check_size args) animated)
    end in
  match prepared with
  | (self', Raise e) => (restore_size self', [], Ended (Raise e))
  | (self', Ok _) =>
      match get_image env with
      | Raise e => (restore_size self', [], Ended (Raise e))
      | Ok img =>
          let '(d, ws, e) := draw_render self' args fmt env img in
          (restore_size d, ws, e)
      end
  end.

(** The validation at the head of [BaseImage.draw]. *)
Definition check_draw_args (self : Drawable) (args : draw_args)
  : result formatting :=
  fmt <- _check_formatting (a_h_align args) (a_pad_width args)
           (a_v_align args) (a_pad_height args) ;;
  _ <- match a_alpha args with
       | Alpha_None => Ok tt
       | Alpha_threshold f =>
           if SFleb float_0_0 f && SFltb f float_1_0 then Ok tt
           else Raise Alpha_out_of_range
       | Alpha_bg color =>
           match fullmatch 1 _ALPHA_BG_FORMAT color with
           | Some _ => Ok tt
           | None => Raise (Invalid_hex_color color)
           end
       end ;;
  _ <- match a_pad_width args with
       | Some w =>
           if w >? fst get_terminal_size - _h_allow (image self)
           then Raise Padding_width_too_large else Ok tt
       | None => Ok tt
       end ;;
  _ <- (if negb (a_native args) && _is_animated self && a_animate args then
          match a_pad_height args with
          | Some h =>
              if h >? snd get_terminal_size
              then Raise Padding_height_too_large else Ok tt
          | None => Ok tt
          end
        else Ok tt) ;;
  Ok fmt.

(** [BaseImage.draw] *)
Definition draw (self : Drawable) (args : draw_args) (env : DrawEnv)
  : Drawable * list write * run_end :=
  match check_draw_args self args with
  | Raise e => (self, [], Ended (Raise e))
  | Ok fmt => _renderer self args fmt env
  end.

End Draw.

(** ** Using an iterator: sequences of calls *)

(** A call made on an iterator, with the world in which it runs. *)
Inductive call :=
  | Call_next (w : World)
  | Call_seek (w : World) (pos : Z)
  | Call_close.

(** What the caller gets back. *)
Inductive reply :=
  | Frame (frame : string)       (* [__next__] returned *)
  | Done                         (* [seek] or [close] returned *)
  | Raised (e : exn)
  | NoReturn.                    (* the call does not return *)

Section Calls.
Variable hash : Z * Z -> Z.

Definition perform (c : call) (it : ImageIterator) : ImageIterator * reply :=
  match c with
  | Call_next w =>
      let '(it, o) := __next__ hash w it in
      (it, match o with
           | Returns frame => Frame frame
           | Raises e => Raised e
           | Diverges => NoReturn
           end)
  | Call_seek w pos =>
      let '(it, o) := seek hash w pos it in
      (it, match o with
           | Returns _ => Done
           | Raises e => Raised e
           | Diverges => NoReturn
           end)
  | Call_close => (close it, Done)
  end.

Fixpoint perform_all (cs : list call) (it : ImageIterator)
  : ImageIterator * list reply :=
  match cs with
  | [] => (it, [])
  | c :: cs =>
      let '(it, r) := perform c it in
      let '(it, rs) := perform_all cs it in
      (it, r :: rs)
  end.

(** [next(it)] once per world of the list. *)
Definition advance_all (ws : list World) (it : ImageIterator)
  : ImageIterator * list reply :=
  perform_all (map Call_next ws) it.

End Calls.

(** The iterator has been closed: [self._animator] is gone. *)
Definition closed (it : ImageIterator) : Prop := _animator it = None.

(** The cache of the iterator's generator. *)
Definition cache_of (it : ImageIterator) : list slot :=
  match _animator it with
  | Some g => g_cache g
  | None => []
  end.

(** ** The terminal, as far as [draw] touches it *)

(** The state of the terminal that the writes of [draw] change, and the
    echo of typed input, which nothing in [draw] changes. *)
Record terminal := {
  cursor_visible : bool;
  colors_reset : bool;
  echo : bool;
}.

(** The effect of one write.  Rendered text may leave colours set. *)
Definition apply_write (t : terminal) (w : write) : terminal :=
  match w with
  | HideCursor =>
      {| cursor_visible := false; colors_reset := colors_reset t; echo := echo t |}
  | ShowCursor =>
      {| cursor_visible := true; colors_reset := colors_reset t; echo := echo t |}
  | ColorReset =>
      {| cursor_visible := cursor_visible t; colors_reset := true; echo := echo t |}
  | Text _ =>
      {| cursor_visible := cursor_visible t; colors_reset := false; echo := echo t |}
  | CarriageReturn | CursorUp _ | CursorDown _ | Newline => t
  end.

Definition after_writes (t : terminal) (ws : list write) : terminal :=
  fold_left apply_write ws t.

(** The states of the terminal after each write of a list. *)
Fixpoint states_during (t : terminal) (ws : list write) : list terminal :=
  match ws with
  | [] => []
  | w :: ws => apply_write t w :: states_during (apply_write t w) ws
  end.

(** The writes of an animation of the given frames on [lines] lines: the
    first frame, then each frame after a return to the first line. *)
Definition frame_writes (lines : Z) (frames : list string) : list write :=
  match frames with
  | [] => []
  | frame :: frames =>
      Text frame
      :: flat_map (fun frame => [CarriageReturn; CursorUp (lines - 1); Text frame])
           frames
  end.

(** Neither a cursor-visibility nor a colour-reset sequence. *)
Definition is_frame_write (w : write) : bool :=
  match w with
  | Text _ | CarriageReturn | CursorUp _ | CursorDown _ => true
  | HideCursor | ShowCursor | ColorReset | Newline => false
  end.

(** The number of rendered texts among writes. *)
Definition count_texts (ws : list write) : nat :=
  length (List.filter (fun w => match w with Text _ => true | _ => false end) ws).

(* ===================================================================== *)
(** * Part I, continued. Predicates and examples that the theorems use *)
(* ===================================================================== *)

(** ** Sizes *)

(** A float that is not below zero: a zero of either sign, a positive
    number or infinity, or NaN (which no rounding accepts). *)
Definition not_negative (f : float) : bool :=
  match f with
  | S754_zero _ => true
  | S754_infinity s => negb s
  | S754_nan => true
  | S754_finite s _ _ => negb s
  end.

Definition nonneg_float (f : float) : Prop := not_negative f = true.

(** A number that is not below zero. *)
Definition nonneg_num (a : num) : Prop :=
  match a with
  | Int z => 0 <= z
  | Float f => nonneg_float f
  end.





(** [r] is an exception of class [c]. *)
Definition raises_class {A} (r : result A) (c : exn_class) : Prop :=
  exists e, r = Raise e /\ class_of e = c.

(** Every exception that [r] can be satisfies [P]. *)
Definition only_raises {A} (P : exn -> Prop) (r : result A) : Prop :=
  forall e, r = Raise e -> P e.

(** Every value that [r] can be satisfies [P]. *)
Definition returns {A} (P : A -> Prop) (r : result A) : Prop :=
  forall a, r = Ok a -> P a.

(** The exceptions of the arithmetic on [int]s and [float]s. *)
Definition arithmetic_error (e : exn) : Prop :=
  e = ZeroDivisionError \/ e = OverflowError \/ e = Float_NaN_to_integer.

(** A style whose pixel ratio is not negative and whose unit conversions
    send non-negative amounts to non-negative amounts. *)
Record sensible `(style : RenderStyle) : Prop := {
  pixel_ratio_not_negative : nonneg_float _pixel_ratio;
  cols_not_negative : forall a,
    0 <= match a with Pixels x | Cells x => x end -> 0 <= _pixels_cols a;
  lines_not_negative : forall a,
    0 <= match a with Pixels x | Cells x => x end -> 0 <= _pixels_lines a;
}.

(** [0 < z] for a given [int], nothing for the rest: what [set_size]
    checks before it resolves a size. *)
Definition positive_if_int (x : dim) : Prop :=
  match x with
  | DInt z => 0 < z
  | _ => True
  end.

Definition at_least_1 (size : Z * Z) : Prop := 1 <= fst size /\ 1 <= snd size.

(** A pair of [int]s, both at least 1. *)
Definition ints_at_least_1 (size : dim * dim) : Prop :=
  exists w h, size = (DInt w, DInt h) /\ at_least_1 (w, h).

(** A fixed [_size] is one that [set_size] stored. *)
Definition size_stored_ok (self : Image) : Prop :=
  match _size self with
  | Fixed size => at_least_1 size
  | Dynamic _ => True
  end.

(** A 2:1 image with dynamic size and full scale. *)
Definition image_2x1 : Image :=
  {| _original_size := (2, 1); _size := Dynamic FIT; _fit_to_width := false;
     _h_allow := 0; _v_allow := 2; _scale := (float_1_0, float_1_0) |}.


(** A graphics-based style on a terminal whose cells are 1 by 2 pixels
    (cell ratio 0.5): [get_cell_size()] is [None] or [(1, 2)]. *)
Definition graphics_1x2 : RenderStyle := GraphicsImage (1, 2).

(** The specification's account of the size error, at one input: size
    resolution raises it exactly when the available space is non-positive or
    a fixed request does not fit [maxsize]. *)
Definition size_error_as_claimed `{RenderStyle} (ts : Z * Z) (self : Image)
    (width height : dim) (h_allow v_allow : Z) (maxsize : option (Z * Z)) : Prop :=
  raises_class (_valid_size ts self width height h_allow v_allow maxsize)
    CInvalidSizeError
  <-> (fst (available ts h_allow v_allow maxsize) <= 0
       \/ snd (available ts h_allow v_allow maxsize) <= 0
       \/ exists m w h,
            maxsize = Some m
            /\ (is_int width = true \/ is_int height = true)
            /\ fixed_size self width height = Ok (w, h)
            /\ exceeds_maxsize w h (fst m) (snd m) = Ok true).

(** ** Iterators *)

(** The replies that a closed iterator gives. *)
Definition closed_reply (c : call) (r : reply) : Prop :=
  match c with
  | Call_next _ => r = Raised (StopIteration exhausted_or_closed)
  | Call_seek _ pos => r = Raised (Frame_out_of_range pos) \/ r = Raised Iterator_closed
  | Call_close => r = Done
  end.

(** With [r] the repeat count and [N] the frame count of a caching
    iterator: the next [__next__] renders frame [k] in the first loop. *)
Definition ready1 (r : Z) (N : nat) (k : nat) (cache : list slot)
    (it : ImageIterator) : Prop :=
  exists g, _animator it = Some g /\
    ((k = 0%nat /\ cache = replicate N None /\ pc g = GCreated
      /\ _cached it = true /\ _repeat it = r /\ n_frames it = Z.of_nat N)
     \/ ((0 < k)%nat /\ pc g = GFirstLoop /\ g_cached g = true /\ g_repeat g = r
         /\ g_n g = Z.of_nat k - 1 /\ g_cache g = cache)).

(** The next [__next__] visits frame [k] in the second loop. *)
Definition ready2 (r : Z) (N : nat) (k : nat) (cache : list slot)
    (it : ImageIterator) : Prop :=
  (k = 0%nat /\ ready1 r N N cache it)
  \/ ((0 < k)%nat /\ exists g, _animator it = Some g /\ pc g = GSecondLoop
      /\ g_cached g = true /\ g_repeat g = r - 1
      /\ g_n g = Z.of_nat k - 1 /\ g_cache g = cache).

(** What a second visit leaves in the slot (and yields as its frame). *)
Definition revisit (hash : Z * Z -> Z) (w : World) (k : nat) (old : string * Z)
  : result (string * Z) :=
  size <- current_rendered_size w ;;
  if hash size =? snd old then Ok old
  else frame <- render_frame w (Z.of_nat k) ;; Ok (frame, hash size).

(** [cached if isinstance(cached, bool) else image.n_frames <= cached] *)
Definition caching_requested (cached : cached_arg) (n_frames : Z) : bool :=
  match cached with
  | CBool b => b
  | CInt z => n_frames <=? z
  end.

(** A world in which the image has [N] frames (a definite frame count) and
    a size: every frame below [N] renders, frame [N] is past the end. *)
Definition definite_frames (N : nat) (w : World) : bool :=
  forallb (fun k => is_ok (render_frame w (Z.of_nat k))) (seq 0 N)
  && match render_frame w (Z.of_nat N) with
     | Raise EOFError => true
     | _ => false
     end
  && is_ok (current_rendered_size w).

(** The second visit of every frame, as the specification has it: the frame
    of the first visit if the size fingerprint is the same, a new render kept
    in the cache slot otherwise.  [ws1] are the worlds of the first loop's
    calls and [ws2] those of the second loop's. *)
Definition second_visits_as_specified (hash : Z * Z -> Z) (it : ImageIterator)
    (ws1 ws2 : list World) : Prop :=
  forall (k : nat) w1 w2 f1 s1 s2,
    ws1 !! k = Some w1 -> ws2 !! k = Some w2 ->
    render_frame w1 (Z.of_nat k) = Ok f1 ->
    current_rendered_size w1 = Ok s1 -> current_rendered_size w2 = Ok s2 ->
    let replies := snd (advance_all hash (ws1 ++ ws2) it) in
    let cache := cache_of (fst (advance_all hash (ws1 ++ ws2) it)) in
    replies !! k = Some (Frame f1)
    /\ (hash s2 = hash s1 ->
        replies !! (length ws1 + k)%nat = Some (Frame f1)
        /\ cache !! k = Some (Some (f1, hash s1)))
    /\ (hash s2 <> hash s1 ->
        exists f2, render_frame w2 (Z.of_nat k) = Ok f2
                   /\ replies !! (length ws1 + k)%nat = Some (Frame f2)
                   /\ cache !! k = Some (Some (f2, hash s2))).

(** A two-frame animation whose renders carry a tag. *)
Definition two_frames (tag : string) (size : Z * Z) : World :=
  {| render_frame n :=
       if n =? 0 then Ok (String.append tag "0")
       else if n =? 1 then Ok (String.append tag "1")
       else Raise EOFError;
     current_rendered_size := Ok size |}.

(** A fingerprint for small sizes. *)
Definition small_hash (size : Z * Z) : Z := fst size * 65536 + snd size.

(** An iterator over two frames, for two loops. *)
Definition two_loops (cached : cached_arg) : result ImageIterator :=
  ImageIterator_init true 2 0 (Some 0%nat) 2 (Ok tt) cached (Ok 0%nat).

Definition uncached_iterator : ImageIterator :=
  {| _repeat := 2; _cached := false; _loop_no := None;
     _animator := Some (_animate 0); _img := None; n_frames := 2;
     _seek_position := 0; _source := Some 0%nat; pil_closed := [] |}.

Definition cached_iterator : ImageIterator :=
  {| _repeat := 2; _cached := true; _loop_no := None;
     _animator := Some (_animate 0); _img := None; n_frames := 2;
     _seek_position := 0; _source := Some 0%nat; pil_closed := [] |}.

(** ** Drawing *)

(** What precedes a frame that is not the first. *)
Definition overwrite (lines : Z) (frame : string) : list write :=
  [CarriageReturn; CursorUp (lines - 1); Text frame].

(** A three-frame animation of size (1, 1). *)
Definition three_frames : World :=
  {| render_frame n :=
       if n =? 0 then Ok "0" else if n =? 1 then Ok "1"
       else if n =? 2 then Ok "2" else Raise EOFError;
     current_rendered_size := Ok (1, 1) |}.

Definition drawable_1x1 : Drawable :=
  {| image := {| _original_size := (1, 1); _size := Fixed (1, 1);
                 _fit_to_width := false; _h_allow := 0; _v_allow := 2;
                 _scale := (float_1_0, float_1_0) |};
     _is_animated := true; image_n_frames := 3;
     image_seek_position := 0; image_source := Some 0%nat |}.

Definition no_formatting : formatting :=
  {| fmt_h_align := None; fmt_width := None;
     fmt_v_align := None; fmt_height := None |}.

Definition uninterrupted (w : World) : frame_env :=
  {| env_world := w; env_interrupt := false |}.

Definition interrupted (w : World) : frame_env :=
  {| env_world := w; env_interrupt := true |}.

(** An interactive terminal on which everything succeeds. *)
Definition tty_env (later : list frame_env) : DrawEnv :=
  {| isatty := true; get_image := Ok 0%nat; checked_style_args := Ok tt;
     still_render := Ok "image"; first_world := three_frames;
     later_frames := later |}.

Definition default_draw_args : draw_args :=
  {| a_h_align := None; a_pad_width := None; a_v_align := None;
     a_pad_height := None; a_alpha := Alpha_threshold _ALPHA_THRESHOLD;
     a_scroll := false; a_animate := true; a_repeat := 2;
     a_cached := CInt 100; a_check_size := true; a_native := false |}.

(** The specification's account of the cursor: it moves up by the rendered
    height less one. *)
Definition moves_up_by_rendered_height `{RenderStyle} (ts : Z * Z)
    (self : Drawable) (ws : list write) : Prop :=
  forall n, In (CursorUp n) ws ->
    exists h, rendered_height ts (image self) = Ok h /\ n = h - 1.

(** What [draw] writes before and after the image on a stream [tty]. *)
Definition hide_writes (tty : bool) : list write :=
  if tty then [HideCursor] else [].

Definition restore_writes (tty : bool) : list write :=
  ColorReset :: (if tty then [ShowCursor] else []) ++ [Newline].

(** ** The draw orchestrator of the specification

    [BaseImage.draw] has no [hide_cursor] and no [echo_input] option and
    never touches the echo of the terminal.  The orchestrator that the
    specification describes, [draw(renderable, ..., hide_cursor=true,
    echo_input=false)], is that of the [Renderable] class, whose code is not
    among the sources: [src/term_image/renderable/__init__.py] only imports
    it, and [tests/renderable/test_renderable.py] tests it. *)

(** What an orchestrated draw does to the terminal: it writes to the output
    stream, or it sets the echo of typed input. *)
Inductive terminal_action :=
  | Output (w : write)
  | Set_echo (on : bool).

Definition apply_action (t : terminal) (a : terminal_action) : terminal :=
  match a with
  | Output w => apply_write t w
  | Set_echo on =>
      {| cursor_visible := cursor_visible t; colors_reset := colors_reset t;
         echo := on |}
  end.

Definition after_actions (t : terminal) (acts : list terminal_action) : terminal :=
  fold_left apply_action acts t.

(** The states of the terminal after each action of a list. *)
Fixpoint states_after (t : terminal) (acts : list terminal_action)
  : list terminal :=
  match acts with
  | [] => []
  | a :: acts => apply_action t a :: states_after (apply_action t a) acts
  end.

(** Modelled from the spec: what [Renderable.draw] does before it renders,
    its code being absent from the sources.  It "suppresses terminal echo
    and hides the cursor only on an interactive output stream"; the tests
    have echo left alone with [echo_input=True] and the cursor with
    [hide_cursor=False]. *)
Definition orchestrator_enters (interactive hide_cursor echo_input : bool)
  : list terminal_action :=
  (if interactive && negb echo_input then [Set_echo false] else [])
  ++ (if interactive && hide_cursor then [Output HideCursor] else []).

(** Modelled from the spec: what [Renderable.draw] does when the rendering
    has ended, its code being absent from the sources: "restoring both on
    every exit path, including interruption", and "must still restore
    terminal state (cursor visible, color reset)".  [initial] is the
    terminal as it was before the call. *)
Definition orchestrator_exits (interactive hide_cursor echo_input : bool)
    (initial : terminal) : list terminal_action :=
  Output ColorReset
  :: (if interactive && hide_cursor then [Output ShowCursor] else [])
  ++ (if interactive && negb echo_input then [Set_echo (echo initial)] else []).

(** Modelled from the spec: a call of [Renderable.draw], its code being
    absent from the sources.  [body] is what the rendering writes (frames
    and cursor moves) and [e] how it ends: on every exit path, whether it
    returns, raises or is interrupted, the terminal is restored. *)
Definition orchestrated_draw (interactive hide_cursor echo_input : bool)
    (initial : terminal) (body : list write) (e : run_end)
  : list terminal_action :=
  orchestrator_enters interactive hide_cursor echo_input
  ++ map Output body
  ++ match e with
     | Ended _ => orchestrator_exits interactive hide_cursor echo_input initial
     | Diverged | StillRunning => []
     end.

(** ** Format specifiers: the mini-language

    A specifier taken apart: the horizontal alignment and padding width, the
    part after a [.] (vertical alignment and padding height), the part after
    a [#] and the style-specific part after a [+]. *)

Inductive alpha_part :=
  | Bare                          (* #        *)
  | Threshold (digits : string)   (* #.ddd    *)
  | Hex (color : string)          (* #RRGGBB  *)
  | Doubled.                      (* ##       *)

Record spec_parts := {
  p_h_align : option ascii;
  p_width : option string;
  p_vertical : option (option ascii * option string);
  p_alpha : option alpha_part;
  p_style : option string;
}.

Definition opt_char (o : option ascii) : string :=
  match o with Some a => String a "" | None => "" end.

Definition opt_str (o : option string) : string :=
  match o with Some s => s | None => "" end.

Definition render_horizontal (h : option ascii) (w : option string) : string :=
  opt_char h +:+ opt_str w.

Definition render_vertical (v : option (option ascii * option string)) : string :=
  match v with
  | Some (a, h) => "." +:+ opt_char a +:+ opt_str h
  | None => ""
  end.

Definition alpha_inner (a : alpha_part) : option string :=
  match a with
  | Bare => None
  | Threshold d => Some ("." +:+ d)
  | Hex c => Some c
  | Doubled => Some "#"
  end.

Definition render_alpha (a : option alpha_part) : string :=
  match a with
  | Some a => "#" +:+ opt_str (alpha_inner a)
  | None => ""
  end.

Definition render_style (s : option string) : string :=
  match s with
  | Some s => "+" +:+ s
  | None => ""
  end.

(** The specifier that the parts spell. *)
Definition render (p : spec_parts) : string :=
  render_horizontal (p_h_align p) (p_width p)
  +:+ render_vertical (p_vertical p)
  +:+ render_alpha (p_alpha p)
  +:+ render_style (p_style p).

Definition h_aligns : cset := CChars ["<"; "|"; ">"]%char.
Definition v_aligns : cset := CChars ["-"; "^"; "_"]%char.

Definition char_ok (c : cset) (o : option ascii) : bool :=
  match o with Some a => cset_mem a c | None => true end.

(** A part made of at least one character of [c], if present. *)
Definition run_ok (c : cset) (o : option string) : bool :=
  match o with
  | Some s => negb (String.eqb s "") && all_in c s
  | None => true
  end.

Definition vertical_ok (v : option (option ascii * option string)) : bool :=
  match v with
  | Some (a, h) => char_ok v_aligns a && run_ok digit h
  | None => true
  end.

Definition alpha_ok (a : option alpha_part) : bool :=
  match a with
  | Some (Threshold d) => run_ok digit (Some d)
  | Some (Hex c) => (String.length c =? 6)%nat && all_in hexdigit c
  | _ => true
  end.

(** Every part is spelt with the characters the mini-language allows. *)
Definition well_formed (p : spec_parts) : bool :=
  char_ok h_aligns (p_h_align p) && run_ok digit (p_width p)
  && vertical_ok (p_vertical p) && alpha_ok (p_alpha p)
  && run_ok CDot (p_style p).


(** What [_NO_VERTICAL_SPEC] matches: a [.] with neither alignment nor
    height after it, followed by nothing, a bare [#], a threshold or a hex
    colour (not by a doubled [#], and not by a style-specific part). *)
Definition no_vertical (p : spec_parts) : bool :=
  match p_vertical p, p_alpha p, p_style p with
  | Some (None, None), Some Doubled, _ => false
  | Some (None, None), _, None => true
  | _, _, _ => false
  end.

(** The transparency setting that the part after [#] stands for. *)
Definition alpha_of_part (a : option alpha_part) : alpha_value :=
  match a with
  | None => Alpha_threshold _ALPHA_THRESHOLD
  | Some Bare => Alpha_None
  | Some (Threshold d) =>
      Alpha_threshold (SFdiv prec emax (Z2SF (decimal_value d))
                         (Z2SF (10 ^ Z.of_nat (String.length d))))
  | Some (Hex c) => Alpha_bg ("#" +:+ c)
  | Some Doubled => Alpha_bg "#"
  end.

Definition formatting_of (p : spec_parts) : formatting :=
  {| fmt_h_align := (fun a => String a "") <$> p_h_align p;
     fmt_width := decimal_value <$> p_width p;
     fmt_v_align := match p_vertical p with
                    | Some (Some a, _) => Some (String a "")
                    | _ => None
                    end;
     fmt_height := match p_vertical p with
                   | Some (_, Some h) => Some (decimal_value h)
                   | _ => None
                   end |}.

(** The error for a padding that is given and not positive. *)
Definition padding_error (mk : Z -> exn) (o : option Z) : option exn :=
  match o with
  | Some z => if z <=? 0 then Some (mk z) else None
  | None => None
  end.

(** The digits of a padding that [int] refuses. *)
Definition too_many_digits (o : option string) : option exn :=
  match o with
  | Some s =>
      if Z.of_nat (String.length s) >? int_max_str_digits
      then Some (Int_too_many_digits (String.length s))
      else None
  | None => None
  end.

Definition p_height (p : spec_parts) : option string :=
  match p_vertical p with
  | Some (_, h) => h
  | None => None
  end.

(** What [_check_format_spec] makes of a well-formed specifier: one that
    [_NO_VERTICAL_SPEC] matches is invalid as a whole, a padding of more digits than [int] converts
    is refused by [int], a padding that is not positive is reported by its
    value, a style-specific part by itself (this class has none), and
    everything else is accepted. *)
Definition outcome_of (p : spec_parts)
  : result (formatting * alpha_value * style_args) :=
  if no_vertical p then Raise (Invalid_format_specifier (render p))
  else
    match too_many_digits (p_width p) with
    | Some e => Raise e
    | None =>
    match too_many_digits (p_height p) with
    | Some e => Raise e
    | None =>
    let fmt := formatting_of p in
    match padding_error Padding_width_not_positive (fmt_width fmt) with
    | Some e => Raise e
    | None =>
        match padding_error Padding_height_not_positive (fmt_height fmt) with
        | Some e => Raise e
        | None =>
            match p_style p with
            | Some s => Raise (Invalid_style_specifier s None)
            | None => Ok (fmt, alpha_of_part (p_alpha p), [])
            end
        end
    end
    end
    end.

(** The groups that each part of a specifier sets in a match of
    [_FORMAT_SPEC], and the groups of the whole match. *)
Definition caps_horizontal (h : option ascii) (w : option string)
    (caps : captures) : captures :=
  <[1%nat := Some (render_horizontal h w)]>
    (ins 3 w (ins 2 ((fun a => String a "") <$> h) caps)).

Definition caps_vertical (v : option (option ascii * option string))
    (caps : captures) : captures :=
  match v with
  | Some (a, h) =>
      <[4%nat := Some (render_vertical v)]>
        (ins 6 h (ins 5 ((fun a => String a "") <$> a) caps))
  | None => caps
  end.

Definition caps_alpha (a : option alpha_part) (caps : captures) : captures :=
  match a with
  | Some x => <[7%nat := Some (render_alpha a)]> (ins 8 (alpha_inner x) caps)
  | None => caps
  end.

Definition caps_style (s : option string) (caps : captures) : captures :=
  match s with
  | Some x => <[9%nat := Some ("+" +:+ x)]> (<[10%nat := Some x]> caps)
  | None => caps
  end.

Definition captures_of (p : spec_parts) : captures :=
  <[0%nat := Some (render p)]>
    (caps_style (p_style p)
       (caps_alpha (p_alpha p)
          (caps_vertical (p_vertical p)
             (caps_horizontal (p_h_align p) (p_width p)
                (replicate 11 None))))).

(* ===================================================================== *)
(** * Part I, continued. More of [common.py] *)
(* ===================================================================== *)

(** ** Formatting a render: [BaseImage._format_render] *)

(** [s * n] for a [str] and an [int]: empty when [n] is not positive. *)
Fixpoint repeat_string (s : string) (n : nat) : string :=
  match n with
  | O => ""
  | S n' => s +:+ repeat_string s n'
  end.

Definition str_mul (s : string) (n : Z) : string := repeat_string s (Z.to_nat n).

(** [" " * n] *)
Definition spaces (n : Z) : string := str_mul " " n.

Definition newline : ascii := "010"%char.

(** [s.replace("\n", new)] *)
Fixpoint replace_newline (new : string) (s : string) : string :=
  match s with
  | EmptyString => ""
  | String c s' =>
      if Ascii.eqb c newline then new +:+ replace_newline new s'
      else String c (replace_newline new s')
  end.

(** [x or default] for an optional [int]. *)
Definition or_default (x : option Z) (default : Z) : Z :=
  match x with
  | Some z => if z =? 0 then default else z
  | None => default
  end.

(** [align == symbol] for an optional [str]. *)
Definition align_is (align : option string) (symbol : string) : bool :=
  match align with
  | Some a => String.eqb a symbol
  | None => false
  end.

Section FormatRender.
Context {style : RenderStyle}.
Variable get_terminal_size : Z * Z.

(** [BaseImage._format_render] *)
Definition _format_render (self : Image) (render : string) (fmt : formatting)
  : result string :=
  size <- rendered_size get_terminal_size self ;;
  let '(cols, lines) := size in
  let width := or_default (fmt_width fmt) (fst get_terminal_size - _h_allow self) in
  let '(left_, right_, render') :=
    if width >? cols then
      let '(left_, right_) :=
        if align_is (fmt_h_align fmt) "<" then ("", spaces (width - cols))
        else if align_is (fmt_h_align fmt) ">" then (spaces (width - cols), "")
        else
          let left_ := spaces ((width - cols) / 2) in
          (left_, spaces (width - cols - Z.of_nat (String.length left_))) in
      (left_, right_,
       replace_newline (right_ +:+ String newline "" +:+ left_) render)
    else ("", "", render) in
  let height := or_default (fmt_height fmt) (snd get_terminal_size - _v_allow self) in
  let '(top, bottom) :=
    if height >? lines then
      let '(top, bottom) :=
        if align_is (fmt_v_align fmt) "^" then (0, height - lines)
        else if align_is (fmt_v_align fmt) "_" then (height - lines, 0)
        else
          let top := (height - lines) / 2 in
          (top, height - lines - top) in
      (str_mul (spaces width +:+ String newline "") top,
       str_mul (String newline "" +:+ spaces width) bottom)
    else ("", "") in
  Ok (if (width >? cols) || (height >? lines)
      then top +:+ left_ +:+ render' +:+ right_ +:+ bottom
      else render).

End FormatRender.

(** The rows of a text, joined: ["\n".join(rows)]. *)
Fixpoint join_lines (rows : list string) : string :=
  match rows with
  | [] => ""
  | [r] => r
  | r :: rest => r +:+ String newline (join_lines rest)
  end.

(** The rows joined by another separator. *)
Fixpoint join_with (sep : string) (rows : list string) : string :=
  match rows with
  | [] => ""
  | [r] => r
  | r :: rest => r +:+ sep +:+ join_with sep rest
  end.

(** No newline in a row. *)
Fixpoint one_line (r : string) : bool :=
  match r with
  | EmptyString => true
  | String c r' => negb (Ascii.eqb c newline) && one_line r'
  end.

(** The padding that [_format_render] puts around a render of [cols] by
    [lines] for a padding width and height: the columns on the left and on
    the right, the rows above and below. *)
Definition left_padding (h_align : option string) (width cols : Z) : Z :=
  if width >? cols then
    if align_is h_align "<" then 0
    else if align_is h_align ">" then width - cols
    else (width - cols) / 2
  else 0.

Definition right_padding (h_align : option string) (width cols : Z) : Z :=
  Z.max 0 (width - cols) - left_padding h_align width cols.

Definition top_padding (v_align : option string) (height lines : Z) : Z :=
  if height >? lines then
    if align_is v_align "^" then 0
    else if align_is v_align "_" then height - lines
    else (height - lines) / 2
  else 0.

Definition bottom_padding (v_align : option string) (height lines : Z) : Z :=
  Z.max 0 (height - lines) - top_padding v_align height lines.

(** ** The scale of an image: [BaseImage.scale], [scale_x], [scale_y] *)

(** What the setters of this part raise. *)
Inductive setter_exn :=
  | Scale_out_of_range (scale : float)
      (* ValueError(f"Scale value out of range (got: {scale})") *)
  | Scale_bad_type
      (* TypeError("'scale' must be a float or a tuple of floats") *)
  | Scale_tuple_bad_type
      (* TypeError(f"'scale' must be a tuple of floats (got: {scale!r})") *)
  | Scale_tuple_bad_value
      (* ValueError(f"'scale' must be a tuple of two floats, 0.0 < x <= 1.0 ...") *)
  | Scale_value_bad_type
      (* TypeError(f"Given value must be a float (got: type ...)") *)
  | Frame_number_out_of_range (pos n_frames : Z).
      (* ValueError(f"Frame number out of range (got: {pos}, n_frames=...)") *)

Definition setter_exn_class (e : setter_exn) : exn_class :=
  match e with
  | Scale_out_of_range _ | Scale_tuple_bad_value
  | Frame_number_out_of_range _ _ => CValueError
  | Scale_bad_type | Scale_tuple_bad_type | Scale_value_bad_type => CTypeError
  end.

(** A value that may be a [float]. *)
Inductive scale_value :=
  | VFloat (f : float)
  | VOther (type_name : string).

(** The argument of the [scale] setter: a [float], a [tuple] or something
    else. *)
Inductive scale_arg :=
  | SValue (f : float)
  | STuple (items : list scale_value)
  | SOther (type_name : string).

(** [0.0 < x <= 1.0] *)
Definition scale_in_range (x : float) : bool :=
  SFltb float_0_0 x && SFleb x float_1_0.

Definition is_VFloat (v : scale_value) : bool :=
  match v with VFloat _ => true | VOther _ => false end.

(** [BaseImage._check_scale], given a [tuple]. *)
Definition _check_scale (items : list scale_value)
  : float * float + setter_exn :=
  if negb (forallb is_VFloat items) then inr Scale_tuple_bad_type
  else
    match items with
    | [VFloat x; VFloat y] =>
        if scale_in_range x && scale_in_range y then inl (x, y)
        else inr Scale_tuple_bad_value
    | _ => inr Scale_tuple_bad_value
    end.

(** [BaseImage._check_scale_2] *)
Definition _check_scale_2 (value : scale_value) : float + setter_exn :=
  match value with
  | VOther _ => inr Scale_value_bad_type
  | VFloat x =>
      if scale_in_range x then inl x else inr (Scale_out_of_range x)
  end.

Definition with_scale (self : Image) (scale : float * float) : Image :=
  {| _original_size := _original_size self; _size := _size self;
     _fit_to_width := _fit_to_width self; _h_allow := _h_allow self;
     _v_allow := _v_allow self; _scale := scale |}.

(** The setter of [BaseImage.scale]: the image after the call and the
    exception raised, if any. *)
Definition set_scale (self : Image) (scale : scale_arg)
  : Image * option setter_exn :=
  match scale with
  | SValue x =>
      if scale_in_range x then (with_scale self (x, x), None)
      else (self, Some (Scale_out_of_range x))
  | STuple items =>
      match _check_scale items with
      | inl s => (with_scale self s, None)
      | inr e => (self, Some e)
      end
  | SOther _ => (self, Some Scale_bad_type)
  end.

(** The setter of [BaseImage.scale_x] *)
Definition set_scale_x (self : Image) (x : scale_value)
  : Image * option setter_exn :=
  match _check_scale_2 x with
  | inl x => (with_scale self (x, snd (_scale self)), None)
  | inr e => (self, Some e)
  end.

(** The setter of [BaseImage.scale_y] *)
Definition set_scale_y (self : Image) (y : scale_value)
  : Image * option setter_exn :=
  match _check_scale_2 y with
  | inl y => (with_scale self (fst (_scale self), y), None)
  | inr e => (self, Some e)
  end.

(** Both members of [_scale] are in range. *)
Definition scale_valid (self : Image) : bool :=
  scale_in_range (fst (_scale self)) && scale_in_range (snd (_scale self)).

(** ** The current frame: [BaseImage.seek], [tell] and [n_frames] *)

(** [BaseImage.n_frames], the frame count of an animated image being known. *)
Definition image_frames (self : Drawable) : Z :=
  if _is_animated self then image_n_frames self else 1.

(** [BaseImage.seek], given an [int]. *)
Definition image_seek (self : Drawable) (pos : Z)
  : Drawable * option setter_exn :=
  if negb ((0 <=? pos) && (pos <? image_frames self))
  then (self, Some (Frame_number_out_of_range pos (image_frames self)))
  else ((if _is_animated self then with_seek_position self pos else self), None).

(** [BaseImage.tell] *)
Definition tell (self : Drawable) : Z :=
  if _is_animated self then image_seek_position self else 0.

(** ** Graphics-based styles: the size of the render in pixels *)

Section MinimalRenderSize.
(** [get_cell_size() or (1, 2)] *)
Variable cell_size : Z * Z.
Variable get_terminal_size : Z * Z.

(** [GraphicsImage._get_render_size] *)
Definition _get_render_size (self : Image) : result (Z * Z) :=
  size <- rendered_size (style := GraphicsImage cell_size) get_terminal_size self ;;
  Ok (fst size * fst cell_size, snd size * snd cell_size).

(** The size chosen before the adjustment: the render size if it has fewer
    pixels than the original, the original size otherwise. *)
Definition smaller_of (render_size original_size : Z * Z) : Z * Z :=
  if fst render_size * snd render_size <? fst original_size * snd original_size
  then render_size else original_size.

(** [GraphicsImage._get_minimal_render_size] *)
Definition _get_minimal_render_size (self : Image) (adjust : bool)
  : result (Z * Z) :=
  render_size <- _get_render_size self ;;
  r_height <- rendered_height (style := GraphicsImage cell_size)
                get_terminal_size self ;;
  let '(width, height) := smaller_of render_size (_original_size self) in
  let height :=
    if adjust then
      let extra := height mod (or_1 r_height) in
      if extra =? 0 then height else height - extra + r_height
    else height in
  Ok (width, height).

End MinimalRenderSize.

(** A 3 by 5 image with the stored size (2, 2) and full scale. *)
Definition image_3x5 : Image :=
  {| _original_size := (3, 5); _size := Fixed (2, 2); _fit_to_width := false;
     _h_allow := 0; _v_allow := 2; _scale := (float_1_0, float_1_0) |}.

(** ** The iterator between calls *)

(** [loop_no] is not yet set, or is the repeat count itself when that is
    negative, or a number from 0 to the repeat count. *)
Definition loop_no_in_range (repeat : Z) (loop_no : option Z) : Prop :=
  match loop_no with
  | None => True
  | Some k => if repeat <? 0 then k = repeat else 0 <= k <= repeat
  end.

(** What holds between two calls of an iterator created with a given repeat
    count over an image of a given frame count, [g] being its generator if
    it has one: a suspended generator has loops left to do, [loop_no] is its
    [repeat], and its cache, if it caches, has one slot per frame. *)
Definition consistent_with (repeat frames : Z) (g : option generator)
    (it : ImageIterator) : Prop :=
  _repeat it = repeat /\ n_frames it = frames /\ repeat <> 0
  /\ loop_no_in_range repeat (_loop_no it)
  /\ match g with
     | None => True
     | Some g =>
         match pc g with
         | GCreated | GFinished => True
         | GFirstLoop =>
             g_repeat g <> 0 /\ _loop_no it = Some (g_repeat g)
             /\ (g_cached g = true -> length (g_cache g) = Z.to_nat frames)
         | GSecondLoop =>
             g_repeat g <> 0 /\ _loop_no it = Some (g_repeat g)
             /\ length (g_cache g) = Z.to_nat frames
         end
     end.

Definition consistent (repeat frames : Z) (it : ImageIterator) : Prop :=
  consistent_with repeat frames (_animator it) it.

(** The generator is suspended at a [yield]: iteration has started and has
    neither ended nor been closed. *)
Definition suspended (it : ImageIterator) : Prop :=
  exists g, _animator it = Some g /\ (pc g = GFirstLoop \/ pc g = GSecondLoop).

(** Iteration has not started: the generator has not run yet. *)
Definition not_started (it : ImageIterator) : Prop :=
  exists g, _animator it = Some g /\ pc g = GCreated.

(** The generator has ended and the iterator was not closed: what an
    exception that is no [Exception] leaves when it escapes [__next__]. *)
Definition generator_finished (it : ImageIterator) : Prop :=
  exists g, _animator it = Some g /\ pc g = GFinished.

(** What one resumption of the generator leaves. *)
Definition resumed (repeat frames : Z) (s : gen_step) : Prop :=
  let '(it', g', out) := s in
  consistent_with repeat frames (Some g') it'
  /\ match out with
     | GYield _ => pc g' = GFirstLoop \/ pc g' = GSecondLoop
     | GReturn =>
         pc g' = GFinished
         /\ _loop_no it' = Some 0 /\ _seek_position it' = 0 /\ 0 < repeat
     | GRaise e => pc g' = GFinished /\ class_of e <> CStopIteration
     | GDiverge => repeat < 0
     end.


(* ===================================================================== *)
(** * Part II. Theorems *)
(* ===================================================================== *)

(** ** Floats that are not negative *)

(** ** Signs of floats *)

Lemma binary_round_aux_sign s m e l :
  match binary_round_aux prec emax s m e l with
  | S754_zero s' | S754_infinity s' | S754_finite s' _ _ => s' = s
  | S754_nan => True
  end.
Proof.
  unfold binary_round_aux.
  destruct (shr_fexp prec emax m e l) as [mrs' e'].
  destruct (shr_fexp prec emax _ e' loc_Exact) as [mrs'' e''].
  destruct (shr_m mrs''); auto.
  destruct (e'' <=? emax - prec); auto.
Qed.

Lemma binary_round_aux_not_negative m e l :
  not_negative (binary_round_aux prec emax false m e l) = true.
Proof.
  pose proof (binary_round_aux_sign false m e l) as H.
  destruct (binary_round_aux prec emax false m e l); simpl; subst; auto.
Qed.

Lemma fmul_not_negative x y :
  not_negative x = true -> not_negative y = true ->
  not_negative (fmul x y) = true.
Proof.
  unfold fmul.
  destruct x as [sx|sx| |sx mx ex], y as [sy|sy| |sy my ey]; simpl; auto;
    intros Hx Hy; try (apply negb_true_iff in Hx); try (apply negb_true_iff in Hy);
    subst; simpl; auto.
  apply binary_round_aux_not_negative.
Qed.

Lemma SFdiv_not_negative x y :
  not_negative x = true -> not_negative y = true -> is_zero y = false ->
  not_negative (SFdiv prec emax x y) = true.
Proof.
  destruct x as [sx|sx| |sx mx ex], y as [sy|sy| |sy my ey]; simpl; auto;
    intros Hx Hy Hz; try discriminate;
    try (apply negb_true_iff in Hx); try (apply negb_true_iff in Hy);
    subst; simpl; auto.
  destruct (SFdiv_core_binary prec emax (Z.pos mx) ex (Z.pos my) ey) as [[mz ez] lz].
  apply binary_round_aux_not_negative.
Qed.

Lemma float_truediv_not_negative x y q :
  float_truediv x y = Ok q ->
  not_negative x = true -> not_negative y = true -> not_negative q = true.
Proof.
  unfold float_truediv. destruct (is_zero y) eqn:Hz; [discriminate|].
  intros [= <-] Hx Hy. now apply SFdiv_not_negative.
Qed.

Lemma float_of_int_not_negative z f :
  float_of_int z = Ok f -> 0 <= z -> not_negative f = true.
Proof.
  unfold float_of_int, binary_normalize.
  destruct z as [|p|p]; [| |lia].
  - simpl. now intros [= <-].
  - unfold binary_round.
    destruct (shl_align p 0 _) as [mz ez].
    pose proof (binary_round_aux_not_negative (Z.pos mz) ez loc_Exact) as H.
    destruct (is_infinity _); [discriminate|]. now intros [= <-].
Qed.

Lemma int_truediv_not_negative a b f :
  int_truediv a b = Ok f -> 0 <= a -> 0 < b -> not_negative f = true.
Proof.
  unfold int_truediv. destruct (b =? 0); [discriminate|].
  destruct (is_infinity _) eqn:Hi; [discriminate|].
  intros [= <-] Ha Hb.
  apply SFdiv_not_negative.
  - destruct a; simpl; auto; lia.
  - destruct b; simpl; auto; lia.
  - destruct b; simpl; auto; lia.
Qed.

Lemma round_half_even_nonneg m e : 0 <= round_half_even m e.
Proof.
  unfold round_half_even.
  destruct (0 <=? e) eqn:He.
  - apply Z.shiftl_nonneg. lia.
  - assert (Hd : 0 < Z.shiftl 1 (- e)).
    { rewrite Z.shiftl_1_l. apply Z.pow_pos_nonneg; lia. }
    assert (Hq : 0 <= Z.pos m / Z.shiftl 1 (- e)) by (apply Z.div_pos; lia).
    destruct (2 * (Z.pos m mod Z.shiftl 1 (- e)) ?= Z.shiftl 1 (- e)); try lia.
    destruct (Z.even _); lia.
Qed.

Lemma round_float_nonneg f z :
  round_float f = Ok z -> not_negative f = true -> 0 <= z.
Proof.
  destruct f as [s|s| |s m e]; simpl; try discriminate.
  - intros [= <-] _. lia.
  - intros [= <-] Hs. apply negb_true_iff in Hs. subst. simpl.
    apply round_half_even_nonneg.
Qed.

Lemma fmin_not_negative x y :
  not_negative x = true -> not_negative y = true -> not_negative (fmin x y) = true.
Proof. unfold fmin. now destruct (float_lt y x). Qed.

Lemma or_1_ge_1 x : 0 <= x -> 1 <= or_1 x.
Proof. unfold or_1. destruct (x =? 0) eqn:E; lia. Qed.

(** ** Automatic sizing, both dimensions, maxsize *)

Section SizeFacts.
Context {style : RenderStyle}.
Variable get_terminal_size : Z * Z.





(** C10: [set_size] with both [width] and [height] given (not [None]),
    whatever they are, raises the [ValueError] of that case and returns the
    image as it was: size, fit-to-width flag and allowances untouched. *)
Theorem set_size_rejects_width_and_height self width height h_allow v_allow maxsize :
  width <> DNone -> height <> DNone ->
  set_size get_terminal_size self width height h_allow v_allow maxsize
  = (self, Raise Both_width_and_height)
  /\ class_of Both_width_and_height = CValueError.
Proof.
  intros Hw Hh. split; [|reflexivity].
  unfold set_size.
  destruct width; try congruence; destruct height; try congruence; reflexivity.
Qed.

Lemma valid_size_ignores_allowances self width height h v h' v' m :
  _valid_size get_terminal_size self width height h v (Some m)
  = _valid_size get_terminal_size self width height h' v' (Some m).
Proof. reflexivity. Qed.

Lemma check_maxsize_given maxsize :
  maxsize <> MNone ->
  (exists m, check_maxsize maxsize = Ok (Some m))
  \/ (exists e, check_maxsize maxsize = Raise e).
Proof.
  intros Hm. unfold check_maxsize.
  destruct maxsize as [|items|]; [congruence| |eauto].
  destruct (negb (forallb is_AInt items)); [eauto|].
  destruct items as [|[c|] [|[l|] [|? ?]]]; eauto.
  destruct (_ && _); eauto.
Qed.

(** C9: when [maxsize] is given, size resolution does not depend on the
    allowances: [_valid_size] gives the same outcome for any two pairs of
    them, and [set_size] with any two pairs of valid (non-negative)
    allowances raises the same exception or stores the same size. *)
Theorem maxsize_makes_allowances_irrelevant self width height h v h' v' maxsize :
  0 <= h -> 0 <= v -> 0 <= h' -> 0 <= v' -> maxsize <> MNone ->
  (forall m, _valid_size get_terminal_size self width height h v (Some m)
             = _valid_size get_terminal_size self width height h' v' (Some m))
  /\ snd (set_size get_terminal_size self width height (AInt h) (AInt v) maxsize)
     = snd (set_size get_terminal_size self width height (AInt h') (AInt v') maxsize)
  /\ _size (fst (set_size get_terminal_size self width height (AInt h) (AInt v) maxsize))
     = _size (fst (set_size get_terminal_size self width height (AInt h') (AInt v') maxsize)).
Proof.
  intros Hh Hv Hh' Hv' Hm.
  split; [reflexivity|].
  unfold set_size.
  destruct (negb (is_None width) && negb (is_None height)); [split; reflexivity|].
  destruct (check_dimension "width" width) as [[]|e]; simpl; [|split; reflexivity].
  destruct (check_dimension "height" height) as [[]|e]; simpl; [|split; reflexivity].
  assert (Hc : forall z, 0 <= z -> Z.ltb z 0 = false) by (intros; lia).
  rewrite !Hc by assumption. simpl.
  destruct (check_maxsize_given maxsize Hm) as [[m ->]|[e ->]]; simpl;
    [|split; reflexivity].
  rewrite (valid_size_ignores_allowances self width height
             h (if Size_in FIT_TO_WIDTH width height then 0 else v)
             h' (if Size_in FIT_TO_WIDTH width height then 0 else v') m).
  destruct (int_pair (_valid_size _ _ _ _ _ _ _)) as [size|e]; simpl;
    split; reflexivity.
Qed.

Lemma bind_raise_inv {A B} (c : result A) (k : A -> result B) e :
  bind c k = Raise e -> c = Raise e \/ exists a, c = Ok a /\ k a = Raise e.
Proof. destruct c; simpl; eauto. intros [= ->]. auto. Qed.

End SizeFacts.

(** ** What size resolution raises *)

(** ** Which exceptions a computation can raise *)

Create HintDb raises.

Lemma only_raises_Ok {A} P (a : A) : only_raises P (Ok a).
Proof. intros e [=]. Qed.

Lemma only_raises_Raise {A} (P : exn -> Prop) e : P e -> only_raises P (@Raise A e).
Proof. intros H e' [= <-]. exact H. Qed.

Lemma only_raises_bind {A B} P (c : result A) (k : A -> result B) :
  only_raises P c -> (forall a, c = Ok a -> only_raises P (k a)) ->
  only_raises P (bind c k).
Proof.
  intros Hc Hk e. destruct c as [a|e']; simpl.
  - now apply Hk.
  - intros [= <-]. now apply Hc.
Qed.

Lemma only_raises_weaken {A} (P Q : exn -> Prop) (r : result A) :
  (forall e, P e -> Q e) -> only_raises P r -> only_raises Q r.
Proof. intros HPQ Hr e He. auto. Qed.

Lemma float_of_int_raises z : only_raises arithmetic_error (float_of_int z).
Proof.
  unfold float_of_int. destruct (is_infinity _).
  - apply only_raises_Raise. red; auto.
  - apply only_raises_Ok.
Qed.

Lemma int_truediv_raises a b : only_raises arithmetic_error (int_truediv a b).
Proof.
  unfold int_truediv. destruct (b =? 0); [apply only_raises_Raise; red; auto|].
  destruct (is_infinity _); [apply only_raises_Raise; red; auto|apply only_raises_Ok].
Qed.

Lemma float_truediv_raises x y : only_raises arithmetic_error (float_truediv x y).
Proof.
  unfold float_truediv. destruct (is_zero y);
    [apply only_raises_Raise; red; auto|apply only_raises_Ok].
Qed.

Lemma round_float_raises f : only_raises arithmetic_error (round_float f).
Proof.
  destruct f; simpl; try apply only_raises_Ok; apply only_raises_Raise; red; auto.
Qed.

Lemma py_round_raises a : only_raises arithmetic_error (py_round a).
Proof. destruct a; simpl; [apply only_raises_Ok|apply round_float_raises]. Qed.

#[local] Hint Resolve only_raises_Ok float_of_int_raises int_truediv_raises
  float_truediv_raises round_float_raises py_round_raises : raises.

Ltac raises :=
  repeat first
    [ apply only_raises_Ok
    | progress eauto with raises
    | apply only_raises_bind; [|intros ? ?]
    | match goal with
      | |- only_raises _ (if ?b then _ else _) => destruct b
      | |- only_raises _ (match ?x with _ => _ end) => destruct x
      | |- only_raises _ (let '(_, _) := ?x in _) => destruct x
      end ].

Lemma int_mul_float_raises z f : only_raises arithmetic_error (int_mul_float z f).
Proof. unfold int_mul_float. raises. Qed.

Lemma float_mul_int_raises f z : only_raises arithmetic_error (float_mul_int f z).
Proof. unfold float_mul_int. raises. Qed.

Lemma num_truediv_raises a y : only_raises arithmetic_error (num_truediv a y).
Proof. unfold num_truediv. destruct a; raises. Qed.

#[local] Hint Resolve int_mul_float_raises float_mul_int_raises num_truediv_raises : raises.

Section SizeErrors.
Context {style : RenderStyle}.
Variable get_terminal_size : Z * Z.

Lemma _width_height_px_w_raises self w :
  only_raises arithmetic_error (_width_height_px_w self w).
Proof. unfold _width_height_px_w. destruct (_original_size self). raises. Qed.

Lemma _width_height_px_h_raises self h :
  only_raises arithmetic_error (_width_height_px_h self h).
Proof. unfold _width_height_px_h. destruct (_original_size self). raises. Qed.

Lemma ori_height_px_raises self : only_raises arithmetic_error (ori_height_px self).
Proof. unfold ori_height_px. raises. Qed.

Hint Resolve _width_height_px_w_raises _width_height_px_h_raises
  ori_height_px_raises : raises.

Lemma original_size_cells_raises self :
  only_raises arithmetic_error (original_size_cells self).
Proof. unfold original_size_cells. raises. Qed.

Lemma fit_to_width_size_raises self max_width :
  only_raises arithmetic_error (fit_to_width_size self max_width).
Proof. unfold fit_to_width_size. raises. Qed.

Lemma fit_size_raises self max_width max_height :
  only_raises arithmetic_error (fit_size self max_width max_height).
Proof. unfold fit_size. destruct (_original_size self). raises. Qed.

Lemma exceeds_available_raises self max_width max_height :
  only_raises arithmetic_error (exceeds_available self max_width max_height).
Proof. unfold exceeds_available. raises. Qed.

Hint Resolve original_size_cells_raises fit_to_width_size_raises
  fit_size_raises exceeds_available_raises : raises.

(** Past the availability check, the dynamic branch raises nothing but
    arithmetic errors. *)
Lemma dynamic_size_raises self width height columns lines max_width max_height :
  only_raises
    (fun e => (exists name, e = Available_too_small name /\ (columns <= 0 \/ lines <= 0))
              \/ (0 < columns /\ 0 < lines /\ arithmetic_error e))
    (dynamic_size self width height columns lines max_width max_height).
Proof.
  unfold dynamic_size, check_available.
  destruct (columns <=? 0) eqn:Hc.
  { apply only_raises_Raise. left. eexists. split; [reflexivity|lia]. }
  destruct (lines <=? 0) eqn:Hl.
  { apply only_raises_Raise. left. eexists. split; [reflexivity|lia]. }
  simpl.
  eapply only_raises_weaken with (P := arithmetic_error).
  { intros e He. right. repeat split; try lia. exact He. }
  raises.
Qed.

Lemma fixed_size_raises self width height :
  only_raises arithmetic_error (fixed_size self width height).
Proof.
  unfold fixed_size.
  destruct width, height; try apply only_raises_Ok; raises.
Qed.

Lemma dim_gt_raises x n :
  only_raises (fun e => e = Unsupported_operands) (dim_gt x n).
Proof.
  unfold dim_gt. destruct x as [|z|s|v]; try (apply only_raises_Raise; reflexivity).
  - apply only_raises_Ok.
  - destruct (gt_int v n); [apply only_raises_Ok|now apply only_raises_Raise].
Qed.

Lemma exceeds_maxsize_raises width height columns lines :
  only_raises (fun e => e = Unsupported_operands)
    (exceeds_maxsize width height columns lines).
Proof.
  unfold exceeds_maxsize. apply only_raises_bind; [apply dim_gt_raises|].
  intros [] _; [apply only_raises_Ok|apply dim_gt_raises].
Qed.

End SizeErrors.

(** ** Sizes are at least 1 *)

(** ** What a computation returns *)

Lemma returns_Ok {A} (P : A -> Prop) a : P a -> returns P (Ok a).
Proof. intros H a' [= <-]. exact H. Qed.

Lemma returns_Raise {A} (P : A -> Prop) e : returns P (Raise e).
Proof. intros a [=]. Qed.

Lemma returns_bind {A B} (Q : A -> Prop) (P : B -> Prop) (c : result A) k :
  returns Q c -> (forall a, Q a -> returns P (k a)) -> returns P (bind c k).
Proof.
  intros Hc Hk b. destruct c as [a|e]; simpl; [|intros [=]].
  apply Hk. now apply Hc.
Qed.

Lemma float_of_int_returns z : 0 <= z -> returns nonneg_float (float_of_int z).
Proof. intros Hz f Hf. eapply float_of_int_not_negative; eauto. Qed.

Lemma int_truediv_returns a b :
  0 <= a -> 0 < b -> returns nonneg_float (int_truediv a b).
Proof. intros Ha Hb f Hf. eapply int_truediv_not_negative; eauto. Qed.

Lemma int_mul_float_returns z f :
  0 <= z -> nonneg_float f -> returns nonneg_float (int_mul_float z f).
Proof.
  intros Hz Hf. cbv beta in *. unfold int_mul_float.
  eapply returns_bind; [now apply float_of_int_returns|].
  intros x Hx. cbv beta in *. apply returns_Ok. now apply fmul_not_negative.
Qed.

Lemma float_mul_int_returns f z :
  0 <= z -> nonneg_float f -> returns nonneg_float (float_mul_int f z).
Proof.
  intros Hz Hf. cbv beta in *. unfold float_mul_int.
  eapply returns_bind; [now apply float_of_int_returns|].
  intros x Hx. cbv beta in *. apply returns_Ok. now apply fmul_not_negative.
Qed.

Lemma float_truediv_returns x y :
  nonneg_float x -> nonneg_float y -> returns nonneg_float (float_truediv x y).
Proof. intros Hx Hy q Hq. eapply float_truediv_not_negative; eauto. Qed.

Lemma round_float_returns f :
  nonneg_float f -> returns (fun z => 0 <= z) (round_float f).
Proof. intros Hf z Hz. eapply round_float_nonneg; eauto. Qed.

Lemma py_min_nonneg a b : nonneg_num a -> nonneg_num b -> nonneg_num (py_min a b).
Proof. unfold py_min. now destruct (num_lt b a). Qed.

Lemma num_truediv_returns a y :
  nonneg_num a -> nonneg_float y -> returns nonneg_float (num_truediv a y).
Proof.
  intros Ha Hy. cbv beta in *. destruct a as [z|x]; simpl in *.
  - eapply returns_bind; [now apply float_of_int_returns|].
    intros x Hx. cbv beta in *. now apply float_truediv_returns.
  - now apply float_truediv_returns.
Qed.

Lemma py_round_returns a : nonneg_num a -> returns (fun z => 0 <= z) (py_round a).
Proof.
  destruct a as [z|f]; simpl; intros Ha.
  - now apply returns_Ok.
  - now apply round_float_returns.
Qed.

(** ** Styles whose unit conversions keep signs *)

Lemma GraphicsImage_sensible cell_size :
  0 < fst cell_size -> 0 < snd cell_size -> sensible (GraphicsImage cell_size).
Proof.
  intros Hw Hh. cbv beta in *. split; simpl.
  - reflexivity.
  - intros [p|c] H; [apply Z.div_pos|]; lia.
  - intros [p|c] H; [apply Z.div_pos|]; lia.
Qed.

Section AtLeastOne.
Context {style : RenderStyle}.
Variable get_terminal_size : Z * Z.
Hypothesis style_ok : sensible style.
Variable self : Image.
Hypothesis ori_width_positive : 0 < fst (_original_size self).
Hypothesis ori_height_positive : 0 < snd (_original_size self).

Let pr_ok := pixel_ratio_not_negative style style_ok.

Lemma cols_pixels p : 0 <= p -> 0 <= _pixels_cols (Pixels p).
Proof. intros. now apply (cols_not_negative style style_ok (Pixels p)). Qed.
Lemma cols_cells c : 0 <= c -> 0 <= _pixels_cols (Cells c).
Proof. intros. now apply (cols_not_negative style style_ok (Cells c)). Qed.
Lemma lines_pixels p : 0 <= p -> 0 <= _pixels_lines (Pixels p).
Proof. intros. now apply (lines_not_negative style style_ok (Pixels p)). Qed.
Lemma lines_cells c : 0 <= c -> 0 <= _pixels_lines (Cells c).
Proof. intros. now apply (lines_not_negative style style_ok (Cells c)). Qed.

Lemma original_size_positive :
  exists ow oh, _original_size self = (ow, oh) /\ 0 < ow /\ 0 < oh.
Proof.
  pose proof ori_width_positive. pose proof ori_height_positive.
  destruct (_original_size self) as [ow oh]. eauto.
Qed.

Lemma _width_height_px_w_returns w :
  0 <= w -> returns nonneg_float (_width_height_px_w self w).
Proof.
  intros Hw. unfold _width_height_px_w.
  destruct original_size_positive as (ow & oh & -> & How & Hoh).
  eapply returns_bind; [apply int_truediv_returns; lia|].
  intros q Hq. cbv beta in *. apply float_mul_int_returns; [lia|assumption].
Qed.

Lemma _width_height_px_h_returns h :
  0 <= h -> returns nonneg_float (_width_height_px_h self h).
Proof.
  intros Hw. unfold _width_height_px_h.
  destruct original_size_positive as (ow & oh & -> & How & Hoh).
  eapply returns_bind; [apply int_truediv_returns; lia|].
  intros q Hq. cbv beta in *. apply float_mul_int_returns; [lia|assumption].
Qed.

Lemma ori_height_px_returns : returns (fun z => 0 <= z) (ori_height_px self).
Proof.
  unfold ori_height_px. pose proof ori_height_positive.
  eapply returns_bind; [apply int_mul_float_returns; [lia|exact pr_ok]|].
  intros x Hx. cbv beta in *. now apply round_float_returns.
Qed.

Lemma original_size_cells_returns : returns at_least_1 (original_size_cells self).
Proof.
  unfold original_size_cells.
  eapply returns_bind; [apply ori_height_px_returns|].
  intros hp Hhp. cbv beta in *. apply returns_Ok. split; simpl.
  - apply or_1_ge_1, cols_pixels. pose proof ori_width_positive. lia.
  - apply or_1_ge_1, lines_pixels. lia.
Qed.

Lemma fit_to_width_size_returns max_width :
  0 <= max_width -> returns at_least_1 (fit_to_width_size self max_width).
Proof.
  intros Hm. unfold fit_to_width_size.
  eapply returns_bind; [now apply _width_height_px_w_returns|].
  intros h Hh. cbv beta in *.
  eapply returns_bind;
    [apply round_float_returns; apply fmul_not_negative; [exact Hh|exact pr_ok]|].
  intros hp Hhp. cbv beta in *. apply returns_Ok. split; simpl.
  - now apply or_1_ge_1, cols_pixels.
  - now apply or_1_ge_1, lines_pixels.
Qed.

Lemma fit_size_returns max_width max_height :
  0 <= max_width -> 0 <= max_height ->
  returns at_least_1 (fit_size self max_width max_height).
Proof.
  intros Hmw Hmh. cbv beta in *. unfold fit_size.
  destruct original_size_positive as (ow & oh & -> & How & Hoh).
  eapply returns_bind; [apply int_truediv_returns; lia|]. intros x Hx.
  eapply returns_bind; [apply int_truediv_returns; lia|]. intros y Hy.
  assert (Hmin : nonneg_float (fmin x y)) by now apply fmin_not_negative.
  eapply returns_bind; [apply int_mul_float_returns; [lia|exact Hmin]|].
  intros wpx Hwpx. cbv beta in *.
  eapply returns_bind; [apply int_mul_float_returns; [lia|exact Hmin]|].
  intros hpx Hhpx. cbv beta in *.
  eapply returns_bind with (Q := fun px => 0 <= fst px /\ 0 <= snd px).
  - destruct (float_lt x y).
    + assert (Hh : nonneg_float (fmul hpx _pixel_ratio))
        by (apply fmul_not_negative; [exact Hhpx|exact pr_ok]).
      assert (Hm : nonneg_num (py_min (Float (fmul hpx _pixel_ratio)) (Int max_height)))
        by now apply py_min_nonneg.
      eapply returns_bind; [now apply num_truediv_returns|]. intros q Hq.
      eapply returns_bind;
        [apply round_float_returns; now apply fmul_not_negative|].
      intros w Hw. cbv beta in *.
      eapply returns_bind; [now apply py_round_returns|]. intros h Hh'.
      now apply returns_Ok.
    + eapply returns_bind; [apply float_truediv_returns; [exact Hwpx|exact pr_ok]|].
      intros wpx' Hwpx'.
      assert (Hm : nonneg_num (py_min (Float wpx') (Int max_width)))
        by now apply py_min_nonneg.
      eapply returns_bind; [now apply num_truediv_returns|]. intros q Hq.
      eapply returns_bind;
        [apply round_float_returns; now apply fmul_not_negative|].
      intros h Hh. cbv beta in *.
      eapply returns_bind; [now apply py_round_returns|]. intros w Hw.
      now apply returns_Ok.
  - intros [w h] [Hw Hh]. apply returns_Ok. split; simpl in *.
    + now apply or_1_ge_1, cols_pixels.
    + now apply or_1_ge_1, lines_pixels.
Qed.

Lemma dynamic_size_returns width height columns lines :
  returns at_least_1
    (dynamic_size self width height columns lines
       (_pixels_cols (Cells columns)) (_pixels_lines (Cells lines))).
Proof.
  unfold dynamic_size, check_available.
  destruct (columns <=? 0) eqn:Hc; [apply returns_Raise|].
  destruct (lines <=? 0) eqn:Hl; [apply returns_Raise|].
  simpl.
  assert (0 <= _pixels_cols (Cells columns)) by (apply cols_cells; lia).
  assert (0 <= _pixels_lines (Cells lines)) by (apply lines_cells; lia).
  destruct (Size_in AUTO width height).
  - destruct (exceeds_available _ _ _) as [[]|e]; simpl.
    + now apply fit_size_returns.
    + apply original_size_cells_returns.
    + apply returns_Raise.
  - destruct (Size_in FIT_TO_WIDTH width height);
      [now apply fit_to_width_size_returns|].
    destruct (Size_in ORIGINAL width height);
      [apply original_size_cells_returns|now apply fit_size_returns].
Qed.

Lemma fixed_size_returns width height :
  positive_if_int width -> positive_if_int height ->
  is_None width || is_None height = true ->
  is_int width || is_int height = true ->
  returns (fun wh => exists w h, wh = (DInt w, DInt h) /\ 0 <= w /\ 0 <= h)
    (fixed_size self width height).
Proof.
  intros Hw Hh Hn Hi. cbv beta in *. unfold fixed_size.
  destruct width as [|w|s|t], height as [|h|s'|t']; simpl in *; try discriminate.
  - eapply returns_bind;
      [apply _width_height_px_h_returns; apply lines_cells; lia|]. intros x Hx.
    eapply returns_bind; [apply float_truediv_returns; [exact Hx|exact pr_ok]|].
    intros q Hq. cbv beta in *.
    eapply returns_bind; [now apply round_float_returns|]. intros wp Hwp.
    apply returns_Ok. eexists _, _. split; [reflexivity|].
    split; [now apply cols_pixels|lia].
  - eapply returns_bind;
      [apply _width_height_px_w_returns; apply cols_cells; lia|]. intros x Hx.
    eapply returns_bind;
      [apply round_float_returns; apply fmul_not_negative; [exact Hx|exact pr_ok]|].
    intros hp Hhp. cbv beta in *.
    apply returns_Ok. eexists _, _. split; [reflexivity|].
    split; [lia|now apply lines_pixels].
Qed.

Lemma valid_size_returns width height h_allow v_allow maxsize :
  positive_if_int width -> positive_if_int height ->
  is_None width || is_None height = true ->
  returns ints_at_least_1
    (_valid_size get_terminal_size self width height h_allow v_allow maxsize).
Proof.
  intros Hw Hh Hn. cbv beta in *. unfold _valid_size.
  destruct (available get_terminal_size h_allow v_allow maxsize) as [columns lines].
  destruct (negb (is_int width) && negb (is_int height)) eqn:Hdyn.
  - eapply returns_bind; [apply dynamic_size_returns|].
    intros [w h] Hwh. apply returns_Ok. now exists w, h.
  - assert (Hi : is_int width || is_int height = true).
    { destruct (is_int width), (is_int height); auto. }
    eapply returns_bind; [now apply fixed_size_returns|].
    intros wh (w & h & -> & Hw' & Hh'). cbv beta in *.
    assert (ints_at_least_1 (dim_or_1 (DInt w), dim_or_1 (DInt h))).
    { exists (or_1 w), (or_1 h). split; [reflexivity|].
      split; now apply or_1_ge_1. }
    destruct maxsize as [m|]; [|now apply returns_Ok].
    unfold exceeds_maxsize. simpl.
    destruct (w >? columns); simpl; [apply returns_Raise|].
    destruct (h >? lines); [apply returns_Raise|now apply returns_Ok].
Qed.

Lemma int_pair_returns (P : Z * Z -> Prop) r :
  returns (fun size => exists w h, size = (DInt w, DInt h) /\ P (w, h)) r ->
  returns P (int_pair r).
Proof.
  intros Hr size. unfold int_pair. destruct r as [s|e]; simpl; [|discriminate].
  destruct (Hr s eq_refl) as (w & h & -> & HP). now intros [= <-].
Qed.

Lemma check_dimension_positive argname x :
  check_dimension argname x = Ok tt -> positive_if_int x.
Proof.
  destruct x as [|z|s|t]; simpl; auto.
  destruct (z <=? 0) eqn:E; [discriminate|]. intros _. lia.
Qed.

Lemma set_size_returns width height h_allow v_allow maxsize self' :
  set_size get_terminal_size self width height h_allow v_allow maxsize
  = (self', Ok tt) ->
  exists size, _size self' = Fixed size /\ at_least_1 size.
Proof.
  unfold set_size.
  destruct (negb (is_None width) && negb (is_None height)) eqn:Hn; [intros [=]|].
  destruct (check_dimension "width" width) as [[]|e] eqn:Hw; simpl; [|intros [=]].
  destruct (check_dimension "height" height) as [[]|e] eqn:Hh; simpl; [|intros [=]].
  destruct (check_allowance "h_allow" h_allow) as [h|e]; simpl; [|intros [=]].
  destruct (check_allowance "v_allow" v_allow) as [v|e]; simpl; [|intros [=]].
  destruct (check_maxsize maxsize) as [m|e]; simpl; [|intros [=]].
  destruct (int_pair (_valid_size _ _ _ _ _ _ _)) as [size|e] eqn:Hs; simpl;
    [|intros [=]].
  intros [= <-]. exists size. split; [reflexivity|].
  eapply (int_pair_returns at_least_1); [|exact Hs].
  apply valid_size_returns; try (eapply check_dimension_positive; eauto).
  destruct (is_None width), (is_None height); auto; discriminate.
Qed.

Lemma scaled_returns x scale :
  0 <= x -> nonneg_float scale -> returns (fun z => 1 <= z) (scaled x scale).
Proof.
  intros Hx Hs. cbv beta in *. unfold scaled.
  eapply returns_bind; [now apply int_mul_float_returns|]. intros p Hp.
  eapply returns_bind; [now apply round_float_returns|]. intros r Hr.
  apply returns_Ok. now apply or_1_ge_1.
Qed.

Lemma rendered_size_returns :
  size_stored_ok self ->
  nonneg_float (fst (_scale self)) -> nonneg_float (snd (_scale self)) ->
  returns at_least_1 (rendered_size get_terminal_size self).
Proof.
  intros Hst Hsx Hsy. unfold rendered_size, size_stored_ok in *.
  eapply returns_bind with (Q := at_least_1).
  - destruct (_size self) as [s|size].
    + apply (int_pair_returns at_least_1). now apply valid_size_returns.
    + now apply returns_Ok.
  - intros [w h] [Hw Hh]; simpl in *.
    eapply returns_bind; [apply scaled_returns; [lia|exact Hsx]|]. intros w' Hw'.
    eapply returns_bind; [apply scaled_returns; [lia|exact Hsy]|]. intros h' Hh'.
    now apply returns_Ok.
Qed.

End AtLeastOne.

(** ** Failures of size resolution; the floor of 1 *)

Lemma arithmetic_error_class e :
  arithmetic_error e -> class_of e <> CInvalidSizeError.
Proof. intros [->|[->| ->]]; discriminate. Qed.

(** C7, as the specification has it, fails on a terminal of 80 columns with
    a horizontal allowance of 100: the available width is negative, yet a
    fixed width of 1 resolves to (1, 1), and [FIT] fails with a [ValueError],
    not with the size error. *)
Lemma size_error_not_as_claimed :
  ~ size_error_as_claimed (H := graphics_1x2) (80, 24) image_2x1
      (DInt 1) DNone 100 2 None
  /\ ~ size_error_as_claimed (H := graphics_1x2) (80, 24) image_2x1
      (DSize FIT) DNone 100 2 None
  /\ _valid_size (style := graphics_1x2) (80, 24) image_2x1
       (DInt 1) DNone 100 2 None = Ok (DInt 1, DInt 1)
  /\ _valid_size (style := graphics_1x2) (80, 24) image_2x1
       (DSize FIT) DNone 100 2 None = Raise (Available_too_small "columns").
Proof.
  assert (H1 : _valid_size (style := graphics_1x2) (80, 24) image_2x1
                 (DInt 1) DNone 100 2 None = Ok (DInt 1, DInt 1)) by reflexivity.
  assert (H2 : _valid_size (style := graphics_1x2) (80, 24) image_2x1
                 (DSize FIT) DNone 100 2 None = Raise (Available_too_small "columns"))
    by reflexivity.
  repeat split; auto.
  - intros [_ Hc]. destruct Hc as (e & He & _).
    + left. simpl. lia.
    + rewrite H1 in He. discriminate.
  - intros [_ Hc]. destruct Hc as (e & He & Hcl).
    + left. simpl. lia.
    + rewrite H2 in He. injection He as <-. discriminate.
Qed.

Section Failures.
Context {style : RenderStyle}.
Variable get_terminal_size : Z * Z.

(** C7 (as the code has it): size resolution raises the available-size
    error, a [ValueError], exactly when no [int] dimension is given and a
    side of the available space is not positive; it raises
    [InvalidSizeError] exactly when [maxsize] is given with an [int]
    dimension and the resulting size exceeds it (the width exceeds its
    columns, or else the height its lines); every other failure is an
    arithmetic error or the [TypeError] of a comparison.  No size is
    returned with either error. *)
Theorem size_resolution_failures self width height h_allow v_allow maxsize :
  let columns := fst (available get_terminal_size h_allow v_allow maxsize) in
  let lines := snd (available get_terminal_size h_allow v_allow maxsize) in
  let r := _valid_size get_terminal_size self width height h_allow v_allow maxsize in
  ((exists name, r = Raise (Available_too_small name))
   <-> (is_int width = false /\ is_int height = false
        /\ (columns <= 0 \/ lines <= 0)))
  /\ (raises_class r CInvalidSizeError
      <-> exists m w h,
            maxsize = Some m
            /\ (is_int width = true \/ is_int height = true)
            /\ fixed_size self width height = Ok (w, h)
            /\ exceeds_maxsize w h (fst m) (snd m) = Ok true
            /\ r = Raise (Will_not_fit_maxsize (w, h) m))
  /\ (forall e, r = Raise e ->
        (exists name, e = Available_too_small name)
        \/ (exists size m, e = Will_not_fit_maxsize size m)
        \/ arithmetic_error e \/ e = Unsupported_operands).
Proof.
  intros columns lines r. subst r columns lines. unfold _valid_size.
  destruct (available get_terminal_size h_allow v_allow maxsize) as [columns lines] eqn:Hav.
  simpl fst; simpl snd.
  destruct (negb (is_int width) && negb (is_int height)) eqn:Hdyn.
  - (* dynamic size *)
    apply andb_true_iff in Hdyn as [Hw Hh].
    apply negb_true_iff in Hw, Hh.
    pose proof (dynamic_size_raises self width height columns lines
                  (_pixels_cols (Cells columns)) (_pixels_lines (Cells lines))) as Hr.
    destruct (dynamic_size self width height columns lines
                (_pixels_cols (Cells columns)) (_pixels_lines (Cells lines)))
      as [size|e0] eqn:Hd; simpl.
    + split; [|split].
      * split; [intros [name [=]]|].
        intros (_ & _ & Hle). revert Hd. unfold dynamic_size, check_available.
        destruct (columns <=? 0) eqn:Hc; [discriminate|].
        destruct (lines <=? 0) eqn:Hl; [discriminate|]. lia.
      * split; [intros (e & [=] & _)|].
        intros (m & w & h & _ & [Hi|Hi] & _); congruence.
      * intros e [=].
    + specialize (Hr e0 eq_refl). split; [|split].
      * split.
        -- intros [name [= ->]].
           destruct Hr as [(n & _ & Hle)|(_ & _ & [He|[He|He]])];
             try discriminate. auto.
        -- intros (_ & _ & Hle). revert Hd. unfold dynamic_size, check_available.
           destruct (columns <=? 0) eqn:Hc; [intros [= <-]; eauto|].
           destruct (lines <=? 0) eqn:Hl; [intros [= <-]; eauto|]. lia.
      * split.
        -- intros (e & [= <-] & Hcl). destruct Hr as [(n & -> & _)|(_ & _ & Ha)].
           ++ discriminate.
           ++ now apply arithmetic_error_class in Ha.
        -- intros (m & w & h & _ & [Hi|Hi] & _); congruence.
      * intros e [= <-]. destruct Hr as [(n & -> & _)|(_ & _ & Ha)]; eauto.
  - (* a given [int] *)
    apply andb_false_iff in Hdyn.
    assert (Hint : is_int width = true \/ is_int height = true).
    { destruct Hdyn as [H|H]; apply negb_false_iff in H; auto. }
    pose proof (fixed_size_raises self width height) as Hr.
    destruct (fixed_size self width height) as [[w h]|e0] eqn:Hf; simpl.
    + destruct maxsize as [m|].
      * simpl in Hav. subst m. simpl fst; simpl snd.
        pose proof (exceeds_maxsize_raises w h columns lines) as Hx.
        destruct (exceeds_maxsize w h columns lines) as [[]|e1] eqn:Hfit; simpl.
        -- split; [|split].
           ++ split; [intros [n [=]]|intros (Hw & Hh & _); destruct Hint; congruence].
           ++ split.
              ** intros _. exists (columns, lines), w, h. simpl. auto.
              ** intros _. eexists. split; reflexivity.
           ++ intros e [= <-]. eauto.
        -- split; [|split].
           ++ split; [intros [n [=]]|intros (Hw & Hh & _); destruct Hint; congruence].
           ++ split; [intros (e & [=] & _)|].
              intros (m & w' & h' & [= <-] & _ & [= <- <-] & Hex & _).
              simpl in Hex. congruence.
           ++ intros e [=].
        -- rewrite (Hx e1 eq_refl). split; [|split].
           ++ split; [intros [n [=]]|intros (Hw & Hh & _); destruct Hint; congruence].
           ++ split; [intros (e & [= <-] & Hcl); discriminate|].
              intros (m & w' & h' & [= <-] & _ & [= <- <-] & Hex & _).
              simpl in Hex. congruence.
           ++ intros e [= <-]. auto.
      * split; [|split].
        -- split; [intros [n [=]]|intros (Hw & Hh & _); destruct Hint; congruence].
        -- split; [intros (e & [=] & _)|intros (m & w' & h' & [=] & _)].
        -- intros e [=].
    + specialize (Hr e0 eq_refl). split; [|split].
      * split.
        -- intros [n [= ->]]. destruct Hr as [H|[H|H]]; discriminate.
        -- intros (Hw & Hh & _); destruct Hint; congruence.
      * split.
        -- intros (e & [= <-] & Hcl). now apply arithmetic_error_class in Hr.
        -- intros (m & w' & h' & _ & _ & [=] & _).
      * intros e [= <-]. auto.
Qed.

End Failures.

(** A width beyond [maxsize] beside a member of [Size], a call that
    [set_size] refuses: the width is compared first, and the size error is
    raised before the member is compared. *)
Lemma width_beyond_maxsize_beside_a_member :
  _valid_size (style := graphics_1x2) (80, 24) image_2x1 (DInt 50) (DSize FIT)
    0 2 (Some (40, 20))
  = Raise (Will_not_fit_maxsize (DInt 50, DSize FIT) (40, 20))
  /\ _valid_size (style := graphics_1x2) (80, 24) image_2x1 (DInt 30) (DSize FIT)
       0 2 (Some (40, 20))
     = Raise Unsupported_operands.
Proof. split; reflexivity. Qed.

Section Floor.
Context {style : RenderStyle}.
Variable get_terminal_size : Z * Z.

(** With at most one of [width] and [height], as [set_size] and the
    [rendered_*] properties call it, [_valid_size] returns two [int]s. *)
Lemma valid_size_one_axis self width height h_allow v_allow maxsize size :
  is_None width || is_None height = true ->
  _valid_size get_terminal_size self width height h_allow v_allow maxsize = Ok size ->
  exists w h, size = (DInt w, DInt h).
Proof.
  intros Hn. unfold _valid_size.
  destruct (available get_terminal_size h_allow v_allow maxsize) as [columns lines].
  destruct (negb (is_int width) && negb (is_int height)) eqn:Hdyn.
  - destruct (dynamic_size _ _ _ _ _ _ _) as [s|e]; simpl; [|discriminate].
    intros [= <-]. eauto.
  - assert (Hf : returns (fun wh => exists w h, wh = (DInt w, DInt h))
                   (fixed_size self width height)).
    { unfold fixed_size.
      destruct width as [|w|s|t], height as [|h|s'|t']; simpl in *;
        try discriminate;
        repeat (eapply returns_bind with (Q := fun _ => True);
                [intros ? _; exact I|intros ? _]);
        apply returns_Ok; eauto. }
    destruct (fixed_size self width height) as [wh|e]; simpl; [|discriminate].
    destruct (Hf wh eq_refl) as (w & h & ->).
    destruct maxsize as [m|]; simpl.
    + unfold exceeds_maxsize. simpl.
      destruct (w >? columns); simpl; [discriminate|].
      destruct (h >? lines); [discriminate|]. intros [= <-]. eauto.
    + intros [= <-]. eauto.
Qed.

Lemma sizes_at_least_1 (self : Image) :
  sensible style ->
  0 < fst (_original_size self) -> 0 < snd (_original_size self) ->
  (forall width height h_allow v_allow maxsize size,
     positive_if_int width -> positive_if_int height ->
     is_None width || is_None height = true ->
     _valid_size get_terminal_size self width height h_allow v_allow maxsize = Ok size ->
     ints_at_least_1 size)
  /\ (forall width height h_allow v_allow maxsize self',
        set_size get_terminal_size self width height h_allow v_allow maxsize
        = (self', Ok tt) ->
        exists size, _size self' = Fixed size /\ at_least_1 size)
  /\ (forall size,
        size_stored_ok self ->
        nonneg_float (fst (_scale self)) -> nonneg_float (snd (_scale self)) ->
        rendered_size get_terminal_size self = Ok size -> at_least_1 size)
  /\ (forall x scale z, 0 <= x -> nonneg_float scale ->
        scaled x scale = Ok z -> 1 <= z).
Proof.
  intros Hs How Hoh. split; [|split; [|split]].
  - intros width height h_allow v_allow maxsize size Hw Hh Hn Hv.
    exact (valid_size_returns get_terminal_size Hs self How Hoh
             width height h_allow v_allow maxsize Hw Hh Hn size Hv).
  - intros width height h_allow v_allow maxsize self' Hset.
    exact (set_size_returns get_terminal_size Hs self How Hoh
             width height h_allow v_allow maxsize self' Hset).
  - intros size Hst Hx Hy Hr.
    exact (rendered_size_returns get_terminal_size Hs self How Hoh Hst Hx Hy size Hr).
  - intros x scale z Hx Hsc Hz. exact (scaled_returns x scale Hx Hsc z Hz).
Qed.

End Floor.

(** C2: every axis of a resolved size is an [int] of at least 1, whatever
    the style (with sensible unit conversions), the terminal and the image
    (with a positive original size): that of [_valid_size] for at most one
    of [width] and [height], a given [int] being positive (which is how
    [set_size] lets it be called); that which [set_size] stores, whatever
    it is given; and that of [rendered_size] for a scale that is not
    negative, each scaled axis being floored at 1.  So a width of 1 for a
    2:1 original, with cells of ratio 0.5, derives the height 0 and yields
    the size (1, 1).  (Given both a width and a height, which [set_size]
    refuses, [_valid_size] returns them as they are.) *)
Theorem resolved_size_axes_at_least_1 :
  (forall (style : RenderStyle) get_terminal_size self,
     sensible style ->
     0 < fst (_original_size self) -> 0 < snd (_original_size self) ->
     (forall width height h_allow v_allow maxsize size,
        positive_if_int width -> positive_if_int height ->
        is_None width || is_None height = true ->
        _valid_size get_terminal_size self width height h_allow v_allow maxsize
        = Ok size ->
        ints_at_least_1 size)
     /\ (forall width height h_allow v_allow maxsize self',
           set_size get_terminal_size self width height h_allow v_allow maxsize
           = (self', Ok tt) ->
           exists size, _size self' = Fixed size /\ at_least_1 size)
     /\ (forall size,
           size_stored_ok self ->
           nonneg_float (fst (_scale self)) -> nonneg_float (snd (_scale self)) ->
           rendered_size get_terminal_size self = Ok size -> at_least_1 size)
     /\ (forall x scale z, 0 <= x -> nonneg_float scale ->
           scaled x scale = Ok z -> 1 <= z))
  /\ fixed_size (style := graphics_1x2) image_2x1 (DInt 1) DNone
     = Ok (DInt 1, DInt 0)
  /\ _valid_size (style := graphics_1x2) (80, 24) image_2x1 (DInt 1) DNone 0 2 None
     = Ok (DInt 1, DInt 1)
  /\ _valid_size (style := graphics_1x2) (80, 24) image_2x1 (DSize FIT) (DInt 5)
       0 2 None
     = Ok (DSize FIT, DInt 5).
Proof.
  split; [|split; [|split]; reflexivity].
  intros style ts self. apply sizes_at_least_1.
Qed.

(** At full scale the size (1, 1) of that example is also the rendered
    size. *)
Lemma resolved_size_axes_at_least_1_witness :
  _valid_size (style := graphics_1x2) (80, 24) image_2x1 (DInt 1) DNone 0 2 None
  = Ok (DInt 1, DInt 1)
  /\ ints_at_least_1 (DInt 1, DInt 1).
Proof.
  split; [reflexivity|].
  destruct (proj1 resolved_size_axes_at_least_1 graphics_1x2 (80, 24) image_2x1)
    as (H & _).
  - apply GraphicsImage_sensible; simpl; lia.
  - simpl; lia.
  - simpl; lia.
  - apply (H (DInt 1) DNone 0 2 None (DInt 1, DInt 1));
      [simpl; lia|exact I|reflexivity|reflexivity].
Defined.

(** ** Instances *)




Lemma set_size_rejects_width_and_height_witness :
  set_size (style := graphics_1x2) (80, 24) image_2x1 (DInt 3) (DInt 4)
    (AInt 0) (AInt 2) MNone
  = (image_2x1, Raise Both_width_and_height)
  /\ class_of Both_width_and_height = CValueError.
Proof.
  apply (set_size_rejects_width_and_height (style := graphics_1x2) (80, 24)
           image_2x1 (DInt 3) (DInt 4) (AInt 0) (AInt 2) MNone);
    discriminate.
Defined.

Lemma maxsize_makes_allowances_irrelevant_witness :
  snd (set_size (style := graphics_1x2) (80, 24) image_2x1 (DSize FIT) DNone
         (AInt 0) (AInt 2) (MTuple [AInt 40; AInt 20]))
  = snd (set_size (style := graphics_1x2) (80, 24) image_2x1 (DSize FIT) DNone
           (AInt 5) (AInt 7) (MTuple [AInt 40; AInt 20]))
  /\ _size (fst (set_size (style := graphics_1x2) (80, 24) image_2x1 (DSize FIT)
                   DNone (AInt 0) (AInt 2) (MTuple [AInt 40; AInt 20])))
     = _size (fst (set_size (style := graphics_1x2) (80, 24) image_2x1 (DSize FIT)
                     DNone (AInt 5) (AInt 7) (MTuple [AInt 40; AInt 20]))).
Proof.
  apply (maxsize_makes_allowances_irrelevant (style := graphics_1x2) (80, 24)
           image_2x1 (DSize FIT) DNone 0 2 5 7 (MTuple [AInt 40; AInt 20]));
    try lia; discriminate.
Defined.

(** ** Closed iterators *)

Section Closed.
Variable hash : Z * Z -> Z.

Lemma close_closes it : closed (close it).
Proof.
  unfold closed, close.
  destruct (_animator it) eqn:Ha; [|exact Ha].
  simpl. destruct (_img it); [|reflexivity].
  destruct (_source it); [|reflexivity].
  destruct (Nat.eqb _ _); reflexivity.
Qed.

Lemma close_when_closed it : closed it -> close it = it.
Proof. unfold closed, close. now intros ->. Qed.

Lemma next_when_closed w it :
  closed it ->
  __next__ hash w it = (it, Raises (StopIteration exhausted_or_closed)).
Proof. unfold closed, __next__. now intros ->. Qed.

Lemma seek_when_closed w pos it :
  closed it ->
  seek hash w pos it = (it, Raises (Frame_out_of_range pos))
  \/ seek hash w pos it = (it, Raises Iterator_closed).
Proof.
  unfold closed, seek. intros ->.
  destruct (negb _); auto.
Qed.

Lemma exhaustion_closes w it it' :
  __next__ hash w it = (it', Raises (StopIteration reached_repeat_count)) ->
  closed it'.
Proof.
  unfold __next__.
  destruct (_animator it) as [g|] eqn:Ha.
  2: { unfold exhausted_or_closed, reached_repeat_count. intros H. inversion H. }
  destruct (gen_send hash w None g it) as [[it1 g1] out].
  destruct out as [frame| |e|]; try (intros [=]; fail).
  - intros [= <-]. apply close_closes.
  - destruct e; simpl;
      try (intros [= <-]; apply close_closes); try (intros [=]; fail).
    unfold exhausted_or_closed, reached_repeat_count.
    destruct (endswith _ _); intros H; inversion H.
Qed.

Lemma perform_when_closed c it :
  closed it -> fst (perform hash c it) = it /\ closed_reply c (snd (perform hash c it)).
Proof.
  intros Hc. destruct c as [w|w pos|]; simpl.
  - rewrite next_when_closed by assumption. now split.
  - destruct (seek_when_closed w pos it Hc) as [-> | ->]; simpl; auto.
  - rewrite close_when_closed by assumption. now split.
Qed.

Lemma perform_all_when_closed cs it :
  closed it ->
  fst (perform_all hash cs it) = it
  /\ Forall2 closed_reply cs (snd (perform_all hash cs it)).
Proof.
  intros Hc. induction cs as [|c cs IH]; simpl.
  - split; [reflexivity|constructor].
  - destruct (perform_when_closed c it Hc) as [Hit Hr].
    destruct (perform hash c it) as [it1 r]; simpl in *. subst it1.
    destruct IH as [IH1 IH2].
    destruct (perform_all hash cs it) as [it2 rs]; simpl in *.
    split; [assumption|]. now constructor.
Qed.

(** C4: [close()] closes an iterator in any state and may be repeated;
    exhaustion closes it; and on a closed iterator every [__next__] raises
    [StopIteration] saying that the iterator is exhausted or closed, every
    sequence of calls leaves it as it is, and [close()] returns normally. *)
Theorem closed_iterator_only_stops it :
  (* close() closes, whatever the state, and may be repeated *)
  closed (close it) /\ close (close it) = close it
  (* exhaustion closes *)
  /\ (forall w it',
        __next__ hash w it = (it', Raises (StopIteration reached_repeat_count)) ->
        closed it')
  (* once closed, every call finds the iterator closed and leaves it so *)
  /\ (closed it ->
      forall cs,
        fst (perform_all hash cs it) = it
        /\ Forall2 closed_reply cs (snd (perform_all hash cs it)))
  /\ (closed it ->
      forall w, __next__ hash w it = (it, Raises (StopIteration exhausted_or_closed))).
Proof.
  split; [apply close_closes|].
  split; [apply close_when_closed, close_closes|].
  split; [intros w it'; apply exhaustion_closes|].
  split.
  - intros Hc cs. now apply perform_all_when_closed.
  - intros Hc w. now apply next_when_closed.
Qed.

End Closed.

(** ** The two loops of a caching iterator *)

Section CachedLoops.
Variable hash : Z * Z -> Z.
Variable r : Z.            (* the repeat count *)
Variable N : nat.          (* the frame count *)
Hypothesis r_ge_2 : 2 <= r.
Hypothesis N_ge_1 : (1 <= N)%nat.

Lemma store_ok w (cache : list slot) (k : nat) frame size :
  current_rendered_size w = Ok size -> (k < length cache)%nat ->
  store hash w cache (Z.of_nat k) frame
  = Ok (<[k := Some (frame, hash size)]> cache).
Proof.
  intros Hs Hk. unfold store. rewrite Hs. simpl.
  replace ((0 <=? Z.of_nat k) && (Z.of_nat k <? Z.of_nat (length cache))) with true
    by (symmetry; apply andb_true_iff; split; lia).
  now rewrite Nat2Z.id.
Qed.

Lemma step1 k cache it w f s :
  ready1 r N k cache it -> (k < N)%nat -> length cache = N ->
  render_frame w (Z.of_nat k) = Ok f -> current_rendered_size w = Ok s ->
  exists it',
    __next__ hash w it = (it', Returns f)
    /\ ready1 r N (S k) (<[k := Some (f, hash s)]> cache) it'.
Proof.
  intros (g & Ha & Hg) Hk Hlen Hf Hs.
  unfold __next__. rewrite Ha.
  destruct Hg as [(-> & -> & Hpc & Hc & Hr & Hn)|(Hk0 & Hpc & Hc & Hr & Hn & Hcache)].
  - (* the generator starts *)
    unfold gen_send. rewrite Hpc. simpl.
    unfold first_loop. simpl. rewrite Hr, Hc, Hn, Nat2Z.id.
    replace (r =? 0) with false by lia.
    change 0 with (Z.of_nat 0) at 1. simpl in Hf. rewrite Hf.
    change 0 with (Z.of_nat 0).
    rewrite (store_ok w _ 0 f s Hs) by (rewrite length_replicate; lia).
    simpl. eexists. split; [reflexivity|].
    eexists. split; [reflexivity|]. right. simpl. repeat split; auto; lia.
  - unfold gen_send. rewrite Hpc. simpl.
    unfold first_loop. simpl. rewrite Hr, Hc, Hn, Hcache.
    replace (r =? 0) with false by lia.
    replace (Z.of_nat k - 1 + 1) with (Z.of_nat k) by lia.
    rewrite Hf.
    rewrite (store_ok w _ k f s Hs) by lia.
    simpl. eexists. split; [reflexivity|].
    eexists. split; [reflexivity|]. right. simpl. repeat split; auto; lia.
Qed.

Lemma second_loop_frame_ok w g it (k : nat) old new :
  g_n g = Z.of_nat k -> g_cache g !! k = Some (Some old) ->
  revisit hash w k old = Ok new ->
  second_loop_frame hash w g it
  = gen_yield GSecondLoop (set_frame (fst new) (<[k := Some new]> (g_cache g)) g)
      (set_seek_position (Z.of_nat k) it).
Proof.
  intros Hn Hc Hr. unfold second_loop_frame, revisit in *.
  rewrite Hn, Nat2Z.id, Hc.
  destruct (current_rendered_size w) as [size|e] eqn:Hs; [|discriminate].
  simpl in Hr. destruct old as [frame size_hash]. simpl in *.
  destruct (hash size =? size_hash).
  - injection Hr as <-. simpl. now rewrite list_insert_id.
  - destruct (render_frame w (Z.of_nat k)) as [f2|e]; [|discriminate].
    simpl in Hr. injection Hr as <-. simpl.
    rewrite (store_ok w _ k f2 size Hs); [reflexivity|].
    now apply lookup_lt_Some in Hc.
Qed.

Lemma step2 k cache it w old new :
  ready2 r N k cache it -> (k < N)%nat -> length cache = N ->
  cache !! k = Some (Some old) ->
  (k = 0%nat -> render_frame w (Z.of_nat N) = Raise EOFError) ->
  revisit hash w k old = Ok new ->
  exists it',
    __next__ hash w it = (it', Returns (fst new))
    /\ ready2 r N (S k) (<[k := Some new]> cache) it'.
Proof.
  intros Hready Hk Hlen Hold Heof Hrev.
  unfold __next__.
  destruct Hready as [(-> & g & Ha & Hg)|(Hk0 & g & Ha & Hpc & Hc & Hr & Hn & Hcache)].
  - (* the first loop reaches the end of the frames *)
    destruct Hg as [(HN & _)|(_ & Hpc & Hc & Hr & Hn & Hcache)]; [lia|].
    rewrite Ha. unfold gen_send. rewrite Hpc. simpl.
    unfold first_loop. simpl. rewrite Hr, Hn.
    replace (r =? 0) with false by lia.
    replace (Z.of_nat N - 1 + 1) with (Z.of_nat N) by lia.
    rewrite (Heof eq_refl).
    unfold wrap_around. simpl. rewrite Hr.
    replace (r >? 0) with true by lia. simpl. rewrite Hc.
    replace (r - 1 =? 0) with false by lia.
    unfold second_loop. simpl. rewrite Hcache, Hlen.
    replace (0 <? Z.of_nat N) with true by lia.
    unfold second_loop_body.
    erewrite (second_loop_frame_ok w _ _ 0 old new); simpl; eauto.
    2: now rewrite Hcache.
    eexists. split; [reflexivity|].
    right. split; [lia|]. eexists. split; [reflexivity|]. simpl.
    rewrite Hcache. repeat split; auto.
  - rewrite Ha. unfold gen_send. rewrite Hpc. simpl.
    unfold second_loop. simpl. rewrite Hn, Hcache, Hlen.
    replace (Z.of_nat k - 1 + 1) with (Z.of_nat k) by lia.
    replace (Z.of_nat k <? Z.of_nat N) with true by lia.
    unfold second_loop_body.
    erewrite (second_loop_frame_ok w _ _ k old new); simpl; eauto.
    2: now rewrite Hcache.
    eexists. split; [reflexivity|].
    right. split; [lia|]. eexists. split; [reflexivity|]. simpl.
    rewrite Hcache. repeat split; auto; lia.
Qed.

End CachedLoops.

(** ** Runs of calls *)

Lemma perform_all_app hash cs1 cs2 it :
  perform_all hash (cs1 ++ cs2) it
  = let '(it1, rs1) := perform_all hash cs1 it in
    let '(it2, rs2) := perform_all hash cs2 it1 in
    (it2, rs1 ++ rs2).
Proof.
  revert it. induction cs1 as [|c cs1 IH]; intros it; simpl.
  - now destruct (perform_all hash cs2 it).
  - destruct (perform hash c it) as [it0 r0]. rewrite IH.
    destruct (perform_all hash cs1 it0) as [it1 rs1].
    now destruct (perform_all hash cs2 it1).
Qed.

Lemma advance_all_app hash ws1 ws2 it :
  advance_all hash (ws1 ++ ws2) it
  = let '(it1, rs1) := advance_all hash ws1 it in
    let '(it2, rs2) := advance_all hash ws2 it1 in
    (it2, rs1 ++ rs2).
Proof. unfold advance_all. rewrite map_app. apply perform_all_app. Qed.

Lemma advance_all_cons hash w ws it :
  advance_all hash (w :: ws) it
  = let '(it1, o) := __next__ hash w it in
    let '(it2, rs) := advance_all hash ws it1 in
    (it2, match o with
          | Returns frame => Frame frame
          | Raises e => Raised e
          | Diverges => NoReturn
          end :: rs).
Proof.
  unfold advance_all. simpl.
  destruct (__next__ hash w it) as [it1 o].
  now destruct (perform_all hash (map Call_next ws) it1).
Qed.

Lemma definite_frames_inv N w :
  definite_frames N w = true ->
  (forall k, (k < N)%nat -> exists f, render_frame w (Z.of_nat k) = Ok f)
  /\ render_frame w (Z.of_nat N) = Raise EOFError
  /\ exists s, current_rendered_size w = Ok s.
Proof.
  unfold definite_frames. intros H.
  apply andb_true_iff in H as [H Hs]. apply andb_true_iff in H as [Hall Heof].
  split; [|split].
  - intros k Hk. rewrite forallb_forall in Hall.
    specialize (Hall k). rewrite in_seq in Hall.
    destruct (render_frame w (Z.of_nat k)); [eauto|].
    discriminate Hall. lia.
  - destruct (render_frame w (Z.of_nat N)) as [|[]]; try discriminate. reflexivity.
  - destruct (current_rendered_size w); [eauto|discriminate].
Qed.

Section Runs.
Variable hash : Z * Z -> Z.
Variable r : Z.
Variable N : nat.
Hypothesis r_ge_2 : 2 <= r.
Hypothesis N_ge_1 : (1 <= N)%nat.

Lemma run1 ws : forall k cache it,
  ready1 r N k cache it -> length cache = N -> (k + length ws <= N)%nat ->
  Forall (fun w => definite_frames N w = true) ws ->
  exists it' cache' replies,
    advance_all hash ws it = (it', replies)
    /\ ready1 r N (k + length ws) cache' it'
    /\ length cache' = N /\ length replies = length ws
    /\ (exists frames, replies = Frame <$> frames)
    /\ (forall i, (i < k \/ k + length ws <= i)%nat -> cache' !! i = cache !! i)
    /\ (forall i w f s, ws !! i = Some w ->
          render_frame w (Z.of_nat (k + i)) = Ok f ->
          current_rendered_size w = Ok s ->
          replies !! i = Some (Frame f)
          /\ cache' !! (k + i)%nat = Some (Some (f, hash s))).
Proof.
  induction ws as [|w ws IH]; intros k cache it Hready Hlen Hk Hdef.
  - exists it, cache, []. simpl. rewrite Nat.add_0_r.
    split_and!; auto; [now exists []|]. intros i w f s Hi. discriminate Hi.
  - apply Forall_cons in Hdef as [Hw Hws]. simpl in Hk.
    destruct (definite_frames_inv N w Hw) as (Hren & _ & s & Hs).
    destruct (Hren k) as [f Hf]; [lia|].
    assert (Hstep : exists it1, __next__ hash w it = (it1, Returns f)
                      /\ ready1 r N (S k) (<[k := Some (f, hash s)]> cache) it1)
      by (eapply step1; eauto; lia).
    destruct Hstep as (it1 & Hnext & Hready1).
    destruct (IH (S k) _ it1 Hready1) as (it' & cache' & rs & Hrun & Hr' & Hlen' & Hlr & [fs Hfs] & Hsame & Hnew);
      [now rewrite length_insert|lia|assumption|].
    exists it', cache', (Frame f :: rs).
    rewrite advance_all_cons, Hnext, Hrun. simpl.
    replace (k + S (length ws))%nat with (S k + length ws)%nat by lia.
    split_and!; auto.
    + exists (f :: fs). now rewrite Hfs.
    + intros i Hi. rewrite Hsame by lia.
      apply list_lookup_insert_ne. lia.
    + intros i w0 f0 s0 Hi Hf0 Hs0. destruct i as [|i]; simpl in *.
      * injection Hi as <-. rewrite Nat.add_0_r in *.
        assert (f0 = f) by congruence. assert (s0 = s) by congruence. subst f0 s0.
        split; [reflexivity|].
        rewrite Hsame by lia.
        now rewrite list_lookup_insert_eq by lia.
      * replace (k + S i)%nat with (S k + i)%nat in * by lia. eapply Hnew; eauto.
Qed.

Lemma run2 ws : forall k cache it,
  ready2 r N k cache it -> length cache = N -> (k + length ws <= N)%nat ->
  (forall i, (i < N)%nat -> exists e, cache !! i = Some (Some e)) ->
  Forall (fun w => definite_frames N w = true) ws ->
  exists it' cache' replies,
    advance_all hash ws it = (it', replies)
    /\ ready2 r N (k + length ws) cache' it'
    /\ length cache' = N /\ length replies = length ws
    /\ (exists frames, replies = Frame <$> frames)
    /\ (forall i, (i < k \/ k + length ws <= i)%nat -> cache' !! i = cache !! i)
    /\ (forall i w old, ws !! i = Some w ->
          cache !! (k + i)%nat = Some (Some old) ->
          exists new, revisit hash w (k + i) old = Ok new
                      /\ replies !! i = Some (Frame (fst new))
                      /\ cache' !! (k + i)%nat = Some (Some new)).
Proof.
  induction ws as [|w ws IH]; intros k cache it Hready Hlen Hk Hfull Hdef.
  - exists it, cache, []. simpl. rewrite Nat.add_0_r.
    split_and!; auto; [now exists []|]. intros i w old Hi. discriminate Hi.
  - apply Forall_cons in Hdef as [Hw Hws]. simpl in Hk.
    destruct (definite_frames_inv N w Hw) as (Hren & Heof & s & Hs).
    destruct (Hfull k) as [old Hold]; [lia|].
    assert (Hrev : exists new, revisit hash w k old = Ok new).
    { unfold revisit. rewrite Hs. simpl. destruct (hash s =? snd old); [eauto|].
      destruct (Hren k) as [f ->]; [lia|]. simpl. eauto. }
    destruct Hrev as [new Hrev].
    assert (Hstep : exists it1, __next__ hash w it = (it1, Returns (fst new))
                      /\ ready2 r N (S k) (<[k := Some new]> cache) it1)
      by (eapply step2; eauto; lia).
    destruct Hstep as (it1 & Hnext & Hready1).
    destruct (IH (S k) _ it1 Hready1) as (it' & cache' & rs & Hrun & Hr' & Hlen' & Hlr & [fs Hfs] & Hsame & Hnew);
      [now rewrite length_insert|lia| |assumption|].
    { intros i Hi. destruct (decide (i = k)) as [->|Hne].
      - rewrite list_lookup_insert_eq by (eapply lookup_lt_Some; eauto). eauto.
      - rewrite list_lookup_insert_ne by lia. auto. }
    exists it', cache', (Frame (fst new) :: rs).
    rewrite advance_all_cons, Hnext, Hrun. simpl.
    replace (k + S (length ws))%nat with (S k + length ws)%nat by lia.
    split_and!; auto.
    + exists (fst new :: fs). now rewrite Hfs.
    + intros i Hi. rewrite Hsame by lia.
      apply list_lookup_insert_ne. lia.
    + intros i w0 old0 Hi Hc. destruct i as [|i]; simpl in *.
      * injection Hi as <-. rewrite Nat.add_0_r in *.
        assert (old0 = old) by congruence. subst old0.
        exists new. split_and!; auto.
        rewrite Hsame by lia. apply list_lookup_insert_eq.
        eapply lookup_lt_Some; eauto.
      * replace (k + S i)%nat with (S k + i)%nat in * by lia.
        eapply Hnew; eauto.
        rewrite list_lookup_insert_ne by lia. exact Hc.
Qed.

End Runs.

(** ** Second visits *)

Lemma init_ready N seek src r cached img it :
  2 <= r -> caching_requested cached (Z.of_nat N) = true ->
  ImageIterator_init true (Z.of_nat N) seek src r (Ok tt) cached (Ok img) = Ok it ->
  ready1 r N 0 (replicate N None) it.
Proof.
  intros Hr Hc. unfold ImageIterator_init. simpl.
  replace (r =? 0) with false by lia.
  destruct cached as [b|z]; simpl in *.
  - subst b. intros [= <-]. eexists. split; [reflexivity|]. left. simpl.
    replace (r =? 1) with false by lia. split_and!; reflexivity.
  - destruct (z <=? 0) eqn:Hz; simpl; [discriminate|].
    intros [= <-]. eexists. split; [reflexivity|]. left. simpl.
    rewrite Hc. replace (r =? 1) with false by lia. split_and!; reflexivity.
Qed.

(** C3 (as the code has it): for a caching iterator ([cached] true, or a
    frame count within the [cached] threshold) with a repeat count of at
    least 2 over an image of [N] frames, the second visit of frame [k] yields
    the frame of the first visit when the fingerprint ([hash]) of the
    rendered size is the same, and otherwise a new render, which with the
    new fingerprint replaces the slot [k] of the cache. *)
Theorem cached_second_visits hash N seek src r cached img it ws1 ws2 :
  2 <= r -> caching_requested cached (Z.of_nat N) = true ->
  ImageIterator_init true (Z.of_nat N) seek src r (Ok tt) cached (Ok img) = Ok it ->
  length ws1 = N -> (length ws2 <= N)%nat ->
  forallb (definite_frames N) (ws1 ++ ws2) = true ->
  second_visits_as_specified hash it ws1 ws2.
Proof.
  intros Hr Hc Hinit Hl1 Hl2 Hdef k w1 w2 f1 s1 s2 Hw1 Hw2 Hf1 Hs1 Hs2 replies cache.
  subst replies cache.
  assert (HN : (1 <= N)%nat).
  { apply lookup_lt_Some in Hw1. lia. }
  rewrite forallb_app in Hdef. apply andb_true_iff in Hdef as [Hd1 Hd2].
  assert (HD1 : Forall (fun w => definite_frames N w = true) ws1).
  { apply Forall_forall. intros w Hw. rewrite forallb_forall in Hd1.
    apply Hd1. now apply list_elem_of_In. }
  assert (HD2 : Forall (fun w => definite_frames N w = true) ws2).
  { apply Forall_forall. intros w Hw. rewrite forallb_forall in Hd2.
    apply Hd2. now apply list_elem_of_In. }
  pose proof (init_ready N seek src r cached img it Hr Hc Hinit) as Hready.
  destruct (run1 hash r N Hr HN ws1 0%nat _ it Hready)
    as (it1 & cache1 & rs1 & Hrun1 & Hr1 & Hlen1 & Hlr1 & _ & _ & Hnew1);
    [apply length_replicate|lia|assumption|].
  simpl in Hr1, Hnew1. rewrite Hl1 in Hr1.
  assert (Hfull : forall i, (i < N)%nat -> exists e, cache1 !! i = Some (Some e)).
  { intros i Hi. destruct (lookup_lt_is_Some_2 ws1 i) as [w Hw]; [lia|].
    assert (Hd : definite_frames N w = true).
    { rewrite Forall_forall in HD1. apply HD1. eapply list_elem_of_lookup_2; eauto. }
    destruct (definite_frames_inv N w Hd) as (Hren & _ & s & Hs).
    destruct (Hren i Hi) as [f Hf].
    destruct (Hnew1 i w f s Hw Hf Hs) as [_ Hc1]. eauto. }
  destruct (run2 hash r N Hr HN ws2 0%nat cache1 it1)
    as (it2 & cache2 & rs2 & Hrun2 & Hr2 & Hlen2 & Hlr2 & _ & _ & Hnew2);
    [left; auto|assumption|lia|assumption|assumption|].
  simpl in Hr2, Hnew2.
  rewrite advance_all_app, Hrun1, Hrun2. simpl.
  destruct (Hnew1 k w1 f1 s1 Hw1 Hf1 Hs1) as [Hrk Hck].
  destruct (Hnew2 k w2 (f1, hash s1) Hw2 Hck) as (new & Hrev & Hr2k & Hc2k).
  assert (Hcache : cache_of it2 = cache2).
  { destruct Hr2 as [(Hz & _)|(_ & g & Ha & _ & _ & _ & _ & Hg)].
    - apply lookup_lt_Some in Hw2. lia.
    - unfold cache_of. now rewrite Ha. }
  rewrite Hcache.
  unfold revisit in Hrev. rewrite Hs2 in Hrev. simpl in Hrev.
  split; [|split].
  - rewrite lookup_app_l by (apply lookup_lt_Some in Hrk; lia). exact Hrk.
  - intros Hh. rewrite Hh, Z.eqb_refl in Hrev. injection Hrev as <-.
    split; [|exact Hc2k].
    rewrite lookup_app_r by lia.
    replace (length ws1 + k - length rs1)%nat with k by lia. exact Hr2k.
  - intros Hh. apply Z.eqb_neq in Hh. rewrite Hh in Hrev.
    destruct (render_frame w2 (Z.of_nat k)) as [f2|e]; [|discriminate].
    simpl in Hrev. injection Hrev as <-. exists f2.
    split; [reflexivity|]. split; [|exact Hc2k].
    rewrite lookup_app_r by lia.
    replace (length ws1 + k - length rs1)%nat with k by lia. exact Hr2k.
Qed.

(** Two frames, two loops, caching on: the second visit of frame 0, at the
    same size, yields the render of the first visit. *)
Lemma cached_second_visits_witness :
  caching_requested (CInt 100) 2 = true
  /\ two_loops (CInt 100) = Ok cached_iterator
  /\ snd (advance_all small_hash
            [two_frames "a" (1, 1); two_frames "a" (1, 1);
             two_frames "b" (1, 1); two_frames "b" (2, 1)] cached_iterator)
     !! 2%nat = Some (Frame "a0")
  /\ cache_of (fst (advance_all small_hash
            [two_frames "a" (1, 1); two_frames "a" (1, 1);
             two_frames "b" (1, 1); two_frames "b" (2, 1)] cached_iterator))
     !! 0%nat = Some (Some ("a0", small_hash (1, 1))).
Proof.
  split; [reflexivity|]. split; [reflexivity|].
  assert (H : second_visits_as_specified small_hash cached_iterator
                [two_frames "a" (1, 1); two_frames "a" (1, 1)]
                [two_frames "b" (1, 1); two_frames "b" (2, 1)]).
  { apply (cached_second_visits small_hash 2 0 (Some 0%nat) 2 (CInt 100) 0%nat);
      [lia|reflexivity|reflexivity|reflexivity|simpl; lia|reflexivity]. }
  destruct (H 0%nat (two_frames "a" (1, 1)) (two_frames "b" (1, 1)) "a0"
              (1, 1) (1, 1) eq_refl eq_refl eq_refl eq_refl eq_refl)
    as (_ & Hsame & _).
  exact (Hsame eq_refl).
Defined.

(** C3, as the specification has it, fails for an iterator that does not
    cache: at the same size the second loop renders anew (the frames tagged
    [b]) and there is no cache slot. *)
Lemma uncached_second_visits_differ :
  two_loops (CBool false) = Ok uncached_iterator
  /\ snd (advance_all small_hash
            [two_frames "a" (1, 1); two_frames "a" (1, 1);
             two_frames "b" (1, 1); two_frames "b" (1, 1)] uncached_iterator)
     = [Frame "a0"; Frame "a1"; Frame "b0"; Frame "b1"]
  /\ cache_of (fst (advance_all small_hash
            [two_frames "a" (1, 1); two_frames "a" (1, 1);
             two_frames "b" (1, 1); two_frames "b" (1, 1)] uncached_iterator))
     = []
  /\ ~ second_visits_as_specified small_hash uncached_iterator
         [two_frames "a" (1, 1); two_frames "a" (1, 1)]
         [two_frames "b" (1, 1); two_frames "b" (1, 1)].
Proof.
  split; [reflexivity|]. split; [reflexivity|]. split; [reflexivity|].
  intros H.
  destruct (H 0%nat (two_frames "a" (1, 1)) (two_frames "b" (1, 1)) "a0" (1, 1) (1, 1)
              eq_refl eq_refl eq_refl eq_refl eq_refl) as (_ & Hsame & _).
  destruct (Hsame eq_refl) as [Hframe _].
  vm_compute in Hframe. discriminate Hframe.
Qed.

(** ** Frames of an animation *)

Section DrawFacts.
Context {style : RenderStyle}.
Variable get_terminal_size : Z * Z.
Variable hash : Z * Z -> Z.

Lemma next_frame_of_next w it it' f :
  __next__ hash w it = (it', Returns f) ->
  next_frame hash w it = (it', GYield f).
Proof.
  unfold __next__, next_frame.
  destruct (_animator it) as [g|]; [|intros [=]].
  destruct (gen_send hash w None g it) as [[it1 g1] out].
  destruct out as [frame| |e|]; try (intros [=]; fail).
  - now intros [= <- <-].
  - destruct e; try (intros [=]; fail);
      try (simpl; intros [=]; fail).
    destruct (endswith _ _); intros [=].
Qed.

Lemma frame_loop_shape lines frames : forall it it' ws e,
  frame_loop hash lines frames it = (it', ws, e) ->
  exists fs, ws = flat_map (overwrite lines) fs.
Proof.
  induction frames as [|f frames IH]; intros it it' ws e; simpl.
  - intros [= _ <- _]. now exists [].
  - destruct (next_frame hash (env_world f) it) as [it1 out].
    destruct out as [frame| |e0|]; try (intros [= _ <- _]; now exists []).
    destruct (env_interrupt f); [intros [= _ <- _]; now exists []|].
    destruct (frame_loop hash lines frames it1) as [[it2 ws2] e2] eqn:Hl.
    intros [= _ <- _].
    destruct (IH _ _ _ _ Hl) as [fs ->]. now exists (frame :: fs).
Qed.

(** Frames that are all yielded without interruption are all written. *)
Lemma frame_loop_advance lines prefix : forall rest it it' fs,
  Forall (fun f => env_interrupt f = false) prefix ->
  advance_all hash (env_world <$> prefix) it = (it', Frame <$> fs) ->
  frame_loop hash lines (prefix ++ rest) it
  = (let '(it2, ws, e) := frame_loop hash lines rest it' in
     (it2, flat_map (overwrite lines) fs ++ ws, e)).
Proof.
  induction prefix as [|f prefix IH]; intros rest it it' fs Hint Hadv.
  - simpl in Hadv. injection Hadv as <- Hfs.
    destruct fs; [|discriminate]. simpl.
    now destruct (frame_loop hash lines rest it) as [[? ?] ?].
  - apply Forall_cons in Hint as [Hf Hint].
    change (env_world <$> f :: prefix) with (env_world f :: (env_world <$> prefix)) in Hadv.
    rewrite advance_all_cons in Hadv.
    destruct (__next__ hash (env_world f) it) as [it1 o] eqn:Hnext.
    destruct (advance_all hash (env_world <$> prefix) it1) as [it2 rs] eqn:Hrest.
    injection Hadv as <- Hrs.
    destruct fs as [|frame fs]; [discriminate|].
    simpl in Hrs. injection Hrs as Ho Hrs.
    destruct o as [fr|e|]; try discriminate. injection Ho as ->.
    simpl. rewrite (next_frame_of_next _ _ _ _ Hnext), Hf.
    subst rs. rewrite (IH rest it1 it2 fs Hint Hrest).
    now destruct (frame_loop hash lines rest it2) as [[? ?] ?].
Qed.

End DrawFacts.

(** ** Two loops write every frame twice *)

Lemma empty_format_ok : (_ <- _check_format_spec "" ;; Ok tt) = Ok tt.
Proof. reflexivity. Qed.

Lemma frame_writes_cons lines f fs :
  frame_writes lines (f :: fs) = Text f :: flat_map (overwrite lines) fs.
Proof. reflexivity. Qed.

Section TwoLoops.
Context {style : RenderStyle}.
Variable get_terminal_size : Z * Z.
Variable hash : Z * Z -> Z.

Lemma display_animated_shape self img fmt repeat cached env d ws e :
  _display_animated get_terminal_size hash self img fmt repeat cached env = (d, ws, e) ->
  ws = []
  \/ exists lines frames,
       animation_lines get_terminal_size self fmt = Ok lines
       /\ (ws = frame_writes lines frames
           \/ ws = frame_writes lines frames ++ [CursorDown lines]).
Proof.
  unfold _display_animated.
  destruct (animation_lines get_terminal_size self fmt) as [lines|e0];
    [|intros [= _ <- _]; now left].
  destruct (ImageIterator_init _ _ _ _ _ _ _ _) as [it|e0];
    [|intros [= _ <- _]; now left].
  unfold first_and_later_frames.
  destruct (next_frame hash (first_world env) _) as [it1 out].
  destruct out as [frame| |e0|].
  - destruct (frame_loop hash lines (later_frames env) it1) as [[it2 ws2] e2] eqn:Hl.
    destruct (frame_loop_shape hash lines _ _ _ _ _ Hl) as [fs ->].
    destruct e2; intros [= _ <- _]; right; exists lines, (frame :: fs);
      (split; [reflexivity|]); rewrite frame_writes_cons; auto.
  - intros [= _ <- _]. right. exists lines, []. auto.
  - intros [= _ <- _]. right. exists lines, []. auto.
  - intros [= _ <- _]. now left.
Qed.

Lemma last_frame_returns (N : nat) cache it w :
  (1 <= N)%nat -> ready2 2 N N cache it -> length cache = N ->
  exists it', next_frame hash w it = (it', GReturn).
Proof.
  intros HN [(Hz & _)|(_ & g & Ha & Hpc & Hc & Hr & Hn & Hcache)] Hlen; [lia|].
  unfold next_frame. rewrite Ha. unfold gen_send. rewrite Hpc. simpl.
  unfold second_loop. simpl. rewrite Hn, Hcache, Hlen.
  replace (Z.of_nat N - 1 + 1 <? Z.of_nat N) with false by lia.
  unfold wrap_around. simpl. rewrite Hr. simpl. eauto.
Qed.

Theorem two_loops_write_every_frame_twice self img fmt cached env lines (N : nat) img' :
  (1 <= N)%nat ->
  animation_lines get_terminal_size self fmt = Ok lines ->
  _is_animated self = true -> image_n_frames self = Z.of_nat N ->
  caching_requested cached (Z.of_nat N) = true ->
  get_image env = Ok img' ->
  definite_frames N (first_world env) = true ->
  (2 * N <= length (later_frames env))%nat ->
  Forall (fun f => definite_frames N (env_world f) = true /\ env_interrupt f = false)
    (take (2 * N - 1) (later_frames env)) ->
  exists frames,
    length frames = (2 * N)%nat
    /\ _display_animated get_terminal_size hash self img fmt 2 cached env
       = (self, frame_writes lines frames ++ [CursorDown lines], Ended (Ok tt)).
Proof.
  intros HN Hlines Hanim Hn Hc Himg Hfirst Hlen Hlater.
  unfold _display_animated. rewrite Hlines, Hanim, Hn, Himg, empty_format_ok.
  destruct (ImageIterator_init true (Z.of_nat N) (image_seek_position self)
              (image_source self) 2 (Ok tt) cached (Ok img')) as [it0|e0] eqn:Hinit.
  2: { unfold ImageIterator_init in Hinit. simpl in Hinit.
       destruct cached as [b|z]; simpl in *; [discriminate|].
       destruct (z <=? 0) eqn:Hz; [lia|discriminate]. }
  (* the iterator's generator is replaced by a new one *)
  assert (Hready0 : ready1 2 N 0 (replicate N None)
                      (set_animator (Some (_animate img)) it0)).
  { destruct (init_ready N _ _ 2 cached img' it0 ltac:(lia) Hc Hinit)
      as (g & Ha & [(_ & _ & _ & Hc0 & Hr0 & Hn0)|(Hk & _)]); [|lia].
    eexists. split; [reflexivity|]. left. split_and!; auto. }
  destruct (definite_frames_inv N _ Hfirst) as (Hren & _ & s & Hs).
  destruct (Hren 0%nat) as [f0 Hf0]; [lia|].
  destruct (step1 hash 2 N ltac:(lia) HN 0%nat _ _ (first_world env) f0 s Hready0)
    as (it1 & Hnext1 & Hready1); [lia|apply length_replicate|exact Hf0|exact Hs|].
  unfold first_and_later_frames.
  rewrite (next_frame_of_next hash _ _ _ _ Hnext1).
  (* the frames after the first: the rest of the first loop, the second loop *)
  set (later := later_frames env) in *.
  assert (Hsplit : later = take (N - 1) later ++ take N (drop (N - 1) later)
                           ++ drop (2 * N - 1) later).
  { rewrite <- (take_drop (N - 1) later) at 1. f_equal.
    rewrite <- (take_drop N (drop (N - 1) later)) at 1. f_equal.
    rewrite drop_drop. f_equal. lia. }
  assert (Htake : take (2 * N - 1) later
                  = take (N - 1) later ++ take N (drop (N - 1) later)).
  { rewrite Hsplit at 1. rewrite app_assoc, take_app_length'; [reflexivity|].
    rewrite length_app, !length_take, length_drop. lia. }
  rewrite Htake in Hlater. apply Forall_app in Hlater as [Hl1 Hl2].
  assert (HD : forall l, Forall (fun f => definite_frames N (env_world f) = true
                                          /\ env_interrupt f = false) l ->
               Forall (fun w => definite_frames N w = true) (env_world <$> l)
               /\ Forall (fun f => env_interrupt f = false) l).
  { intros l Hl. split.
    - apply Forall_fmap. eapply Forall_impl; [exact Hl|]. now intros ? [? ?].
    - eapply Forall_impl; [exact Hl|]. now intros ? [? ?]. }
  destruct (HD _ Hl1) as [Hd1 Hi1]. destruct (HD _ Hl2) as [Hd2 Hi2].
  destruct (run1 hash 2 N ltac:(lia) HN (env_world <$> take (N - 1) later) 1%nat _ it1 Hready1)
    as (it2 & cache2 & rs2 & Hrun2 & Hr2 & Hlen2 & Hlr2 & [fs2 ->] & Hsame2 & Hnew2);
    [rewrite length_insert; apply length_replicate
    |rewrite length_fmap, length_take; lia|exact Hd1|].
  rewrite length_fmap, length_take in Hr2, Hlr2.
  replace (1 + (N - 1) `min` length later)%nat with N in Hr2 by lia.
  assert (Hfull : forall i, (i < N)%nat -> exists e, cache2 !! i = Some (Some e)).
  { intros i Hi. destruct (decide (i = 0%nat)) as [->|Hne].
    - rewrite Hsame2 by lia. rewrite list_lookup_insert_eq; [eauto|].
      rewrite length_replicate. lia.
    - destruct (lookup_lt_is_Some_2 (take (N - 1) later) (i - 1)) as [fe Hfe].
      { rewrite length_take. lia. }
      assert (Hdf : definite_frames N (env_world fe) = true).
      { rewrite Forall_forall in Hl1. apply Hl1.
        eapply list_elem_of_lookup_2; eauto. }
      destruct (definite_frames_inv N _ Hdf) as (Hren' & _ & s' & Hs').
      destruct (Hren' i Hi) as [f' Hf'].
      destruct (Hnew2 (i - 1)%nat (env_world fe) f' s') as [_ Hc2].
      + now rewrite list_lookup_fmap, Hfe.
      + now replace (1 + (i - 1))%nat with i by lia.
      + exact Hs'.
      + replace (1 + (i - 1))%nat with i in Hc2 by lia. eauto. }
  destruct (run2 hash 2 N ltac:(lia) HN (env_world <$> take N (drop (N - 1) later))
              0%nat cache2 it2)
    as (it3 & cache3 & rs3 & Hrun3 & Hr3 & Hlen3 & Hlr3 & [fs3 ->] & _ & _);
    [left; auto|assumption|rewrite length_fmap, length_take, length_drop; lia
    |assumption|exact Hd2|].
  rewrite length_fmap, length_take, length_drop in Hr3, Hlr3.
  replace (0 + N `min` (length later - (N - 1)))%nat with N in Hr3 by lia.
  (* all these frames are written *)
  rewrite Hsplit, app_assoc.
  rewrite (frame_loop_advance hash lines
             (take (N - 1) later ++ take N (drop (N - 1) later))
             (drop (2 * N - 1) later) it1 it3 (fs2 ++ fs3)).
  2: now apply Forall_app.
  2: { rewrite fmap_app, advance_all_app, Hrun2, Hrun3. now rewrite fmap_app. }
  (* the next resumption ends the generator *)
  destruct (drop (2 * N - 1) later) as [|fe rest] eqn:Hdrop.
  { apply (f_equal length) in Hdrop. rewrite length_drop in Hdrop. simpl in Hdrop. lia. }
  destruct (last_frame_returns N cache3 it3 (env_world fe) HN Hr3 Hlen3) as [it4 Hret].
  simpl. rewrite Hret.
  exists (f0 :: fs2 ++ fs3). split.
  - simpl. rewrite length_app.
    rewrite !length_fmap in Hlr2, Hlr3. lia.
  - rewrite frame_writes_cons, app_nil_r.
    destruct self; reflexivity.
Qed.

End TwoLoops.

(** ** Overwriting frames *)

(** C5, as the specification has it, fails for an image of rendered height 1
    on a terminal of 24 lines: the cursor moves up by 21 lines, not by 0. *)
Lemma cursor_moves_up_by_padded_height :
  let run := _display_animated (style := graphics_1x2) (80, 24) small_hash
               drawable_1x1 0%nat no_formatting 2 (CInt 100)
               (tty_env (replicate 6 (uninterrupted three_frames))) in
  rendered_height (style := graphics_1x2) (80, 24) (image drawable_1x1) = Ok 1
  /\ run = (drawable_1x1,
            [Text "0";
             CarriageReturn; CursorUp 21; Text "1";
             CarriageReturn; CursorUp 21; Text "2";
             CarriageReturn; CursorUp 21; Text "0";
             CarriageReturn; CursorUp 21; Text "1";
             CarriageReturn; CursorUp 21; Text "2";
             CursorDown 22],
            Ended (Ok tt))
  /\ ~ moves_up_by_rendered_height (H := graphics_1x2) (80, 24) drawable_1x1
         (snd (fst run)).
Proof.
  split; [reflexivity|]. split; [vm_compute; reflexivity|].
  intros H. destruct (H 21) as (h & Hh & Hn).
  - vm_compute. tauto.
  - vm_compute in Hh. injection Hh as <-. discriminate Hn.
Qed.

Section Overwrite.
Context {style : RenderStyle}.
Variable get_terminal_size : Z * Z.
Variable hash : Z * Z -> Z.

(** C5 (as the code has it): what an animated draw writes is the first
    frame and then, for every later frame, a carriage return, a move up by
    [lines - 1] and the frame, where [lines] is the greater of the padding
    height (by default the terminal's lines less the vertical allowance)
    and the rendered height; and two loops of a caching iterator over [n]
    frames that all render write [2 * n] frames, six for three. *)
Theorem animation_frames_overwrite :
  (* every frame after the first follows a return to the first line *)
  (forall self img fmt repeat cached env d ws e,
     _display_animated get_terminal_size hash self img fmt repeat cached env
     = (d, ws, e) ->
     ws = []
     \/ exists lines frames,
          animation_lines get_terminal_size self fmt = Ok lines
          /\ (ws = frame_writes lines frames
              \/ ws = frame_writes lines frames ++ [CursorDown lines]))
  (* the number of lines is the greater of the padding and rendered heights *)
  /\ (forall self fmt lines,
        animation_lines get_terminal_size self fmt = Ok lines ->
        exists h, rendered_height get_terminal_size (image self) = Ok h
                  /\ lines = Z.max (padding_lines get_terminal_size self fmt) h
                  /\ (padding_lines get_terminal_size self fmt <= h -> lines - 1 = h - 1))
  (* two loops over N frames write 2 N frames *)
  /\ (forall self img fmt cached env lines (N : nat) img',
        (1 <= N)%nat ->
        animation_lines get_terminal_size self fmt = Ok lines ->
        _is_animated self = true -> image_n_frames self = Z.of_nat N ->
        caching_requested cached (Z.of_nat N) = true ->
        get_image env = Ok img' ->
        definite_frames N (first_world env) = true ->
        (2 * N <= length (later_frames env))%nat ->
        Forall (fun f => definite_frames N (env_world f) = true
                         /\ env_interrupt f = false)
          (take (2 * N - 1) (later_frames env)) ->
        exists frames,
          length frames = (2 * N)%nat
          /\ _display_animated get_terminal_size hash self img fmt 2 cached env
             = (self, frame_writes lines frames ++ [CursorDown lines], Ended (Ok tt))).
Proof.
  split; [|split].
  - intros. eapply display_animated_shape; eauto.
  - intros self fmt lines. unfold animation_lines.
    destruct (rendered_height get_terminal_size (image self)) as [h|e]; [|discriminate].
    simpl. intros [= <-]. exists h. split_and!; auto. lia.
  - intros. eapply two_loops_write_every_frame_twice; eauto.
Qed.

End Overwrite.

(** Three frames drawn for two loops are six frame writes. *)
Lemma three_frames_twice_are_six_writes :
  exists frames,
    length frames = 6%nat
    /\ _display_animated (style := graphics_1x2) (80, 24) small_hash
         drawable_1x1 0%nat no_formatting 2 (CInt 100)
         (tty_env (replicate 6 (uninterrupted three_frames)))
       = (drawable_1x1, frame_writes 22 frames ++ [CursorDown 22], Ended (Ok tt)).
Proof.
  apply (proj2 (proj2 (animation_frames_overwrite (style := graphics_1x2)
                         (80, 24) small_hash))
           drawable_1x1 0%nat no_formatting (CInt 100)
           (tty_env (replicate 6 (uninterrupted three_frames))) 22 3%nat 0%nat);
    try reflexivity; try lia; try (vm_compute; lia); repeat constructor.
Defined.

(** ** Restoring the terminal *)

Lemma after_writes_app t ws1 ws2 :
  after_writes t (ws1 ++ ws2) = after_writes (after_writes t ws1) ws2.
Proof. apply fold_left_app. Qed.

Lemma apply_write_echo t w : echo (apply_write t w) = echo t.
Proof. now destruct w. Qed.

Lemma states_during_echo ws : forall t,
  Forall (fun t' => echo t' = echo t) (states_during t ws).
Proof.
  induction ws as [|w ws IH]; intros t; simpl; constructor.
  - apply apply_write_echo.
  - eapply Forall_impl; [apply IH|]. intros t' ->. apply apply_write_echo.
Qed.

Lemma after_writes_echo ws : forall t, echo (after_writes t ws) = echo t.
Proof.
  induction ws as [|w ws IH]; intros t; simpl; [reflexivity|].
  unfold after_writes in *. simpl. rewrite IH. apply apply_write_echo.
Qed.

Lemma after_frame_writes ws : forall t,
  forallb is_frame_write ws = true ->
  cursor_visible (after_writes t ws) = cursor_visible t.
Proof.
  induction ws as [|w ws IH]; intros t; simpl; [reflexivity|].
  intros H. apply andb_true_iff in H as [Hw Hws].
  unfold after_writes in *. simpl. rewrite IH by assumption.
  now destruct w.
Qed.

Lemma after_restore_writes tty t :
  colors_reset (after_writes t (restore_writes tty)) = true
  /\ cursor_visible (after_writes t (restore_writes tty))
     = (tty || cursor_visible t).
Proof. now destruct tty. Qed.

Lemma after_hide_writes tty t :
  cursor_visible (after_writes t (hide_writes tty)) = (negb tty && cursor_visible t).
Proof. now destruct tty. Qed.

Lemma frame_writes_only lines frames :
  forallb is_frame_write (frame_writes lines frames) = true.
Proof.
  destruct frames as [|f fs]; [reflexivity|]. simpl.
  induction fs as [|f' fs IH]; [reflexivity|]. exact IH.
Qed.

Lemma In_frame_write w body :
  forallb is_frame_write body = true -> In w body -> is_frame_write w = true.
Proof. intros H Hin. rewrite forallb_forall in H. now apply H. Qed.

(** *** The orchestrator of the specification *)

Lemma after_actions_app t a b :
  after_actions t (a ++ b) = after_actions (after_actions t a) b.
Proof. apply fold_left_app. Qed.

Lemma states_after_app a : forall t b,
  states_after t (a ++ b) = states_after t a ++ states_after (after_actions t a) b.
Proof.
  induction a as [|x a IH]; intros t b; simpl; [reflexivity|].
  now rewrite IH.
Qed.

Lemma after_outputs ws : forall t,
  after_actions t (map Output ws) = after_writes t ws.
Proof.
  induction ws as [|w ws IH]; intros t; simpl; [reflexivity|].
  unfold after_actions, after_writes in *. simpl. apply IH.
Qed.

Lemma states_after_outputs ws : forall t,
  states_after t (map Output ws) = states_during t ws.
Proof.
  induction ws as [|w ws IH]; intros t; simpl; [reflexivity|]. now rewrite IH.
Qed.

Lemma states_during_frame_writes ws : forall t,
  forallb is_frame_write ws = true ->
  Forall (fun t' => cursor_visible t' = cursor_visible t) (states_during t ws).
Proof.
  induction ws as [|w ws IH]; intros t H; simpl; constructor;
    apply andb_true_iff in H as [Hw Hws].
  - now destruct w.
  - eapply Forall_impl; [apply IH, Hws|]. intros t' ->. now destruct w.
Qed.

(** What the orchestrator of the specification does to the terminal: it
    touches the echo and the cursor on an interactive stream only; while
    the image is drawn the echo is suppressed (unless [echo_input]) and the
    cursor hidden (unless not [hide_cursor]); and when the drawing has
    ended, however it ended, the echo is as it was before, the colours are
    reset and the cursor is visible if it was. *)
Lemma orchestrated_draw_controls_the_terminal
    interactive hide_cursor echo_input t body e :
  forallb is_frame_write body = true ->
  let acts := orchestrated_draw interactive hide_cursor echo_input t body e in
  let enters := orchestrator_enters interactive hide_cursor echo_input in
  (interactive = false ->
   forall a, In a acts ->
     exists w, a = Output w /\ w <> HideCursor /\ w <> ShowCursor)
  /\ (interactive = true -> echo_input = false ->
      Forall (fun t' => echo t' = false)
        (states_after t (enters ++ map Output body)))
  /\ (interactive = true -> hide_cursor = true ->
      Forall (fun t' => cursor_visible t' = false)
        (states_after (after_actions t enters) (map Output body)))
  /\ (forall r, e = Ended r ->
      echo (after_actions t acts) = echo t
      /\ colors_reset (after_actions t acts) = true
      /\ (cursor_visible t = true -> cursor_visible (after_actions t acts) = true)).
Proof.
  intros Hb acts enters. subst acts enters.
  split; [|split; [|split]].
  - intros -> a Hin. unfold orchestrated_draw, orchestrator_enters in Hin.
    simpl in Hin. apply in_app_or in Hin as [Hin|Hin].
    + apply in_map_iff in Hin as (w & <- & Hw). exists w. split; [reflexivity|].
      pose proof (In_frame_write w body Hb Hw) as Hf.
      split; intros ->; discriminate.
    + destruct e as [r| |]; [|destruct Hin..].
      unfold orchestrator_exits in Hin. simpl in Hin.
      destruct Hin as [<-|[]]. exists ColorReset. repeat split; discriminate.
  - intros -> ->. unfold orchestrator_enters.
    destruct hide_cursor; simpl; repeat (constructor; [reflexivity|]);
      rewrite states_after_outputs;
      (eapply Forall_impl; [apply states_during_echo|]); now intros t' ->.
  - intros -> ->. unfold orchestrator_enters. simpl.
    rewrite states_after_outputs.
    eapply Forall_impl; [apply states_during_frame_writes, Hb|].
    intros t' ->. now destruct echo_input.
  - intros r ->. unfold orchestrated_draw.
    rewrite !after_actions_app, after_outputs.
    set (t1 := after_actions t (orchestrator_enters interactive hide_cursor echo_input)).
    assert (H1 : cursor_visible t1
                 = negb (interactive && hide_cursor) && cursor_visible t).
    { subst t1. unfold orchestrator_enters.
      now destruct interactive, hide_cursor, echo_input. }
    assert (H1e : interactive && negb echo_input = false -> echo t1 = echo t).
    { subst t1. unfold orchestrator_enters.
      now destruct interactive, hide_cursor, echo_input. }
    pose proof (after_frame_writes body t1 Hb) as H2.
    pose proof (after_writes_echo body t1) as H3.
    destruct (after_writes t1 body) as [v2 c2 e2]. simpl in H2, H3.
    clearbody t1. unfold orchestrator_exits.
    destruct interactive, hide_cursor, echo_input; simpl in *;
      repeat split; try reflexivity;
      try (intros Hv; rewrite H2, H1; exact Hv);
      rewrite H3; apply H1e; reflexivity.
Qed.

Section Restore.
Context {style : RenderStyle}.
Variable get_terminal_size : Z * Z.
Variable hash : Z * Z -> Z.

Lemma display_animated_frame_writes self img fmt repeat cached env d ws e :
  _display_animated get_terminal_size hash self img fmt repeat cached env = (d, ws, e) ->
  forallb is_frame_write ws = true.
Proof.
  intros H. apply display_animated_shape in H as [->|(lines & fs & _ & [->| ->])].
  - reflexivity.
  - apply frame_writes_only.
  - rewrite forallb_app, frame_writes_only. reflexivity.
Qed.

(** What the nested [render] writes: the image between the two sequences
    when the call ends, with nothing after the image otherwise. *)
Lemma draw_render_writes self args fmt env img d ws e :
  draw_render get_terminal_size hash self args fmt env img = (d, ws, e) ->
  exists body,
    forallb is_frame_write body = true
    /\ ws = hide_writes (isatty env) ++ body
            ++ match e with
               | Ended _ => restore_writes (isatty env)
               | _ => []
               end.
Proof.
  unfold draw_render.
  destruct (checked_style_args env) as [[]|e0].
  - destruct (_is_animated self && a_animate args).
    + destruct (_display_animated _ _ _ _ _ _ _ _) as [[d0 ws0] e0] eqn:Hb.
      pose proof (display_animated_frame_writes _ _ _ _ _ _ _ _ _ Hb) as Hws0.
      destruct e0; intros [= _ <- <-]; exists ws0; (split; [assumption|]);
        try reflexivity; now rewrite app_nil_r.
    + destruct (still_render env) as [text|e0]; intros [= _ <- <-].
      * exists [Text text]. split; reflexivity.
      * exists []. split; reflexivity.
  - intros [= _ <- <-]. exists []. split; reflexivity.
Qed.

Lemma renderer_writes self args fmt env d ws e :
  _renderer get_terminal_size hash self args fmt env = (d, ws, e) ->
  ws = []
  \/ exists body,
       forallb is_frame_write body = true
       /\ ws = hide_writes (isatty env) ++ body
               ++ match e with
                  | Ended _ => restore_writes (isatty env)
                  | _ => []
                  end.
Proof.
  unfold _renderer.
  destruct (match _size (image self) with Dynamic _ => _ | Fixed _ => _ end)
    as [self' [[]|e0]]; [|intros [= _ <- _]; now left].
  destruct (get_image env) as [img|e0]; [|intros [= _ <- _]; now left].
  destruct (draw_render _ _ _ _ _ _ _) as [[d1 ws1] e1] eqn:Hr.
  intros [= _ <- <-]. right. eapply draw_render_writes; eauto.
Qed.

Lemma draw_writes self args env d ws e :
  draw get_terminal_size hash self args env = (d, ws, e) ->
  ws = []
  \/ exists body,
       forallb is_frame_write body = true
       /\ ws = hide_writes (isatty env) ++ body
               ++ match e with
                  | Ended _ => restore_writes (isatty env)
                  | _ => []
                  end.
Proof.
  unfold draw.
  destruct (check_draw_args _ _ _) as [fmt|e0]; [|intros [= _ <- _]; now left].
  apply renderer_writes.
Qed.

(** C6: [BaseImage.draw] hides the cursor only when the output stream is
    interactive; whenever it ends, normally or with an exception or an
    interrupt, whatever it wrote ends with the colour reset, the cursor
    shown again (if it was hidden) and a newline, so that the cursor is
    visible and the colours reset.  The echo of the terminal is handled by
    the orchestrator of the specification alone, which [BaseImage.draw] is
    not: on an interactive stream only, it suppresses the echo and hides
    the cursor while the image is drawn, and on every exit path it leaves
    the echo as it was, the colours reset and the cursor visible. *)
Theorem draw_restores_the_terminal self args env :
  let ws := snd (fst (draw get_terminal_size hash self args env)) in
  let e := snd (draw get_terminal_size hash self args env) in
  (* the cursor is hidden on an interactive stream only *)
  (In HideCursor ws -> isatty env = true)
  (* whenever the call ends, what it wrote ends with the restoring writes *)
  /\ (forall r, e = Ended r ->
      ws = []
      \/ exists body,
           forallb is_frame_write body = true
           /\ ws = hide_writes (isatty env) ++ body ++ restore_writes (isatty env))
  (* so the cursor is visible again, and the colours are reset *)
  /\ (forall r t, e = Ended r -> cursor_visible t = true ->
      cursor_visible (after_writes t ws) = true
      /\ (ws <> [] -> colors_reset (after_writes t ws) = true))
  (* the orchestrator of the specification, echo included *)
  /\ (forall interactive hide_cursor echo_input t body e',
      forallb is_frame_write body = true ->
      let acts := orchestrated_draw interactive hide_cursor echo_input t body e' in
      let enters := orchestrator_enters interactive hide_cursor echo_input in
      (interactive = false ->
       forall a, In a acts ->
         exists w, a = Output w /\ w <> HideCursor /\ w <> ShowCursor)
      /\ (interactive = true -> echo_input = false ->
          Forall (fun t' => echo t' = false)
            (states_after t (enters ++ map Output body)))
      /\ (interactive = true -> hide_cursor = true ->
          Forall (fun t' => cursor_visible t' = false)
            (states_after (after_actions t enters) (map Output body)))
      /\ (forall r, e' = Ended r ->
          echo (after_actions t acts) = echo t
          /\ colors_reset (after_actions t acts) = true
          /\ (cursor_visible t = true ->
              cursor_visible (after_actions t acts) = true))).
Proof.
  intros ws e. subst ws e.
  destruct (draw get_terminal_size hash self args env) as [[d ws] e] eqn:Hd.
  simpl. pose proof (draw_writes _ _ _ _ _ _ Hd) as Hws.
  split; [|split; [|split]].
  - destruct Hws as [->|(body & Hb & ->)]; [intros []|].
    intros Hin. apply in_app_or in Hin as [Hin|Hin].
    + destruct (isatty env); [reflexivity|destruct Hin].
    + apply in_app_or in Hin as [Hin|Hin].
      * apply (In_frame_write _ _ Hb) in Hin. discriminate.
      * destruct e as [r| |]; [|destruct Hin..].
        unfold restore_writes in Hin.
        destruct (isatty env); [reflexivity|].
        simpl in Hin. destruct Hin as [H|[H|[]]]; discriminate.
  - intros r ->. destruct Hws as [->|(body & Hb & ->)]; eauto.
  - intros r t -> Ht. destruct Hws as [->|(body & Hb & ->)].
    + split; [exact Ht|]. congruence.
    + rewrite !after_writes_app.
      destruct (after_restore_writes (isatty env)
                  (after_writes (after_writes t (hide_writes (isatty env))) body))
        as [Hc Hv].
      split; [|intros _; exact Hc].
      rewrite Hv, after_frame_writes, after_hide_writes by assumption.
      rewrite Ht. now destruct (isatty env).
  - intros interactive hide_cursor echo_input t body e' Hb.
    exact (orchestrated_draw_controls_the_terminal
             interactive hide_cursor echo_input t body e' Hb).
Qed.

End Restore.

(** An animated draw on an interactive terminal, interrupted during the
    pacing wait that follows the first frame; and the same frame drawn by
    the orchestrator of the specification, which has suppressed the echo
    and restores it. *)
Lemma interrupted_draw_restores_the_terminal :
  draw (style := graphics_1x2) (80, 24) small_hash drawable_1x1 default_draw_args
    (tty_env [interrupted three_frames])
  = (drawable_1x1,
     [HideCursor; Text "0"; CursorDown 22; ColorReset; ShowCursor; Newline],
     Ended (Raise KeyboardInterrupt))
  /\ cursor_visible
       (after_writes {| cursor_visible := true; colors_reset := true; echo := true |}
          [HideCursor; Text "0"; CursorDown 22; ColorReset; ShowCursor; Newline])
     = true
  /\ colors_reset
       (after_writes {| cursor_visible := true; colors_reset := true; echo := true |}
          [HideCursor; Text "0"; CursorDown 22; ColorReset; ShowCursor; Newline])
     = true
  /\ orchestrated_draw true true false
       {| cursor_visible := true; colors_reset := true; echo := true |}
       [Text "0"] (Ended (Raise KeyboardInterrupt))
     = [Set_echo false; Output HideCursor; Output (Text "0"); Output ColorReset;
        Output ShowCursor; Set_echo true]
  /\ echo (after_actions
             {| cursor_visible := true; colors_reset := true; echo := true |}
             (orchestrated_draw true true false
                {| cursor_visible := true; colors_reset := true; echo := true |}
                [Text "0"] (Ended (Raise KeyboardInterrupt))))
     = true.
Proof.
  assert (Hd : draw (style := graphics_1x2) (80, 24) small_hash drawable_1x1
                 default_draw_args (tty_env [interrupted three_frames])
               = (drawable_1x1,
                  [HideCursor; Text "0"; CursorDown 22; ColorReset; ShowCursor; Newline],
                  Ended (Raise KeyboardInterrupt))) by (vm_compute; reflexivity).
  split; [exact Hd|].
  pose proof (draw_restores_the_terminal (style := graphics_1x2) (80, 24) small_hash
                drawable_1x1 default_draw_args (tty_env [interrupted three_frames]))
    as H.
  rewrite Hd in H. simpl in H.
  destruct H as (_ & _ & Hrestore & Horch).
  destruct (Hrestore (Raise KeyboardInterrupt)
              {| cursor_visible := true; colors_reset := true; echo := true |}
              eq_refl eq_refl) as [Hv Hc].
  split; [exact Hv|]. split; [apply Hc; discriminate|].
  split; [reflexivity|].
  destruct (Horch true true false
              {| cursor_visible := true; colors_reset := true; echo := true |}
              [Text "0"] (Ended (Raise KeyboardInterrupt)) eq_refl)
    as (_ & _ & _ & Hexit).
  exact (proj1 (Hexit (Raise KeyboardInterrupt) eq_refl)).
Defined.

(** ** The matcher *)

Lemma append_assoc s1 s2 s3 : (s1 +:+ s2) +:+ s3 = s1 +:+ s2 +:+ s3.
Proof. induction s1 as [|a s1 IH]; simpl; [reflexivity|now rewrite IH]. Qed.

Lemma append_nil_r s : s +:+ "" = s.
Proof. induction s as [|a s IH]; simpl; [reflexivity|now rewrite IH]. Qed.

Lemma length_append s1 s2 :
  String.length (s1 +:+ s2) = (String.length s1 + String.length s2)%nat.
Proof. induction s1 as [|a s1 IH]; simpl; [reflexivity|now rewrite IH]. Qed.

Lemma substring_prefix s1 s2 : substring 0 (String.length s1) (s1 +:+ s2) = s1.
Proof.
  induction s1 as [|a s1 IH]; simpl.
  - now destruct s2.
  - now rewrite IH.
Qed.

Lemma consumed_append s1 s2 : consumed (s1 +:+ s2) s2 = s1.
Proof.
  unfold consumed. rewrite length_append.
  replace (String.length s1 + String.length s2 - String.length s2)%nat
    with (String.length s1) by lia.
  apply substring_prefix.
Qed.

Lemma all_in_append c s1 s2 :
  all_in c (s1 +:+ s2) = all_in c s1 && all_in c s2.
Proof.
  induction s1 as [|a s1 IH]; simpl; [reflexivity|].
  now rewrite IH, andb_assoc.
Qed.

(** *** Soundness of the matcher *)

Lemma plus_match_sound {A} c s (k : string -> option A) m :
  plus_match c s k = Some m ->
  exists s1 s2, s = s1 +:+ s2 /\ s1 <> "" /\ all_in c s1 = true /\ k s2 = Some m.
Proof.
  revert m. induction s as [|a s IH]; intros m; simpl; [discriminate|].
  destruct (cset_mem a c) eqn:Ha; [|discriminate].
  destruct (plus_match c s k) as [m'|] eqn:Hp.
  - intros [= <-]. destruct (IH _ eq_refl) as (s1 & s2 & -> & _ & Hall & Hk).
    exists (String a s1), s2. simpl. rewrite Ha, Hall. now repeat split.
  - intros Hk. exists (String a ""), s. simpl. rewrite Ha. now repeat split.
Qed.

Lemma repeat_match_sound {A} n c : forall s (k : string -> option A) m,
  repeat_match n c s k = Some m ->
  exists s1 s2, s = s1 +:+ s2 /\ String.length s1 = n /\ all_in c s1 = true
                /\ k s2 = Some m.
Proof.
  induction n as [|n IH]; intros s k m; simpl.
  - intros Hk. now exists "", s.
  - destruct s as [|a s]; [discriminate|].
    destruct (cset_mem a c) eqn:Ha; [|discriminate].
    intros H. destruct (IH _ _ _ H) as (s1 & s2 & -> & Hl & Hall & Hk).
    exists (String a s1), s2. simpl. rewrite Ha, Hall, Hl. now repeat split.
Qed.

Lemma rmatch_sound r : forall s caps k m,
  rmatch r s caps k = Some m ->
  exists s1 s2 caps', s = s1 +:+ s2 /\ denotes r s1 /\ k s2 caps' = Some m.
Proof.
  induction r as [|c|c|n c|r1 IH1 r2 IH2|r1 IH1 r2 IH2|r IH|i r IH];
    intros s caps k m; simpl.
  - intros H. now exists "", s, caps.
  - destruct s as [|a s]; [discriminate|].
    destruct (cset_mem a c) eqn:Ha; [|discriminate].
    intros H. exists (String a ""), s, caps. repeat split; eauto.
  - intros H. apply plus_match_sound in H as (s1 & s2 & -> & Hne & Hall & Hk).
    exists s1, s2, caps. now repeat split.
  - intros H. apply repeat_match_sound in H as (s1 & s2 & -> & Hl & Hall & Hk).
    exists s1, s2, caps. now repeat split.
  - intros H. apply IH1 in H as (s1 & s2 & caps1 & -> & Hd1 & H).
    apply IH2 in H as (s3 & s4 & caps2 & -> & Hd2 & H).
    exists (s1 +:+ s3), s4, caps2. rewrite append_assoc. repeat split; eauto.
  - destruct (rmatch r1 s caps k) as [m1|] eqn:H1.
    + intros [= <-]. apply IH1 in H1 as (s1 & s2 & caps' & -> & Hd & H).
      exists s1, s2, caps'. repeat split; auto.
    + intros H2. apply IH2 in H2 as (s1 & s2 & caps' & -> & Hd & H).
      exists s1, s2, caps'. repeat split; auto.
  - destruct (rmatch r s caps k) as [m1|] eqn:H1.
    + intros [= <-]. apply IH in H1 as (s1 & s2 & caps' & -> & Hd & H).
      exists s1, s2, caps'. repeat split; auto.
    + intros H. exists "", s, caps. repeat split; auto.
  - intros H. apply IH in H as (s1 & s2 & caps' & -> & Hd & H).
    eexists s1, s2, _. repeat split; eauto.
Qed.

Lemma fullmatch_sound n r s m : fullmatch n r s = Some m -> denotes r s.
Proof.
  unfold fullmatch. intros H.
  apply rmatch_sound in H as (s1 & s2 & caps' & -> & Hd & H).
  destruct s2; [|discriminate]. now rewrite append_nil_r.
Qed.

(** *** Matching a known prefix *)

(** A greedy run over [s1] goes on with the rest when the rest does not
    continue the run and the continuation accepts it. *)
Lemma plus_match_run {A} c s1 s2 (k : string -> option A) m :
  s1 <> "" -> all_in c s1 = true -> starts_in c s2 = false ->
  k s2 = Some m ->
  plus_match c (s1 +:+ s2) k = Some m.
Proof.
  intros Hne Hall Hs2 Hk. induction s1 as [|a s1 IH]; [congruence|].
  simpl in *. apply andb_true_iff in Hall as [Ha Hall]. rewrite Ha.
  destruct s1 as [|b s1].
  - simpl. replace (plus_match c s2 k) with (@None A); [exact Hk|].
    destruct s2 as [|b s2]; [reflexivity|]. simpl in *. now rewrite Hs2.
  - rewrite IH; [reflexivity|discriminate|assumption].
Qed.

Lemma repeat_match_run {A} c s1 s2 (k : string -> option A) :
  all_in c s1 = true ->
  repeat_match (String.length s1) c (s1 +:+ s2) k = k s2.
Proof.
  intros Hall. induction s1 as [|a s1 IH]; simpl in *; [reflexivity|].
  apply andb_true_iff in Hall as [Ha Hall]. rewrite Ha. now apply IH.
Qed.

(** A run cannot start where the string does not start in the set. *)
Lemma plus_match_none {A} c s (k : string -> option A) :
  starts_in c s = false -> plus_match c s k = None.
Proof. destruct s as [|a s]; simpl; [reflexivity|]. now intros ->. Qed.

(** ** Matching a specifier *)

(** *** One step of the matcher *)

Lemma rseq_eq r1 r2 s caps k :
  rmatch (RSeq r1 r2) s caps k
  = rmatch r1 s caps (fun s' caps' => rmatch r2 s' caps' k).
Proof. reflexivity. Qed.

Lemma rgroup_eq i r s caps k :
  rmatch (RGroup i r) s caps k
  = rmatch r s caps (fun s' caps' => k s' (<[i := Some (consumed s s')]> caps')).
Proof. reflexivity. Qed.

Lemma ropt_some r s caps k m :
  rmatch r s caps k = Some m -> rmatch (ROpt r) s caps k = Some m.
Proof. simpl. now intros ->. Qed.

Lemma ropt_none r s caps k :
  rmatch r s caps k = None -> rmatch (ROpt r) s caps k = k s caps.
Proof. simpl. now intros ->. Qed.

Lemma ralt_left r1 r2 s caps k m :
  rmatch r1 s caps k = Some m -> rmatch (RAlt r1 r2) s caps k = Some m.
Proof. simpl. now intros ->. Qed.

Lemma ralt_right r1 r2 s caps k :
  rmatch r1 s caps k = None -> rmatch (RAlt r1 r2) s caps k = rmatch r2 s caps k.
Proof. simpl. now intros ->. Qed.

Lemma rlit_cons c s caps k : rmatch (lit c) (String c s) caps k = k s caps.
Proof. simpl. now rewrite Ascii.eqb_refl. Qed.

Lemma consumed_nil s : consumed s "" = s.
Proof. rewrite <- (append_nil_r s) at 1. apply consumed_append. Qed.

Lemma consumed_cons a s : consumed (String a s) s = String a "".
Proof. apply (consumed_append (String a "") s). Qed.

(** *** Where a pattern cannot start *)

Lemma rmatch_no_start r : forall s caps k,
  no_start r s ->
  (nullable r = true -> forall caps', k s caps' = None) ->
  rmatch r s caps k = None.
Proof.
  induction r as [|c|c|n c|r1 IH1 r2 IH2|r1 IH1 r2 IH2|r IH|i r IH];
    intros s caps k Hs Hk; simpl in *.
  - now apply Hk.
  - destruct s as [|a s]; [reflexivity|]. simpl in Hs. now rewrite Hs.
  - apply plus_match_none. now destruct s.
  - destruct n as [|n]; [now apply Hk|].
    destruct s as [|a s]; [reflexivity|]. simpl in *. now rewrite Hs.
  - apply IH1.
    + destruct s as [|a s]; [exact I|]. simpl in *.
      now apply orb_false_iff in Hs as [-> _].
    + intros Hn1 caps'. apply IH2.
      * destruct s as [|a s]; [exact I|]. simpl in *.
        apply orb_false_iff in Hs as [_ Hs]. now rewrite Hn1 in Hs.
      * intros Hn2. apply Hk. now rewrite Hn1, Hn2.
  - rewrite IH1, IH2; [reflexivity| | | |].
    + destruct s as [|a s]; [exact I|]. simpl in *.
      now apply orb_false_iff in Hs as [_ ->].
    + intros Hn. apply Hk. rewrite Hn. apply orb_true_r.
    + destruct s as [|a s]; [exact I|]. simpl in *.
      now apply orb_false_iff in Hs as [-> _].
    + intros Hn. apply Hk. now rewrite Hn.
  - rewrite IH; [now apply Hk|assumption|]. intros _. now apply Hk.
  - apply IH; [assumption|]. intros Hn caps'. now apply Hk.
Qed.

(** *** Optional parts *)

Lemma ropt_group_char i c (o : option ascii) rest caps k m :
  char_ok c o = true ->
  (o = None -> starts_in c rest = false) ->
  k rest (ins i ((fun a => String a "") <$> o) caps) = Some m ->
  rmatch (ROpt (RGroup i (RChar c))) (opt_char o +:+ rest) caps k = Some m.
Proof.
  intros Hc Hrest Hk. destruct o as [a|]; simpl in *.
  - rewrite Hc. rewrite consumed_cons. now rewrite Hk.
  - specialize (Hrest eq_refl).
    destruct rest as [|b rest]; simpl in *; [exact Hk|]. now rewrite Hrest.
Qed.

Lemma ropt_group_plus i c (o : option string) rest caps k m :
  run_ok c o = true ->
  starts_in c rest = false ->
  k rest (ins i o caps) = Some m ->
  rmatch (ROpt (RGroup i (RPlus c))) (opt_str o +:+ rest) caps k = Some m.
Proof.
  intros Hc Hrest Hk. destruct o as [d|]; simpl in *.
  - apply andb_true_iff in Hc as [Hne Hall].
    assert (d <> "") by (intros ->; discriminate).
    rewrite (plus_match_run c d rest _ m); auto.
    now rewrite consumed_append.
  - now rewrite plus_match_none.
Qed.

(** *** Character classes *)

Lemma digit_class a :
  cset_mem a digit = true ->
  cset_mem a h_aligns = false /\ cset_mem a v_aligns = false
  /\ cset_mem a hexdigit = true /\ a <> "."%char /\ a <> "#"%char
  /\ a <> "+"%char.
Proof.
  destruct a as [[] [] [] [] [] [] [] []]; vm_compute; intros H;
    try discriminate H; repeat split; discriminate.
Qed.

Lemma hexdigit_class a :
  cset_mem a hexdigit = true ->
  a <> "."%char /\ a <> "#"%char /\ a <> "+"%char.
Proof.
  destruct a as [[] [] [] [] [] [] [] []]; vm_compute; intros H;
    try discriminate H; repeat split; discriminate.
Qed.

Lemma h_aligns_class a :
  cset_mem a h_aligns = true ->
  cset_mem a digit = false /\ a <> "."%char /\ a <> "#"%char /\ a <> "+"%char.
Proof.
  destruct a as [[] [] [] [] [] [] [] []]; vm_compute; intros H;
    try discriminate H; repeat split; discriminate.
Qed.

Lemma v_aligns_class a :
  cset_mem a v_aligns = true ->
  cset_mem a digit = false /\ a <> "."%char /\ a <> "#"%char /\ a <> "+"%char.
Proof.
  destruct a as [[] [] [] [] [] [] [] []]; vm_compute; intros H;
    try discriminate H; repeat split; discriminate.
Qed.

Lemma mem_single a b : cset_mem a (CChars [b]) = false <-> a <> b.
Proof.
  simpl. rewrite orb_false_r. split.
  - intros H ->. now rewrite Ascii.eqb_refl in H.
  - intros H. now apply Ascii.eqb_neq.
Qed.

(** A run of digits starts in no other class. *)
Lemma starts_in_run c c' (o : option string) rest :
  run_ok c o = true ->
  (forall a, cset_mem a c = true -> cset_mem a c' = false) ->
  starts_in c' rest = false ->
  starts_in c' (opt_str o +:+ rest) = false.
Proof.
  intros Ho Hc Hrest. destruct o as [[|a d]|]; simpl in *; try assumption.
  apply Hc. now apply andb_true_iff in Ho as [Ha _].
Qed.

(** What follows each part starts with none of its characters. *)
Lemma after_horizontal v a s c :
  cset_mem "." c = false -> cset_mem "#" c = false -> cset_mem "+" c = false ->
  starts_in c (render_vertical v +:+ render_alpha a +:+ render_style s) = false.
Proof.
  intros H1 H2 H3. destruct v as [[? ?]|]; [exact H1|].
  destruct a as [?|]; [exact H2|]. destruct s; [exact H3|reflexivity].
Qed.

Lemma after_vertical a s c :
  cset_mem "#" c = false -> cset_mem "+" c = false ->
  starts_in c (render_alpha a +:+ render_style s) = false.
Proof.
  intros H2 H3. destruct a as [?|]; [exact H2|]. destruct s; [exact H3|reflexivity].
Qed.

Lemma after_alpha s c :
  cset_mem "+" c = false -> starts_in c (render_style s) = false.
Proof. intros H3. destruct s; [exact H3|reflexivity]. Qed.

(** *** The four parts of [_FORMAT_SPEC] *)

Lemma match_horizontal h w rest caps k m :
  char_ok h_aligns h = true -> run_ok digit w = true ->
  starts_in h_aligns rest = false -> starts_in digit rest = false ->
  k rest (caps_horizontal h w caps) = Some m ->
  rmatch horizontal_part (render_horizontal h w +:+ rest) caps k = Some m.
Proof.
  intros Hh Hw Hr1 Hr2 Hk. unfold horizontal_part, render_horizontal.
  rewrite append_assoc. apply ropt_some. rewrite rgroup_eq, rseq_eq.
  apply ropt_group_char; [exact Hh| |].
  - intros _. apply (starts_in_run digit); auto.
    intros a Ha. now apply digit_class in Ha.
  - apply ropt_group_plus; [exact Hw|exact Hr2|].
    rewrite <- append_assoc, consumed_append. exact Hk.
Qed.

Lemma match_vertical v rest caps k m :
  vertical_ok v = true ->
  starts_in (CChars ["."%char]) rest = false ->
  starts_in v_aligns rest = false -> starts_in digit rest = false ->
  k rest (caps_vertical v caps) = Some m ->
  rmatch vertical_part (render_vertical v +:+ rest) caps k = Some m.
Proof.
  intros Hv Hr0 Hr1 Hr2 Hk. unfold vertical_part.
  destruct v as [[a h]|]; simpl render_vertical.
  - simpl in Hv. apply andb_true_iff in Hv as [Ha Hh].
    apply ropt_some. rewrite rgroup_eq, rseq_eq.
    rewrite (rlit_cons "." ((opt_char a +:+ opt_str h) +:+ rest)).
    rewrite rseq_eq, append_assoc.
    apply ropt_group_char; [exact Ha| |].
    + intros _. apply (starts_in_run digit); auto.
      intros b Hb. now apply digit_class in Hb.
    + apply ropt_group_plus; [exact Hh|exact Hr2|].
      rewrite consumed_append. exact Hk.
  - change ("" +:+ rest) with rest. rewrite ropt_none; [exact Hk|].
    apply rmatch_no_start; [|discriminate].
    destruct rest as [|b rest]; [exact I|]. simpl in *.
    now rewrite Hr0.
Qed.

Lemma rplus_eq c s caps k :
  rmatch (RPlus c) s caps k = plus_match c s (fun s' => k s' caps).
Proof. reflexivity. Qed.

Lemma rrepeat_eq n c s caps k :
  rmatch (RRepeat n c) s caps k = repeat_match n c s (fun s' => k s' caps).
Proof. reflexivity. Qed.

Lemma consumed_eq s rest s1 : s = s1 +:+ rest -> consumed s rest = s1.
Proof. intros ->. apply consumed_append. Qed.

Ltac consumed_is s1 :=
  match goal with
  | |- context [consumed ?s ?rest] =>
      rewrite (consumed_eq s rest s1) by (simpl; now rewrite ?append_assoc)
  end.

Lemma starts_in_digit_hexdigit s :
  starts_in hexdigit s = false -> starts_in digit s = false.
Proof.
  destruct s as [|a s]; [reflexivity|]. cbn [starts_in]. intros H.
  destruct (cset_mem a digit) eqn:Ha; [|reflexivity].
  apply digit_class in Ha. destruct Ha as (_ & _ & Hx & _). congruence.
Qed.

Lemma match_transparency a rest caps k m :
  alpha_ok a = true ->
  starts_in (CChars ["#"%char]) rest = false ->
  starts_in (CChars ["."%char]) rest = false ->
  starts_in hexdigit rest = false ->
  k rest (caps_alpha a caps) = Some m ->
  rmatch transparency_part (render_alpha a +:+ rest) caps k = Some m.
Proof.
  intros Ha Hr1 Hr2 Hr3 Hk. unfold transparency_part.
  destruct a as [x|].
  2:{ change (render_alpha None +:+ rest) with rest.
      rewrite ropt_none; [exact Hk|].
      apply rmatch_no_start; [|discriminate].
      destruct rest as [|b rest]; [exact I|]. simpl in *. now rewrite Hr1. }
  unfold caps_alpha in Hk. apply ropt_some. rewrite rgroup_eq, rseq_eq.
  rewrite (rlit_cons "#" (opt_str (alpha_inner x) +:+ rest)).
  destruct x as [|d|c|]; simpl alpha_inner in *; simpl opt_str in *.
  - (* # *)
    change ("" +:+ rest) with rest. rewrite ropt_none.
    + consumed_is "#". exact Hk.
    + apply rmatch_no_start; [|discriminate].
      destruct rest as [|b rest]; [exact I|]. simpl in *.
      rewrite orb_false_r in *. now rewrite Hr1, Hr2, Hr3.
  - (* #.ddd *)
    simpl in Ha. apply andb_true_iff in Ha as [Hne Hall].
    assert (d <> "") by (intros ->; discriminate).
    apply ropt_some. rewrite rgroup_eq. apply ralt_left. rewrite rseq_eq.
    rewrite (rlit_cons "." (d +:+ rest)), rplus_eq.
    rewrite (plus_match_run digit d rest _ m); auto.
    + now apply starts_in_digit_hexdigit.
    + consumed_is ("." +:+ d). consumed_is ("#." +:+ d). exact Hk.
  - (* #RRGGBB *)
    simpl in Ha. apply andb_true_iff in Ha as [Hlen Hall].
    apply Nat.eqb_eq in Hlen.
    apply ropt_some. rewrite rgroup_eq. rewrite ralt_right.
    + apply ralt_left. rewrite rrepeat_eq.
      pose proof (@repeat_match_run captures hexdigit c rest) as Hrun.
      rewrite Hlen in Hrun. rewrite Hrun by assumption.
      consumed_is c. consumed_is ("#" +:+ c). exact Hk.
    + apply rmatch_no_start; [|discriminate].
      destruct c as [|c0 c]; [discriminate|]. simpl in Hall |- *.
      apply andb_true_iff in Hall as [Hc0 _].
      apply hexdigit_class in Hc0 as (Hdot & _).
      rewrite !orb_false_r. now apply Ascii.eqb_neq.
  - (* ## *)
    apply ropt_some. rewrite rgroup_eq. rewrite ralt_right by reflexivity.
    rewrite ralt_right by reflexivity.
    rewrite (rlit_cons "#" rest).
    consumed_is "#". consumed_is "##". exact Hk.
Qed.

Lemma match_style s caps k m :
  run_ok CDot s = true ->
  k "" (caps_style s caps) = Some m ->
  rmatch style_part (render_style s) caps k = Some m.
Proof.
  intros Hs Hk. unfold style_part. destruct s as [x|]; [|exact Hk].
  simpl in Hs. apply andb_true_iff in Hs as [Hne Hall].
  assert (x <> "") by (intros ->; discriminate).
  apply ropt_some. rewrite rgroup_eq, rseq_eq.
  rewrite (rlit_cons "+" x), rgroup_eq, rplus_eq.
  pose proof (@plus_match_run captures CDot x "") as Hrun.
  rewrite append_nil_r in Hrun.
  rewrite (Hrun _ m); auto.
  rewrite !consumed_nil. exact Hk.
Qed.

(** *** A well-formed specifier matches [_FORMAT_SPEC] *)

Lemma well_formed_parts p :
  well_formed p = true ->
  char_ok h_aligns (p_h_align p) = true /\ run_ok digit (p_width p) = true
  /\ vertical_ok (p_vertical p) = true /\ alpha_ok (p_alpha p) = true
  /\ run_ok CDot (p_style p) = true.
Proof.
  unfold well_formed. rewrite !andb_true_iff. tauto.
Qed.

Lemma format_spec_matches p :
  well_formed p = true ->
  fullmatch 10 _FORMAT_SPEC (render p) = Some (captures_of p).
Proof.
  intros Hp. apply well_formed_parts in Hp as (Hh & Hw & Hv & Ha & Hs).
  unfold fullmatch, _FORMAT_SPEC, render at 1. rewrite rseq_eq.
  apply match_horizontal; auto using after_horizontal.
  cbv beta. rewrite rseq_eq.
  apply match_vertical; auto using after_vertical.
  cbv beta. rewrite rseq_eq.
  apply match_transparency; auto using after_alpha.
  cbv beta. apply match_style; auto.
Qed.

(** ** What the patterns denote *)

(** *** What the patterns denote *)

Lemma denotes_lit c s : denotes (lit c) s -> s = String c "".
Proof.
  intros (a & -> & Ha). cbn in Ha. rewrite orb_false_r in Ha.
  apply Ascii.eqb_eq in Ha. now subst.
Qed.

Lemma denotes_opt_char i c s :
  denotes (ROpt (RGroup i (RChar c))) s ->
  exists o, char_ok c o = true /\ s = opt_char o.
Proof.
  intros [->|(a & -> & Ha)]; [now exists None|now exists (Some a)].
Qed.

Lemma run_ok_Some c s : s <> "" -> all_in c s = true -> run_ok c (Some s) = true.
Proof. intros Hne Hall. destruct s; [congruence|]. exact Hall. Qed.

Lemma denotes_opt_plus i c s :
  denotes (ROpt (RGroup i (RPlus c))) s ->
  exists o, run_ok c o = true /\ s = opt_str o.
Proof.
  intros [->|(Hne & Hall)]; [now exists None|].
  exists (Some s). split; [now apply run_ok_Some|reflexivity].
Qed.

Lemma denotes_horizontal x :
  denotes horizontal_part x ->
  exists h w, char_ok h_aligns h = true /\ run_ok digit w = true
              /\ x = render_horizontal h w.
Proof.
  intros [->|(s1 & s2 & -> & H1 & H2)]; [now exists None, None|].
  apply denotes_opt_char in H1 as (h & Hh & ->).
  apply denotes_opt_plus in H2 as (w & Hw & ->).
  now exists h, w.
Qed.

Lemma denotes_vertical x :
  denotes vertical_part x ->
  exists v, vertical_ok v = true /\ x = render_vertical v.
Proof.
  intros [->|(s1 & s2 & -> & H1 & s3 & s4 & -> & H3 & H4)]; [now exists None|].
  apply denotes_lit in H1 as ->.
  apply denotes_opt_char in H3 as (a & Ha & ->).
  apply denotes_opt_plus in H4 as (h & Hh & ->).
  exists (Some (a, h)). split; [|reflexivity].
  simpl. now rewrite Hh, andb_true_r.
Qed.

Lemma denotes_transparency x :
  denotes transparency_part x ->
  exists a, alpha_ok a = true /\ x = render_alpha a.
Proof.
  intros [->|(s1 & s2 & -> & H1 & H2)]; [now exists None|].
  apply denotes_lit in H1 as ->.
  destruct H2 as [->|[(s3 & d & -> & H3 & Hne & Hall)|[(Hlen & Hall)|H2]]].
  - now exists (Some Bare).
  - apply denotes_lit in H3 as ->. exists (Some (Threshold d)).
    split; [now apply run_ok_Some|reflexivity].
  - exists (Some (Hex s2)). split; [|reflexivity].
    simpl. rewrite Hall, andb_true_r. now apply Nat.eqb_eq.
  - apply denotes_lit in H2 as ->. now exists (Some Doubled).
Qed.

Lemma denotes_style x :
  denotes style_part x -> exists s, run_ok CDot s = true /\ x = render_style s.
Proof.
  intros [->|(s1 & s2 & -> & H1 & Hne & Hall)]; [now exists None|].
  apply denotes_lit in H1 as ->. exists (Some s2).
  split; [now apply run_ok_Some|reflexivity].
Qed.

(** Whatever [_FORMAT_SPEC] matches is spelt by well-formed parts. *)
Lemma denotes_format_spec s :
  denotes _FORMAT_SPEC s -> exists p, well_formed p = true /\ s = render p.
Proof.
  intros (s1 & r1 & -> & H1 & s2 & r2 & -> & H2 & s3 & s4 & -> & H3 & H4).
  apply denotes_horizontal in H1 as (h & w & Hh & Hw & ->).
  apply denotes_vertical in H2 as (v & Hv & ->).
  apply denotes_transparency in H3 as (a & Ha & ->).
  apply denotes_style in H4 as (st & Hs & ->).
  exists {| p_h_align := h; p_width := w; p_vertical := v;
            p_alpha := a; p_style := st |}.
  split; [|reflexivity]. unfold well_formed. simpl.
  now rewrite Hh, Hw, Hv, Ha, Hs.
Qed.

(** Whatever [_NO_VERTICAL_SPEC] matches is spelt by parts with a bare [.]. *)
Lemma denotes_no_vertical_spec s :
  denotes _NO_VERTICAL_SPEC s ->
  exists p, well_formed p = true /\ no_vertical p = true /\ s = render p.
Proof.
  intros (s1 & r1 & -> & H1 & s2 & s3 & -> & H2 & H3).
  apply denotes_horizontal in H1 as (h & w & Hh & Hw & ->).
  apply denotes_lit in H2 as ->.
  assert (exists a, alpha_ok a = true /\ a <> Some Doubled
                    /\ s3 = render_alpha a) as (a & Ha & Hd & ->).
  { destruct H3 as [->|(s1 & s2 & -> & H1 & H2)]; [now exists None|].
    apply denotes_lit in H1 as ->.
    destruct H2 as [->|[(s3 & d & -> & H3 & Hne & Hall)|(Hlen & Hall)]].
    - now exists (Some Bare).
    - apply denotes_lit in H3 as ->. exists (Some (Threshold d)).
      split; [now apply run_ok_Some|]. split; [discriminate|reflexivity].
    - exists (Some (Hex s2)). split; [|split; [discriminate|reflexivity]].
      simpl. rewrite Hall, andb_true_r. now apply Nat.eqb_eq. }
  exists {| p_h_align := h; p_width := w; p_vertical := Some (None, None);
            p_alpha := a; p_style := None |}.
  split; [|split].
  - unfold well_formed. simpl. now rewrite Hh, Hw, Ha.
  - unfold no_vertical. simpl. destruct a as [[]|]; congruence.
  - unfold render. simpl. now rewrite append_nil_r.
Qed.

(** ** Unique spelling *)

(** *** A specifier is spelt by one set of parts only *)

Lemma opt_char_inj c o o' r r' :
  char_ok c o = true -> char_ok c o' = true ->
  starts_in c r = false -> starts_in c r' = false ->
  opt_char o +:+ r = opt_char o' +:+ r' -> o = o' /\ r = r'.
Proof.
  intros Ho Ho' Hr Hr' H.
  destruct o as [a|], o' as [a'|]; cbn in H, Ho, Ho'.
  - now injection H as -> ->.
  - subst r'. cbn [starts_in] in Hr'. congruence.
  - subst r. cbn [starts_in] in Hr. congruence.
  - now split.
Qed.

Lemma run_inj c : forall d d' r r',
  all_in c d = true -> all_in c d' = true ->
  starts_in c r = false -> starts_in c r' = false ->
  d +:+ r = d' +:+ r' -> d = d' /\ r = r'.
Proof.
  induction d as [|a d IH]; intros [|a' d'] r r' Hd Hd' Hr Hr' H;
    cbn [String.append all_in] in *.
  - now split.
  - subst r. cbn [starts_in] in Hr.
    apply andb_true_iff in Hd' as [Ha _]. congruence.
  - subst r'. cbn [starts_in] in Hr'.
    apply andb_true_iff in Hd as [Ha _]. congruence.
  - injection H as -> H.
    apply andb_true_iff in Hd as [_ Hd]. apply andb_true_iff in Hd' as [_ Hd'].
    destruct (IH _ _ _ Hd Hd' Hr Hr' H) as [-> ->]. now split.
Qed.

Lemma run_ok_all c o : run_ok c o = true -> all_in c (opt_str o) = true.
Proof.
  destruct o as [d|]; [|reflexivity]. cbn.
  intros H. now apply andb_true_iff in H as [_ H].
Qed.

Lemma opt_str_inj c o o' :
  run_ok c o = true -> run_ok c o' = true -> opt_str o = opt_str o' -> o = o'.
Proof.
  destruct o as [d|], o' as [d'|]; cbn; intros Ho Ho' H; subst;
    try reflexivity; discriminate.
Qed.

Lemma opt_run_inj c o o' r r' :
  run_ok c o = true -> run_ok c o' = true ->
  starts_in c r = false -> starts_in c r' = false ->
  opt_str o +:+ r = opt_str o' +:+ r' -> o = o' /\ r = r'.
Proof.
  intros Ho Ho' Hr Hr' H.
  destruct (run_inj c _ _ _ _ (run_ok_all _ _ Ho) (run_ok_all _ _ Ho') Hr Hr' H)
    as [Heq ->].
  split; [|reflexivity]. eapply opt_str_inj; eauto.
Qed.

Lemma digit_not_h_align a : cset_mem a digit = true -> cset_mem a h_aligns = false.
Proof. intros H. now apply digit_class in H. Qed.

Lemma digit_not_v_align a : cset_mem a digit = true -> cset_mem a v_aligns = false.
Proof. intros H. now apply digit_class in H. Qed.

Lemma horizontal_inj h w h' w' r r' :
  char_ok h_aligns h = true -> run_ok digit w = true ->
  char_ok h_aligns h' = true -> run_ok digit w' = true ->
  starts_in h_aligns r = false -> starts_in digit r = false ->
  starts_in h_aligns r' = false -> starts_in digit r' = false ->
  render_horizontal h w +:+ r = render_horizontal h' w' +:+ r' ->
  h = h' /\ w = w' /\ r = r'.
Proof.
  intros Hh Hw Hh' Hw' H1 H2 H1' H2' H. unfold render_horizontal in H.
  rewrite !append_assoc in H.
  apply (opt_char_inj h_aligns) in H as [-> H]; auto;
    try (apply (starts_in_run digit); auto using digit_not_h_align).
  apply (opt_run_inj digit) in H as [-> ->]; auto.
Qed.

Lemma vertical_inj v v' r r' :
  vertical_ok v = true -> vertical_ok v' = true ->
  starts_in (CChars ["."%char]) r = false -> starts_in v_aligns r = false ->
  starts_in digit r = false ->
  starts_in (CChars ["."%char]) r' = false -> starts_in v_aligns r' = false ->
  starts_in digit r' = false ->
  render_vertical v +:+ r = render_vertical v' +:+ r' -> v = v' /\ r = r'.
Proof.
  intros Hv Hv' H0 H1 H2 H0' H1' H2' H.
  destruct v as [[a h]|], v' as [[a' h']|]; cbn in H, Hv, Hv'.
  - apply andb_true_iff in Hv as [Ha Hh]. apply andb_true_iff in Hv' as [Ha' Hh'].
    injection H as H. rewrite !append_assoc in H.
    apply (opt_char_inj v_aligns) in H as [-> H]; auto;
      try (apply (starts_in_run digit); auto using digit_not_v_align).
    apply (opt_run_inj digit) in H as [-> ->]; auto.
  - subst r'. discriminate.
  - subst r. discriminate.
  - now split.
Qed.

Lemma append_length_inj : forall c c' r r',
  String.length c = String.length c' -> c +:+ r = c' +:+ r' -> c = c' /\ r = r'.
Proof.
  induction c as [|a c IH]; intros [|a' c'] r r' Hl H; cbn in *;
    try discriminate; [now split|].
  injection H as -> H. injection Hl as Hl.
  destruct (IH _ _ _ Hl H) as [-> ->]. now split.
Qed.

Lemma hex_head c :
  (String.length c =? 6)%nat && all_in hexdigit c = true ->
  exists c0 c', c = String c0 c' /\ cset_mem c0 hexdigit = true.
Proof.
  intros H. apply andb_true_iff in H as [Hl Hall].
  destruct c as [|c0 c']; [discriminate|]. cbn [all_in] in Hall.
  apply andb_true_iff in Hall as [H0 _]. eauto.
Qed.

Lemma transparency_inj a a' r r' :
  alpha_ok a = true -> alpha_ok a' = true ->
  starts_in (CChars ["#"%char]) r = false ->
  starts_in (CChars ["."%char]) r = false ->
  starts_in hexdigit r = false ->
  starts_in (CChars ["#"%char]) r' = false ->
  starts_in (CChars ["."%char]) r' = false ->
  starts_in hexdigit r' = false ->
  render_alpha a +:+ r = render_alpha a' +:+ r' -> a = a' /\ r = r'.
Proof.
  intros Ha Ha' H0 H1 H2 H0' H1' H2' H.
  destruct a as [x|], a' as [x'|]; cbn [render_alpha] in H.
  4: now split.
  3: cbn in H; subst r; discriminate.
  2: cbn in H; subst r'; discriminate.
  injection H as H.
  destruct x as [|d|c|], x' as [|d'|c'|];
    cbn [alpha_inner opt_str alpha_ok] in H, Ha, Ha';
    try (apply hex_head in Ha as Hc; destruct Hc as (c0 & ct & Ec & Hc0);
         pose proof (hexdigit_class _ Hc0) as (? & ? & ?));
    try (apply hex_head in Ha' as Hc'; destruct Hc' as (c0' & ct' & Ec' & Hc0');
         pose proof (hexdigit_class _ Hc0') as (? & ? & ?));
    try (now split; congruence).
  all: try (cbn in H; subst r; discriminate).
  all: try (cbn in H; subst r'; discriminate).
  all: try (rewrite Ec' in H; cbn in H; subst r; cbn [starts_in] in H2; congruence).
  all: try (rewrite Ec in H; cbn in H; subst r'; cbn [starts_in] in H2'; congruence).
  all: try (rewrite Ec' in H; cbn in H; injection H as <- _; congruence).
  all: try (rewrite Ec in H; cbn in H; injection H as -> _; congruence).
  all: try discriminate.
  - now split.
  - (* two thresholds *)
    injection H as H.
    cbn in Ha, Ha'. apply (opt_run_inj digit (Some d) (Some d')) in H;
      auto using starts_in_digit_hexdigit.
    destruct H as [[= ->] ->]. now split.
  - (* two colours *)
    apply andb_true_iff in Ha as [Hl _]. apply andb_true_iff in Ha' as [Hl' _].
    apply Nat.eqb_eq in Hl, Hl'.
    apply append_length_inj in H as [-> ->]; [now split|congruence].
  - cbn in H. now injection H as ->.
Qed.

Lemma style_inj s s' : render_style s = render_style s' -> s = s'.
Proof.
  destruct s, s'; cbn; intros H; try discriminate; [|reflexivity].
  now injection H as ->.
Qed.

Lemma render_inj p q :
  well_formed p = true -> well_formed q = true -> render p = render q -> p = q.
Proof.
  intros Hp Hq H.
  apply well_formed_parts in Hp as (Hh & Hw & Hv & Ha & Hs).
  apply well_formed_parts in Hq as (Hh' & Hw' & Hv' & Ha' & Hs').
  destruct p as [h w v a s], q as [h' w' v' a' s']. unfold render in H.
  cbn [p_h_align p_width p_vertical p_alpha p_style] in *.
  apply horizontal_inj in H as (-> & -> & H); auto using after_horizontal.
  apply vertical_inj in H as (-> & H); auto using after_vertical.
  apply transparency_inj in H as (-> & H); auto using after_alpha.
  now apply style_inj in H as ->.
Qed.

(** ** The checks of a specifier *)

(** *** What [_NO_VERTICAL_SPEC] matches *)

Lemma no_vertical_parts p :
  no_vertical p = true ->
  p_vertical p = Some (None, None) /\ p_style p = None
  /\ p_alpha p <> Some Doubled.
Proof.
  unfold no_vertical.
  destruct (p_vertical p) as [[[?|] [?|]]|], (p_alpha p) as [[]|], (p_style p);
    intros H; try discriminate H; repeat split; discriminate.
Qed.

Lemma no_vertical_spec_matches p :
  well_formed p = true -> no_vertical p = true ->
  exists m, fullmatch 5 _NO_VERTICAL_SPEC (render p) = Some m.
Proof.
  intros Hp Hi. apply well_formed_parts in Hp as (Hh & Hw & _ & Ha & _).
  apply no_vertical_parts in Hi as (Hv & Hs & Hd).
  unfold render. rewrite Hv, Hs.
  change (render_vertical (Some (None, None)) +:+ render_alpha (p_alpha p)
          +:+ render_style None)
    with (String "." (render_alpha (p_alpha p) +:+ "")).
  rewrite append_nil_r.
  destruct (p_alpha p) as [[|d|c|]|]; [| | |congruence|]; clear Hd.
  all: eexists; unfold fullmatch, _NO_VERTICAL_SPEC; rewrite rseq_eq;
    apply match_horizontal; [assumption|assumption|reflexivity|reflexivity|];
    cbv beta; rewrite rseq_eq, rlit_cons.
  - reflexivity.
  - cbn in Ha. apply andb_true_iff in Ha as [Hne Hall].
    assert (d <> "") by (intros ->; discriminate).
    apply ropt_some. rewrite rgroup_eq, rseq_eq.
    rewrite (rlit_cons "#" ("." +:+ d)).
    apply ropt_some. rewrite rgroup_eq. apply ralt_left. rewrite rseq_eq.
    rewrite (rlit_cons "." d), rplus_eq.
    pose proof (@plus_match_run captures digit d "") as Hrun.
    rewrite append_nil_r in Hrun. rewrite (Hrun _ _ H Hall eq_refl eq_refl).
    reflexivity.
  - cbn in Ha. apply andb_true_iff in Ha as [Hlen Hall].
    apply Nat.eqb_eq in Hlen.
    destruct (hex_head c) as (c0 & ct & Ec & Hc0);
      [now rewrite Hlen, Hall|].
    apply hexdigit_class in Hc0 as (Hdot & _).
    apply ropt_some. rewrite rgroup_eq, rseq_eq.
    rewrite (rlit_cons "#" c).
    apply ropt_some. rewrite rgroup_eq. rewrite ralt_right.
    + rewrite rrepeat_eq.
      pose proof (@repeat_match_run captures hexdigit c "") as Hrun.
      rewrite append_nil_r, Hlen in Hrun. rewrite Hrun by assumption.
      reflexivity.
    + apply rmatch_no_start; [|discriminate]. rewrite Ec. cbn.
      rewrite !orb_false_r. now apply Ascii.eqb_neq.
  - reflexivity.
Qed.

Lemma no_vertical_spec_fails p :
  well_formed p = true -> no_vertical p = false ->
  fullmatch 5 _NO_VERTICAL_SPEC (render p) = None.
Proof.
  intros Hp Hi.
  destruct (fullmatch 5 _NO_VERTICAL_SPEC (render p)) as [m|] eqn:Hm;
    [|reflexivity].
  apply fullmatch_sound, denotes_no_vertical_spec in Hm as (q & Hq & Hiq & Hr).
  apply render_inj in Hr; auto. congruence.
Qed.

(** *** The groups of a match *)

Lemma groups_of p :
  let m := captures_of p in
  group m 2 = (fun a => String a "") <$> p_h_align p
  /\ group m 3 = p_width p
  /\ group m 5 = match p_vertical p with
                 | Some (Some a, _) => Some (String a "")
                 | _ => None
                 end
  /\ group m 6 = match p_vertical p with
                 | Some (_, h) => h
                 | None => None
                 end
  /\ group m 7 = match p_alpha p with
                 | Some _ => Some (render_alpha (p_alpha p))
                 | None => None
                 end
  /\ group m 8 = p_alpha p ≫= alpha_inner
  /\ group m 10 = p_style p.
Proof.
  destruct p as [[a|] [w|] [[[v|] [h|]]|] [[|d|c|]|] [s|]];
    repeat split; reflexivity.
Qed.

(** *** The checks after the match *)

Lemma h_align_accepted a :
  cset_mem a h_aligns = true ->
  existsb (String.eqb (String a "")) ["<"; "|"; ">"] = true.
Proof. destruct a as [[] [] [] [] [] [] [] []]; vm_compute; auto. Qed.

Lemma v_align_accepted a :
  cset_mem a v_aligns = true ->
  existsb (String.eqb (String a "")) ["^"; "-"; "_"] = true.
Proof. destruct a as [[] [] [] [] [] [] [] []]; vm_compute; auto. Qed.

Lemma check_formatting_parts h w v ht :
  char_ok h_aligns h = true -> char_ok v_aligns v = true ->
  _check_formatting ((fun a => String a "") <$> h) w
    ((fun a => String a "") <$> v) ht
  = match padding_error Padding_width_not_positive w with
    | Some e => Raise e
    | None =>
        match padding_error Padding_height_not_positive ht with
        | Some e => Raise e
        | None =>
            Ok {| fmt_h_align := (fun a => String a "") <$> h; fmt_width := w;
                  fmt_v_align := (fun a => String a "") <$> v;
                  fmt_height := ht |}
        end
    end.
Proof.
  intros Hh Hv. unfold _check_formatting, padding_error.
  destruct h as [a|]; cbn [fmap option_fmap option_map char_ok] in *.
  1: rewrite (h_align_accepted a Hh).
  all: cbn [bind]; destruct w as [w|]; [destruct (w <=? 0); [reflexivity|]|];
    cbn [bind]; (destruct v as [b|]; cbn [fmap option_fmap option_map char_ok] in *;
    [rewrite (v_align_accepted b Hv)|]); cbn [bind];
    (destruct ht as [z|]; [destruct (z <=? 0)|]); reflexivity.
Qed.

Lemma lstrip_hash_other a s : a <> "#"%char -> lstrip_hash (String a s) = String a s.
Proof.
  destruct a as [[] [] [] [] [] [] [] []]; try reflexivity. congruence.
Qed.

Lemma alpha_of_groups_parts a :
  alpha_ok a = true ->
  alpha_of_groups
    match a with Some _ => Some (render_alpha a) | None => None end
    (a ≫= alpha_inner)
  = Ok (alpha_of_part a).
Proof.
  intros Ha. destruct a as [[|d|c|]|]; try reflexivity.
  - (* #.ddd *)
    cbn in Ha |- *. now rewrite Ha.
  - (* #RRGGBB *)
    destruct (hex_head c Ha) as (c0 & ct & Ec & Hc0).
    apply hexdigit_class in Hc0 as (_ & Hhash & _).
    cbn in Ha. apply andb_true_iff in Ha as [Hlen Hall].
    apply Nat.eqb_eq in Hlen.
    cbn [alpha_of_groups mbind option_bind alpha_inner alpha_of_part].
    replace (lstrip_hash c) with c
      by (rewrite Ec; symmetry; now apply lstrip_hash_other).
    replace (fullmatch 1 _ALPHA_BG_FORMAT (String "#" c))
      with (Some (<[0%nat := Some (String "#" c)]>
                    (<[1%nat := Some c]> (replicate 2 None)))); [reflexivity|].
    symmetry. unfold fullmatch, _ALPHA_BG_FORMAT.
    rewrite rseq_eq, rlit_cons. apply ropt_some. rewrite rgroup_eq, rrepeat_eq.
    pose proof (@repeat_match_run captures hexdigit c "") as Hrun.
    rewrite append_nil_r, Hlen in Hrun. rewrite Hrun by assumption.
    now rewrite consumed_nil.
Qed.

Lemma check_style_parts s :
  run_ok CDot s = true ->
  match s with
  | Some x => _check_style_format_spec x x
  | None => Ok []
  end
  = match s with
    | Some x => Raise (Invalid_style_specifier x None)
    | None => Ok []
    end.
Proof.
  destruct s as [x|]; [|reflexivity]. cbn. intros H.
  apply andb_true_iff in H as [Hne _]. unfold _check_style_format_spec.
  now rewrite Hne, String.eqb_refl.
Qed.

(** *** [_check_format_spec] on a well-formed specifier *)

Lemma and_int_parts o :
  and_int o
  = match too_many_digits o with
    | Some e => Raise e
    | None => Ok (decimal_value <$> o)
    end.
Proof.
  destruct o as [s|]; [|reflexivity]. unfold and_int, py_int, too_many_digits.
  now destruct (_ >? _).
Qed.

Lemma check_format_spec_parts p :
  well_formed p = true -> _check_format_spec (render p) = outcome_of p.
Proof.
  intros Hp. unfold _check_format_spec, outcome_of.
  rewrite (format_spec_matches p Hp).
  destruct (no_vertical p) eqn:Hi.
  - destruct (no_vertical_spec_matches p Hp Hi) as (m & ->). reflexivity.
  - rewrite (no_vertical_spec_fails p Hp Hi). cbv zeta.
    destruct (groups_of p) as (-> & -> & -> & -> & -> & -> & ->).
    apply well_formed_parts in Hp as (Hh & Hw & Hv & Ha & Hs).
    rewrite (alpha_of_groups_parts _ Ha), (check_style_parts _ Hs).
    rewrite !and_int_parts. fold (p_height p).
    destruct (too_many_digits (p_width p)); [reflexivity|]. cbn [bind].
    destruct (too_many_digits (p_height p)); [reflexivity|]. cbn [bind].
    assert (Hva : char_ok v_aligns
                    match p_vertical p with Some (a, _) => a | None => None end
                  = true).
    { destruct (p_vertical p) as [[a h]|]; [|reflexivity].
      cbn in Hv. now apply andb_true_iff in Hv as [Hv _]. }
    pose proof (check_formatting_parts (p_h_align p)
                  (decimal_value <$> p_width p) _
                  (decimal_value <$> p_height p)
                  Hh Hva) as Hf.
    replace ((fun a => String a "") <$>
               match p_vertical p with Some (a, _) => a | None => None end)
      with (match p_vertical p with
            | Some (Some a, _) => Some (String a "")
            | _ => None
            end) in Hf
      by (now destruct (p_vertical p) as [[[?|] ?]|]).
    rewrite Hf. unfold formatting_of. cbn [fmt_width fmt_height].
    replace (decimal_value <$> p_height p)
      with (match p_vertical p with
            | Some (_, Some h) => Some (decimal_value h)
            | _ => None
            end)
      by (unfold p_height; now destruct (p_vertical p) as [[? [?|]]|]).
    clear Hf.
    destruct (padding_error Padding_width_not_positive
                (decimal_value <$> p_width p)); [reflexivity|].
    match goal with
    | |- context [padding_error Padding_height_not_positive ?x] =>
        destruct (padding_error Padding_height_not_positive x); [reflexivity|]
    end.
    cbn [bind]. now destruct (p_style p).
Qed.


(** ** Format specifiers *)




(** ** More on sizes *)

Section SizeMore.
Context {style : RenderStyle}.
Variable get_terminal_size : Z * Z.

Lemma Size_in_swap s width height : Size_in s width height = Size_in s height width.
Proof. apply orb_comm. Qed.

Lemma dynamic_size_swap self width height columns lines max_width max_height :
  dynamic_size self width height columns lines max_width max_height
  = dynamic_size self height width columns lines max_width max_height.
Proof.
  unfold dynamic_size. now rewrite !(Size_in_swap _ width height).
Qed.

Lemma valid_size_enum_swap self s h_allow v_allow maxsize :
  _valid_size get_terminal_size self DNone (DSize s) h_allow v_allow maxsize
  = _valid_size get_terminal_size self (DSize s) DNone h_allow v_allow maxsize.
Proof.
  unfold _valid_size.
  destruct (available get_terminal_size h_allow v_allow maxsize) as [columns lines].
  simpl. now rewrite dynamic_size_swap.
Qed.

(** X1: [rendered_size] is the pair of [rendered_width] and
    [rendered_height], whatever the image: the same values, and the same
    exception when one is raised. *)
Theorem rendered_size_is_width_and_height self :
  rendered_size get_terminal_size self
  = (w <- rendered_width get_terminal_size self ;;
     h <- rendered_height get_terminal_size self ;;
     Ok (w, h)).
Proof.
  unfold rendered_size, rendered_width, rendered_height.
  destruct (_size self) as [s|size].
  - rewrite valid_size_enum_swap.
    destruct (int_pair (_valid_size _ _ _ _ _ _ _)) as [size|e]; simpl;
      [|reflexivity].
    now destruct (scaled (fst size) _).
  - simpl. now destruct (scaled (fst size) _).
Qed.

Lemma check_dimension_int argname z :
  check_dimension argname (DInt z) = Ok tt -> 0 < z.
Proof.
  simpl. destruct (z <=? 0) eqn:H; [discriminate|].
  intros _. now apply Z.leb_gt in H.
Qed.

Lemma check_maxsize_tuple c l m :
  check_maxsize (MTuple [AInt c; AInt l]) = Ok m ->
  m = Some (c, l) /\ 0 < c /\ 0 < l.
Proof.
  simpl. destruct ((0 <? c) && (0 <? l)) eqn:H; [|discriminate].
  intros [= <-]. apply andb_true_iff in H as [Hc Hl].
  apply Z.ltb_lt in Hc, Hl. auto.
Qed.

Lemma valid_size_int self width height h_allow v_allow maxsize size :
  positive_if_int width -> positive_if_int height ->
  is_None width || is_None height = true ->
  is_int width || is_int height = true ->
  int_pair (_valid_size get_terminal_size self width height h_allow v_allow maxsize)
  = Ok size ->
  (forall w, width = DInt w -> fst size = w)
  /\ (forall h, height = DInt h -> snd size = h)
  /\ (forall m, maxsize = Some m -> 0 < fst m -> 0 < snd m ->
                fst size <= fst m /\ snd size <= snd m).
Proof.
  intros Hw Hh Hnone Hint. unfold int_pair, _valid_size.
  destruct (available get_terminal_size h_allow v_allow maxsize)
    as [columns lines] eqn:Ha.
  replace (negb (is_int width) && negb (is_int height)) with false
    by (destruct (is_int width), (is_int height); simpl in *; congruence).
  assert (Hor : forall z, 0 < z -> or_1 z = z).
  { intros z Hz. unfold or_1. destruct (z =? 0) eqn:E; lia. }
  assert (Hle : forall z b, 0 < b -> z <= b -> or_1 z <= b).
  { intros z b Hb Hz. unfold or_1. destruct (z =? 0); lia. }
  assert (Hf : exists w h,
             (fixed_size self width height = Ok (DInt w, DInt h)
              /\ (forall z, width = DInt z -> w = z /\ 0 < z)
              /\ (forall z, height = DInt z -> h = z /\ 0 < z))
             \/ exists e, fixed_size self width height = Raise e).
  { destruct width as [|w|s|t], height as [|h|s'|t']; simpl in *;
      try discriminate.
    - destruct (_width_height_px_h _ _) as [x|e]; simpl; [|exists 0, 0; eauto].
      destruct (float_truediv _ _) as [q|e]; simpl; [|exists 0, 0; eauto].
      destruct (round_float _) as [wp|e]; simpl; [|exists 0, 0; eauto].
      eexists _, h. left. split; [reflexivity|].
      split; [discriminate|]. now intros z [= <-].
    - destruct (_width_height_px_w _ _) as [x|e]; simpl; [|exists 0, 0; eauto].
      destruct (round_float _) as [hp|e]; simpl; [|exists 0, 0; eauto].
      eexists w, _. left. split; [reflexivity|].
      split; [now intros z [= <-]|discriminate]. }
  destruct Hf as (w & h & [(-> & Hfw & Hfh)|[e ->]]); [|discriminate].
  cbn [bind]. destruct maxsize as [m|].
  - simpl in Ha. subst m. unfold exceeds_maxsize. cbn [dim_gt bind].
    destruct (w >? columns) eqn:H1; [discriminate|].
    destruct (h >? lines) eqn:H2; [discriminate|].
    cbn [bind dim_or_1]. intros [= <-]. simpl. split; [|split].
    + intros z Hz. destruct (Hfw z Hz) as [-> Hp]. now apply Hor.
    + intros z Hz. destruct (Hfh z Hz) as [-> Hp]. now apply Hor.
    + intros m [= <-]. simpl. intros Hc Hl. split; apply Hle; lia.
  - cbn [bind dim_or_1]. intros [= <-]. simpl. split; [|split].
    + intros z Hz. destruct (Hfw z Hz) as [-> Hp]. now apply Hor.
    + intros z Hz. destruct (Hfh z Hz) as [-> Hp]. now apply Hor.
    + discriminate.
Qed.

(** X2: when [set_size] succeeds with an [int] for the width or the
    height, the size it stores has exactly that width (or height), and, when
    [maxsize] is given as well, neither side of the stored size exceeds it. *)
Theorem set_size_keeps_the_given_dimension
    self width height h_allow v_allow maxsize self' :
  is_int width || is_int height = true ->
  set_size get_terminal_size self width height h_allow v_allow maxsize
  = (self', Ok tt) ->
  exists size,
    _size self' = Fixed size
    /\ (forall w, width = DInt w -> fst size = w)
    /\ (forall h, height = DInt h -> snd size = h)
    /\ (forall c l, maxsize = MTuple [AInt c; AInt l] ->
                    fst size <= c /\ snd size <= l).
Proof.
  intros Hint. unfold set_size.
  destruct (negb (is_None width) && negb (is_None height)) eqn:Hnone;
    [intros [=]|].
  destruct (check_dimension "width" width) as [[]|e] eqn:Hw; simpl; [|intros [=]].
  destruct (check_dimension "height" height) as [[]|e] eqn:Hh; simpl; [|intros [=]].
  destruct (check_allowance "h_allow" h_allow) as [h|e]; simpl; [|intros [=]].
  destruct (check_allowance "v_allow" v_allow) as [v|e]; simpl; [|intros [=]].
  destruct (check_maxsize maxsize) as [m|e] eqn:Hm; simpl; [|intros [=]].
  destruct (int_pair (_valid_size _ _ _ _ _ _ _)) as [size|e] eqn:Hs; simpl;
    [|intros [=]].
  intros [= <-]. exists size. split; [reflexivity|].
  assert (Hn : is_None width || is_None height = true)
    by (destruct (is_None width), (is_None height); auto; discriminate).
  destruct (valid_size_int self width height _ _ _ size
              (check_dimension_positive _ _ Hw) (check_dimension_positive _ _ Hh)
              Hn Hint Hs) as (H1 & H2 & H3).
  split; [exact H1|]. split; [exact H2|].
  intros c l ->. apply check_maxsize_tuple in Hm as (-> & Hc & Hl).
  now apply (H3 (c, l)).
Qed.

(** X3: with [FIT_TO_WIDTH] the vertical allowance is nullified: [set_size]
    does the same, to the image and to the caller, whatever valid vertical
    allowance it is given, and the allowance it stores is 0. *)
Theorem fit_to_width_nullifies_v_allow
    self width height h_allow v v' maxsize :
  Size_in FIT_TO_WIDTH width height = true -> 0 <= v -> 0 <= v' ->
  set_size get_terminal_size self width height h_allow (AInt v) maxsize
  = set_size get_terminal_size self width height h_allow (AInt v') maxsize
  /\ (forall self',
        set_size get_terminal_size self width height h_allow (AInt v) maxsize
        = (self', Ok tt) ->
        _v_allow self' = 0 /\ _fit_to_width self' = true).
Proof.
  intros Hf Hv Hv'. unfold set_size. rewrite Hf.
  destruct (negb (is_None width) && negb (is_None height)).
  { split; [reflexivity|]. intros self' [=]. }
  destruct (check_dimension "width" width) as [[]|e]; simpl.
  2: { split; [reflexivity|]. intros self' [=]. }
  destruct (check_dimension "height" height) as [[]|e]; simpl.
  2: { split; [reflexivity|]. intros self' [=]. }
  destruct (check_allowance "h_allow" h_allow) as [h|e]; simpl.
  2: { split; [reflexivity|]. intros self' [=]. }
  replace (v <? 0) with false by lia. replace (v' <? 0) with false by lia.
  simpl.
  destruct (check_maxsize maxsize) as [m|e]; simpl.
  2: { split; [reflexivity|]. intros self' [=]. }
  destruct (int_pair (_valid_size _ _ _ _ _ _ _)) as [size|e]; simpl.
  2: { split; [reflexivity|]. intros self' [=]. }
  split; [reflexivity|]. intros self' [= <-]. now split.
Qed.

End SizeMore.

Lemma set_size_keeps_the_given_dimension_witness :
  exists size,
    _size (fst (set_size (style := graphics_1x2) (80, 24) image_2x1 (DInt 4) DNone
                  (AInt 0) (AInt 2) (MTuple [AInt 10; AInt 5])))
    = Fixed size
    /\ fst size = 4 /\ fst size <= 10 /\ snd size <= 5.
Proof.
  destruct (set_size_keeps_the_given_dimension (style := graphics_1x2) (80, 24)
              image_2x1 (DInt 4) DNone (AInt 0) (AInt 2)
              (MTuple [AInt 10; AInt 5])
              (fst (set_size (style := graphics_1x2) (80, 24) image_2x1 (DInt 4)
                      DNone (AInt 0) (AInt 2) (MTuple [AInt 10; AInt 5])))
              eq_refl eq_refl) as (size & Hs & Hw & _ & Hm).
  exists size. split; [exact Hs|]. split; [now apply Hw|].
  now apply Hm.
Defined.

Lemma fit_to_width_nullifies_v_allow_witness :
  set_size (style := graphics_1x2) (80, 24) image_2x1 (DSize FIT_TO_WIDTH) DNone
    (AInt 0) (AInt 2) MNone
  = set_size (style := graphics_1x2) (80, 24) image_2x1 (DSize FIT_TO_WIDTH) DNone
      (AInt 0) (AInt 30) MNone.
Proof.
  apply (proj1 (fit_to_width_nullifies_v_allow (style := graphics_1x2) (80, 24)
                  image_2x1 (DSize FIT_TO_WIDTH) DNone (AInt 0) 2 30 MNone
                  eq_refl ltac:(lia) ltac:(lia))).
Defined.

(** ** Graphics-based styles: cells and pixels *)

(** X4: for cells of a positive size, converting columns (or lines) to
    pixels and back gives the columns (or lines) again, and converting
    pixels to columns (or lines) and back loses less than one cell. *)
Theorem graphics_cells_and_pixels cell_size :
  0 < fst cell_size -> 0 < snd cell_size ->
  (forall c, _pixels_cols (RenderStyle := GraphicsImage cell_size)
               (Pixels (_pixels_cols (RenderStyle := GraphicsImage cell_size)
                          (Cells c))) = c)
  /\ (forall l, _pixels_lines (RenderStyle := GraphicsImage cell_size)
                  (Pixels (_pixels_lines (RenderStyle := GraphicsImage cell_size)
                             (Cells l))) = l)
  /\ (forall p,
        let back := _pixels_cols (RenderStyle := GraphicsImage cell_size)
                      (Cells (_pixels_cols (RenderStyle := GraphicsImage cell_size)
                                (Pixels p))) in
        back <= p < back + fst cell_size)
  /\ (forall p,
        let back := _pixels_lines (RenderStyle := GraphicsImage cell_size)
                      (Cells (_pixels_lines (RenderStyle := GraphicsImage cell_size)
                                (Pixels p))) in
        back <= p < back + snd cell_size).
Proof.
  intros Hw Hh. simpl. split; [|split; [|split]].
  - intros c. apply Z.div_mul. lia.
  - intros l. apply Z.div_mul. lia.
  - intros p. pose proof (Z.div_mod p (fst cell_size) ltac:(lia)).
    pose proof (Z.mod_pos_bound p (fst cell_size) Hw). lia.
  - intros p. pose proof (Z.div_mod p (snd cell_size) ltac:(lia)).
    pose proof (Z.mod_pos_bound p (snd cell_size) Hh). lia.
Qed.

Lemma graphics_cells_and_pixels_witness :
  _pixels_cols (RenderStyle := graphics_1x2) (Pixels (_pixels_cols (RenderStyle := graphics_1x2) (Cells 80))) = 80
  /\ _pixels_lines (RenderStyle := graphics_1x2) (Pixels (_pixels_lines (RenderStyle := graphics_1x2) (Cells 24))) = 24.
Proof.
  destruct (graphics_cells_and_pixels (1, 2) ltac:(simpl; lia) ltac:(simpl; lia))
    as (Hc & Hl & _).
  split; [apply (Hc 80)|apply (Hl 24)].
Defined.

(** X5: on a graphics-based style, a size resolved with [FIT_TO_WIDTH] is
    as wide as the available space. *)
Theorem fit_to_width_fills_the_width
    cell_size get_terminal_size self width height h_allow v_allow maxsize size :
  0 < fst cell_size ->
  is_int width = false -> is_int height = false ->
  Size_in AUTO width height = false ->
  Size_in FIT_TO_WIDTH width height = true ->
  _valid_size (style := GraphicsImage cell_size) get_terminal_size self
    width height h_allow v_allow maxsize = Ok size ->
  fst size = DInt (fst (available get_terminal_size h_allow v_allow maxsize)).
Proof.
  intros Hw Hiw Hih Hauto Hf. unfold _valid_size.
  destruct (available get_terminal_size h_allow v_allow maxsize)
    as [columns lines].
  rewrite Hiw, Hih. simpl andb. cbv iota.
  unfold dynamic_size. rewrite Hauto, Hf. unfold check_available.
  destruct (columns <=? 0) eqn:Hc; [discriminate|].
  destruct (lines <=? 0); [discriminate|]. simpl bind.
  unfold fit_to_width_size.
  destruct (_width_height_px_w _ _); [|discriminate]. simpl bind.
  destruct (round_float _); [|discriminate]. simpl bind.
  intros [= <-]. simpl. f_equal. rewrite Z.div_mul by lia.
  unfold or_1. destruct (columns =? 0) eqn:E; lia.
Qed.

Lemma fit_to_width_fills_the_width_witness :
  _valid_size (style := GraphicsImage (1, 2)) (80, 24) image_2x1
    (DSize FIT_TO_WIDTH) DNone 0 0 None = Ok (DInt 80, DInt 20)
  /\ fst (DInt 80, DInt 20) = DInt (fst (available (80, 24) 0 0 None)).
Proof.
  split; [reflexivity|].
  apply (fit_to_width_fills_the_width (1, 2) (80, 24) image_2x1
           (DSize FIT_TO_WIDTH) DNone 0 0 None (DInt 80, DInt 20));
    try reflexivity; simpl; lia.
Defined.

(** ** More on format specifiers *)

Lemma existsb_eqb_In a l : existsb (String.eqb a) l = true -> In a l.
Proof.
  intros H. apply existsb_exists in H as (x & Hx & Heq).
  apply String.eqb_eq in Heq. now subst.
Qed.

Lemma In_existsb_eqb a l : In a l -> existsb (String.eqb a) l = true.
Proof.
  intros H. apply existsb_exists. exists a. split; [exact H|apply String.eqb_refl].
Qed.

Lemma check_formatting_fixed h w v ht fmt :
  _check_formatting h w v ht = Ok fmt ->
  (forall a, fmt_h_align fmt = Some a -> In a ["<"; "|"; ">"])
  /\ (forall a, fmt_v_align fmt = Some a -> In a ["^"; "-"; "_"])
  /\ fmt_width fmt = w /\ fmt_height fmt = ht
  /\ (forall z, w = Some z -> 0 < z) /\ (forall z, ht = Some z -> 0 < z)
  /\ (h = None <-> fmt_h_align fmt = None)
  /\ (v = None <-> fmt_v_align fmt = None)
  /\ _check_formatting (fmt_h_align fmt) (fmt_width fmt)
       (fmt_v_align fmt) (fmt_height fmt) = Ok fmt.
Proof.
  unfold _check_formatting.
  set (H := match h with
            | None => Ok None
            | Some a =>
                if existsb (String.eqb a) ["<"; "|"; ">"] then Ok (Some a)
                else if String.eqb a "left" then Ok (Some "<")
                else if String.eqb a "center" then Ok (Some "|")
                else if String.eqb a "right" then Ok (Some ">")
                else Raise (Invalid_h_align a)
            end).
  destruct H as [h'|e] eqn:Hh; subst H; [|discriminate]. cbn [bind].
  destruct (match w with
            | Some w0 => if w0 <=? 0 then Raise (Padding_width_not_positive w0) else Ok tt
            | None => Ok tt
            end) as [[]|e] eqn:Hw; [|discriminate]. cbn [bind].
  set (V := match v with
            | None => Ok None
            | Some a =>
                if existsb (String.eqb a) ["^"; "-"; "_"] then Ok (Some a)
                else if String.eqb a "top" then Ok (Some "^")
                else if String.eqb a "middle" then Ok (Some "-")
                else if String.eqb a "bottom" then Ok (Some "_")
                else Raise (Invalid_v_align a)
            end).
  destruct V as [v'|e] eqn:Hv; subst V; [|discriminate]. cbn [bind].
  destruct (match ht with
            | Some h0 => if h0 <=? 0 then Raise (Padding_height_not_positive h0) else Ok tt
            | None => Ok tt
            end) as [[]|e] eqn:Hht; [|discriminate]. cbn [bind].
  intros [= <-]. cbn [fmt_h_align fmt_v_align fmt_width fmt_height].
  assert (Hh' : (forall a, h' = Some a -> In a ["<"; "|"; ">"])
                /\ (h = None <-> h' = None)).
  { destruct h as [a|].
    - destruct (existsb (String.eqb a) ["<"; "|"; ">"]) eqn:E.
      + injection Hh as <-. split; [|split; discriminate].
        intros b [= <-]. now apply existsb_eqb_In.
      + destruct (String.eqb a "left");
          [injection Hh as <-; split; [intros b [= <-]; simpl; auto|split; discriminate]|].
        destruct (String.eqb a "center");
          [injection Hh as <-; split; [intros b [= <-]; simpl; auto|split; discriminate]|].
        destruct (String.eqb a "right");
          [injection Hh as <-; split; [intros b [= <-]; simpl; auto|split; discriminate]|].
        discriminate.
    - injection Hh as <-. split; [discriminate|tauto]. }
  assert (Hv' : (forall a, v' = Some a -> In a ["^"; "-"; "_"])
                /\ (v = None <-> v' = None)).
  { destruct v as [a|].
    - destruct (existsb (String.eqb a) ["^"; "-"; "_"]) eqn:E.
      + injection Hv as <-. split; [|split; discriminate].
        intros b [= <-]. now apply existsb_eqb_In.
      + destruct (String.eqb a "top");
          [injection Hv as <-; split; [intros b [= <-]; simpl; auto|split; discriminate]|].
        destruct (String.eqb a "middle");
          [injection Hv as <-; split; [intros b [= <-]; simpl; auto|split; discriminate]|].
        destruct (String.eqb a "bottom");
          [injection Hv as <-; split; [intros b [= <-]; simpl; auto|split; discriminate]|].
        discriminate.
    - injection Hv as <-. split; [discriminate|tauto]. }
  destruct Hh' as [Hh1 Hh2], Hv' as [Hv1 Hv2].
  split; [exact Hh1|]. split; [exact Hv1|]. split; [reflexivity|].
  split; [reflexivity|].
  split. { intros z ->. destruct (z <=? 0) eqn:E; [discriminate|]. now apply Z.leb_gt. }
  split. { intros z ->. destruct (z <=? 0) eqn:E; [discriminate|]. now apply Z.leb_gt. }
  split; [exact Hh2|]. split; [exact Hv2|].
  rewrite Hw, Hht.
  replace (match h' with
           | Some a =>
               if existsb (String.eqb a) ["<"; "|"; ">"] then Ok (Some a)
               else if String.eqb a "left" then Ok (Some "<")
               else if String.eqb a "center" then Ok (Some "|")
               else if String.eqb a "right" then Ok (Some ">")
               else Raise (Invalid_h_align a)
           | None => Ok None
           end) with (@Ok (option string) h').
  2: { destruct h' as [a|]; [|reflexivity].
       now rewrite (In_existsb_eqb a _ (Hh1 a eq_refl)). }
  replace (match v' with
           | Some a =>
               if existsb (String.eqb a) ["^"; "-"; "_"] then Ok (Some a)
               else if String.eqb a "top" then Ok (Some "^")
               else if String.eqb a "middle" then Ok (Some "-")
               else if String.eqb a "bottom" then Ok (Some "_")
               else Raise (Invalid_v_align a)
           | None => Ok None
           end) with (@Ok (option string) v').
  2: { destruct v' as [a|]; [|reflexivity].
       now rewrite (In_existsb_eqb a _ (Hv1 a eq_refl)). }
  reflexivity.
Qed.

(** X6: what [_check_formatting] returns is in normal form: the alignments
    are the symbols of their sets (the words [left], [center], [right] and
    [top], [middle], [bottom] translated), present exactly when given; the
    paddings are those given, and positive; and checking the returned
    values again returns them unchanged. *)
Theorem check_formatting_normalises h w v ht fmt :
  _check_formatting h w v ht = Ok fmt ->
  (forall a, fmt_h_align fmt = Some a -> In a ["<"; "|"; ">"])
  /\ (forall a, fmt_v_align fmt = Some a -> In a ["^"; "-"; "_"])
  /\ fmt_width fmt = w /\ fmt_height fmt = ht
  /\ (forall z, w = Some z -> 0 < z) /\ (forall z, ht = Some z -> 0 < z)
  /\ (h = None <-> fmt_h_align fmt = None)
  /\ (v = None <-> fmt_v_align fmt = None)
  /\ _check_formatting (fmt_h_align fmt) (fmt_width fmt)
       (fmt_v_align fmt) (fmt_height fmt) = Ok fmt.
Proof. apply check_formatting_fixed. Qed.

Lemma check_formatting_normalises_witness :
  _check_formatting (Some "center") (Some 10) (Some "top") None
  = Ok {| fmt_h_align := Some "|"; fmt_width := Some 10;
          fmt_v_align := Some "^"; fmt_height := None |}
  /\ _check_formatting (Some "|") (Some 10) (Some "^") None
     = Ok {| fmt_h_align := Some "|"; fmt_width := Some 10;
             fmt_v_align := Some "^"; fmt_height := None |}.
Proof.
  split; [reflexivity|].
  apply (check_formatting_normalises (Some "center") (Some 10) (Some "top") None
           {| fmt_h_align := Some "|"; fmt_width := Some 10;
              fmt_v_align := Some "^"; fmt_height := None |} eq_refl).
Defined.

Lemma alpha_of_groups_bg a t c :
  alpha_of_groups a t = Ok (Alpha_bg c) -> fullmatch 1 _ALPHA_BG_FORMAT c <> None.
Proof.
  unfold alpha_of_groups. destruct a as [a|]; [|discriminate].
  destruct t as [t|]; [|discriminate].
  destruct (fullmatch 1 _ALPHA_BG_FORMAT (String "#" (lstrip_hash t))) eqn:E.
  - intros [= <-]. now rewrite E.
  - destruct (float_of_fraction t); discriminate.
Qed.

(** X7: whatever [_check_format_spec] accepts has been validated: the
    formatting it returns passes [_check_formatting] unchanged (symbols for
    the alignments, positive paddings), a background colour it returns
    matches [_ALPHA_BG_FORMAT], and there are no style-specific arguments. *)
Theorem accepted_specifier_is_validated spec fmt alpha style_args :
  _check_format_spec spec = Ok (fmt, alpha, style_args) ->
  _check_formatting (fmt_h_align fmt) (fmt_width fmt)
    (fmt_v_align fmt) (fmt_height fmt) = Ok fmt
  /\ (forall a, fmt_h_align fmt = Some a -> In a ["<"; "|"; ">"])
  /\ (forall a, fmt_v_align fmt = Some a -> In a ["^"; "-"; "_"])
  /\ (forall z, fmt_width fmt = Some z -> 0 < z)
  /\ (forall z, fmt_height fmt = Some z -> 0 < z)
  /\ (forall c, alpha = Alpha_bg c -> fullmatch 1 _ALPHA_BG_FORMAT c <> None)
  /\ style_args = [].
Proof.
  unfold _check_format_spec.
  destruct (fullmatch 10 _FORMAT_SPEC spec) as [m|]; [|discriminate].
  destruct (fullmatch 5 _NO_VERTICAL_SPEC spec); [discriminate|]. cbv zeta.
  destruct (and_int (group m 3)) as [w|e]; [|discriminate]. cbn [bind].
  destruct (and_int (group m 6)) as [ht|e]; [|discriminate]. cbn [bind].
  destruct (_check_formatting _ _ _ _) as [fmt0|e] eqn:Hf; [|discriminate].
  cbn [bind].
  destruct (alpha_of_groups _ _) as [alpha0|e] eqn:Ha; [|discriminate].
  cbn [bind].
  destruct (match group m 10 with
            | Some s => _check_style_format_spec s s
            | None => Ok []
            end) as [st|e] eqn:Hs; [|discriminate].
  cbn [bind]. intros [= <- <- <-].
  destruct (check_formatting_fixed _ _ _ _ _ Hf)
    as (H1 & H2 & H3 & H4 & H5 & H6 & _ & _ & H9).
  split; [exact H9|]. split; [exact H1|]. split; [exact H2|].
  split; [intros z Hz; apply H5; congruence|].
  split; [intros z Hz; apply H6; congruence|].
  split.
  - intros c ->. eapply alpha_of_groups_bg; eauto.
  - destruct (group m 10) as [s|]; [|congruence].
    unfold _check_style_format_spec in Hs.
    destruct (negb (String.eqb s "")); congruence.
Qed.

Lemma accepted_specifier_is_validated_witness :
  _check_format_spec "<7#00ff7f"
  = Ok ({| fmt_h_align := Some "<"; fmt_width := Some 7;
           fmt_v_align := None; fmt_height := None |},
        Alpha_bg "#00ff7f", [])
  /\ fullmatch 1 _ALPHA_BG_FORMAT "#00ff7f" <> None.
Proof.
  assert (H : _check_format_spec "<7#00ff7f"
              = Ok ({| fmt_h_align := Some "<"; fmt_width := Some 7;
                       fmt_v_align := None; fmt_height := None |},
                    Alpha_bg "#00ff7f", [])) by (vm_compute; reflexivity).
  split; [exact H|].
  now apply (accepted_specifier_is_validated _ _ _ _ H).
Defined.

Lemma padding_error_inv mk o e :
  padding_error mk o = Some e -> exists z, z <= 0 /\ e = mk z.
Proof.
  unfold padding_error. destruct o as [z|]; [|discriminate].
  destruct (z <=? 0) eqn:E; [|discriminate].
  intros [= <-]. exists z. split; [now apply Z.leb_le|reflexivity].
Qed.

Lemma too_many_digits_inv o e :
  too_many_digits o = Some e ->
  exists digits, int_max_str_digits < Z.of_nat digits
                 /\ e = Int_too_many_digits digits.
Proof.
  unfold too_many_digits. destruct o as [s|]; [|discriminate].
  destruct (_ >? _) eqn:E; [|discriminate].
  intros [= <-]. exists (String.length s). split; [lia|reflexivity].
Qed.

(** X8: [_check_format_spec] fails in four ways only: with the
    [ValueError] that quotes the whole specifier; with the [ValueError] of
    [int] for a padding of more digits than it converts; with the
    [ValueError] of a padding width or height that is not positive, which
    quotes the number; or with the style error that quotes what follows a
    [+] of the specifier.  It raises no [TypeError]. *)
Theorem format_spec_errors spec e :
  _check_format_spec spec = Raise e ->
  e = Invalid_format_specifier spec
  \/ (exists digits, int_max_str_digits < Z.of_nat digits
                     /\ e = Int_too_many_digits digits)
  \/ (exists z, z <= 0 /\ (e = Padding_width_not_positive z
                           \/ e = Padding_height_not_positive z))
  \/ (exists before s, spec = before +:+ "+" +:+ s /\ s <> ""
                       /\ e = Invalid_style_specifier s None).
Proof.
  destruct (fullmatch 10 _FORMAT_SPEC spec) as [m|] eqn:Hm.
  2: { unfold _check_format_spec. rewrite Hm. intros [= <-]. now left. }
  apply fullmatch_sound, denotes_format_spec in Hm as (p & Hp & ->).
  rewrite (check_format_spec_parts p Hp). unfold outcome_of.
  destruct (no_vertical p); [intros [= <-]; now left|].
  destruct (too_many_digits (p_width p)) as [e0|] eqn:Hd1.
  { intros [= <-]. apply too_many_digits_inv in Hd1. right; left. exact Hd1. }
  destruct (too_many_digits (p_height p)) as [e0|] eqn:Hd2.
  { intros [= <-]. apply too_many_digits_inv in Hd2. right; left. exact Hd2. }
  cbv zeta.
  destruct (padding_error Padding_width_not_positive _) as [e1|] eqn:Hw.
  { intros [= <-]. apply padding_error_inv in Hw as (z & Hz & ->).
    right; right; left. eauto. }
  destruct (padding_error Padding_height_not_positive _) as [e2|] eqn:Hh.
  { intros [= <-]. apply padding_error_inv in Hh as (z & Hz & ->).
    right; right; left. eauto. }
  destruct (p_style p) as [s|] eqn:Hs; [|discriminate].
  intros [= <-]. right; right; right.
  exists (render_horizontal (p_h_align p) (p_width p)
          +:+ render_vertical (p_vertical p) +:+ render_alpha (p_alpha p)), s.
  apply well_formed_parts in Hp as (_ & _ & _ & _ & Hst).
  rewrite Hs in Hst. cbn in Hst. apply andb_true_iff in Hst as [Hne _].
  split; [|split; [intros ->; discriminate|reflexivity]].
  unfold render. rewrite Hs. cbn [render_style].
  now rewrite !append_assoc.
Qed.

Lemma format_spec_errors_witness :
  _check_format_spec "<0+x" = Raise (Padding_width_not_positive 0)
  /\ (Padding_width_not_positive 0 = Invalid_format_specifier "<0+x"
      \/ (exists digits, int_max_str_digits < Z.of_nat digits
             /\ Padding_width_not_positive 0 = Int_too_many_digits digits)
      \/ (exists z, z <= 0 /\ (Padding_width_not_positive 0
                                = Padding_width_not_positive z
                                \/ Padding_width_not_positive 0
                                   = Padding_height_not_positive z))
      \/ (exists before s, "<0+x" = before +:+ "+" +:+ s /\ s <> ""
            /\ Padding_width_not_positive 0 = Invalid_style_specifier s None)).
Proof.
  assert (H : _check_format_spec "<0+x" = Raise (Padding_width_not_positive 0))
    by (vm_compute; reflexivity).
  split; [exact H|]. exact (format_spec_errors _ _ H).
Defined.

(** ** Formatting a render *)

Lemma length_repeat_string_space n :
  String.length (repeat_string " " n) = n.
Proof. induction n as [|n IH]; simpl; [reflexivity|now rewrite IH]. Qed.

Lemma length_spaces z : Z.of_nat (String.length (spaces z)) = Z.max 0 z.
Proof. unfold spaces, str_mul. rewrite length_repeat_string_space. lia. Qed.

Lemma spaces_0 z : z <= 0 -> spaces z = "".
Proof.
  intros Hz. unfold spaces, str_mul.
  replace (Z.to_nat z) with 0%nat by lia. reflexivity.
Qed.

(** [replace] leaves a row as it is. *)
Lemma replace_newline_row new r s :
  one_line r = true ->
  replace_newline new (r +:+ s) = r +:+ replace_newline new s.
Proof.
  induction r as [|c r IH]; simpl; [reflexivity|].
  intros H. apply andb_true_iff in H as [Hc Hr].
  apply negb_true_iff in Hc. rewrite Hc. now rewrite IH.
Qed.

Lemma replace_newline_one_line new r :
  one_line r = true -> replace_newline new r = r.
Proof.
  intros H. rewrite <- (append_nil_r r) at 1.
  rewrite replace_newline_row by assumption. simpl. apply append_nil_r.
Qed.

Lemma replace_newline_join new rows :
  forallb one_line rows = true ->
  replace_newline new (join_lines rows) = join_with new rows.
Proof.
  induction rows as [|r [|r' rest] IH]; intros H.
  - reflexivity.
  - simpl in H. apply andb_true_iff in H as [Hr _].
    now apply replace_newline_one_line.
  - change (forallb one_line (r :: r' :: rest))
      with (one_line r && forallb one_line (r' :: rest)) in H.
    apply andb_true_iff in H as [Hr Hrest].
    change (join_lines (r :: r' :: rest))
      with (r +:+ String newline (join_lines (r' :: rest))).
    rewrite replace_newline_row by assumption.
    change (replace_newline new (String newline (join_lines (r' :: rest))))
      with (new +:+ replace_newline new (join_lines (r' :: rest))).
    now rewrite IH.
Qed.

Lemma pad_rows lpad rpad rows :
  rows <> [] ->
  lpad +:+ join_with (rpad +:+ String newline "" +:+ lpad) rows +:+ rpad
  = join_lines (map (fun r => lpad +:+ r +:+ rpad) rows).
Proof.
  induction rows as [|r [|r' rest] IH]; intros H; [congruence|reflexivity|].
  change (join_with (rpad +:+ String newline "" +:+ lpad) (r :: r' :: rest))
    with (r +:+ (rpad +:+ String newline "" +:+ lpad)
          +:+ join_with (rpad +:+ String newline "" +:+ lpad) (r' :: rest)).
  change (map (fun x => lpad +:+ x +:+ rpad) (r :: r' :: rest))
    with ((lpad +:+ r +:+ rpad)
          :: map (fun x => lpad +:+ x +:+ rpad) (r' :: rest)).
  change (join_lines ((lpad +:+ r +:+ rpad)
                      :: map (fun x => lpad +:+ x +:+ rpad) (r' :: rest)))
    with ((lpad +:+ r +:+ rpad)
          +:+ String newline
                (join_lines (map (fun x => lpad +:+ x +:+ rpad) (r' :: rest)))).
  rewrite <- IH by discriminate.
  rewrite !append_assoc. reflexivity.
Qed.

Lemma rows_above sp n rows :
  rows <> [] ->
  repeat_string (sp +:+ String newline "") n +:+ join_lines rows
  = join_lines (replicate n sp ++ rows).
Proof.
  intros H. induction n as [|n IH]; [reflexivity|].
  cbn [repeat_string replicate app]. rewrite append_assoc, IH.
  destruct (replicate n sp ++ rows) as [|x xs] eqn:E.
  - apply app_eq_nil in E as [_ E]. congruence.
  - cbn [join_lines]. now rewrite append_assoc.
Qed.

Lemma row_and_below sp n : forall x,
  x +:+ repeat_string (String newline "" +:+ sp) n
  = join_lines (x :: replicate n sp).
Proof.
  induction n as [|n IH]; intros x.
  - simpl. apply append_nil_r.
  - cbn [repeat_string replicate]. rewrite append_assoc.
    change (String newline "" +:+ sp +:+ repeat_string (String newline "" +:+ sp) n)
      with (String newline (sp +:+ repeat_string (String newline "" +:+ sp) n)).
    now rewrite IH.
Qed.

Lemma rows_below sp n rows :
  rows <> [] ->
  join_lines rows +:+ repeat_string (String newline "" +:+ sp) n
  = join_lines (rows ++ replicate n sp).
Proof.
  induction rows as [|r [|r' rest] IH]; intros H; [congruence| |].
  - apply row_and_below.
  - change (join_lines (r :: r' :: rest))
      with (r +:+ String newline (join_lines (r' :: rest))).
    change ((r :: r' :: rest) ++ replicate n sp)
      with (r :: ((r' :: rest) ++ replicate n sp)).
    change (join_lines (r :: (r' :: rest) ++ replicate n sp))
      with (r +:+ String newline (join_lines ((r' :: rest) ++ replicate n sp))).
    rewrite <- IH by discriminate.
    now rewrite append_assoc.
Qed.

(** The five pieces of a formatted render are its rows. *)
Lemma assemble_rows sp (t b : nat) lpad rpad rows :
  rows <> [] -> forallb one_line rows = true ->
  repeat_string (sp +:+ String newline "") t
  +:+ lpad
  +:+ replace_newline (rpad +:+ String newline "" +:+ lpad) (join_lines rows)
  +:+ rpad
  +:+ repeat_string (String newline "" +:+ sp) b
  = join_lines (replicate t sp ++ map (fun r => lpad +:+ r +:+ rpad) rows
                ++ replicate b sp).
Proof.
  intros Hne Hrows. rewrite replace_newline_join by assumption.
  assert (Hm : map (fun r => lpad +:+ r +:+ rpad) rows <> [])
    by (destruct rows; [congruence|discriminate]).
  rewrite <- rows_above by (destruct rows; [congruence|discriminate]).
  rewrite <- rows_below by assumption.
  rewrite <- pad_rows by assumption.
  now rewrite !append_assoc.
Qed.

Lemma replace_newline_same s : replace_newline (String newline "") s = s.
Proof.
  induction s as [|c s IH]; simpl; [reflexivity|].
  destruct (Ascii.eqb c newline) eqn:E; rewrite IH; [|reflexivity].
  apply Ascii.eqb_eq in E. now subst.
Qed.

Lemma paddings_add align width cols :
  0 <= left_padding align width cols
  /\ 0 <= right_padding align width cols
  /\ left_padding align width cols + right_padding align width cols
     = Z.max 0 (width - cols).
Proof.
  unfold right_padding, left_padding.
  destruct (width >? cols) eqn:Hw; [|lia].
  apply Z.gtb_lt in Hw.
  destruct (align_is align "<"); [lia|].
  destruct (align_is align ">"); [lia|].
  pose proof (Z.div_pos (width - cols) 2).
  pose proof (Z.div_le_upper_bound (width - cols) 2 (width - cols)). lia.
Qed.

Lemma vertical_paddings_add align height lines :
  0 <= top_padding align height lines
  /\ 0 <= bottom_padding align height lines
  /\ top_padding align height lines + bottom_padding align height lines
     = Z.max 0 (height - lines).
Proof.
  unfold bottom_padding, top_padding.
  destruct (height >? lines) eqn:Hw; [|lia].
  apply Z.gtb_lt in Hw.
  destruct (align_is align "^"); [lia|].
  destruct (align_is align "_"); [lia|].
  pose proof (Z.div_pos (height - lines) 2).
  pose proof (Z.div_le_upper_bound (height - lines) 2 (height - lines)). lia.
Qed.

Lemma horizontal_pieces align width cols render :
  (if width >? cols then
     let '(left_, right_) :=
       if align_is align "<" then ("", spaces (width - cols))
       else if align_is align ">" then (spaces (width - cols), "")
       else
         let left_ := spaces ((width - cols) / 2) in
         (left_, spaces (width - cols - Z.of_nat (String.length left_))) in
     (left_, right_,
      replace_newline (right_ +:+ String newline "" +:+ left_) render)
   else ("", "", render))
  = (spaces (left_padding align width cols),
     spaces (right_padding align width cols),
     replace_newline (spaces (right_padding align width cols)
                      +:+ String newline ""
                      +:+ spaces (left_padding align width cols)) render).
Proof.
  unfold right_padding, left_padding.
  destruct (width >? cols) eqn:Hw.
  - apply Z.gtb_lt in Hw.
    destruct (align_is align "<").
    { replace (Z.max 0 (width - cols) - 0) with (width - cols) by lia.
      reflexivity. }
    destruct (align_is align ">").
    { replace (Z.max 0 (width - cols) - (width - cols)) with 0 by lia.
      reflexivity. }
    cbv zeta. rewrite length_spaces.
    pose proof (Z.div_pos (width - cols) 2).
    replace (Z.max 0 ((width - cols) / 2)) with ((width - cols) / 2) by lia.
    replace (Z.max 0 (width - cols)) with (width - cols) by lia.
    reflexivity.
  - rewrite Z.gtb_ltb in Hw; apply Z.ltb_ge in Hw.
    replace (Z.max 0 (width - cols) - 0) with 0 by lia.
    change (spaces 0) with "". cbn [String.append].
    now rewrite replace_newline_same.
Qed.

Lemma vertical_pieces align width height lines :
  (if height >? lines then
     let '(top, bottom) :=
       if align_is align "^" then (0, height - lines)
       else if align_is align "_" then (height - lines, 0)
       else
         let top := (height - lines) / 2 in
         (top, height - lines - top) in
     (str_mul (spaces width +:+ String newline "") top,
      str_mul (String newline "" +:+ spaces width) bottom)
   else ("", ""))
  = (repeat_string (spaces width +:+ String newline "")
       (Z.to_nat (top_padding align height lines)),
     repeat_string (String newline "" +:+ spaces width)
       (Z.to_nat (bottom_padding align height lines))).
Proof.
  unfold bottom_padding, top_padding, str_mul.
  destruct (height >? lines) eqn:Hw.
  - apply Z.gtb_lt in Hw.
    destruct (align_is align "^").
    { replace (Z.max 0 (height - lines) - 0) with (height - lines) by lia.
      reflexivity. }
    destruct (align_is align "_").
    { replace (Z.max 0 (height - lines) - (height - lines)) with 0 by lia.
      reflexivity. }
    cbv zeta.
    replace (Z.max 0 (height - lines)) with (height - lines) by lia.
    reflexivity.
  - rewrite Z.gtb_ltb in Hw; apply Z.ltb_ge in Hw.
    replace (Z.max 0 (height - lines) - 0) with 0 by lia. reflexivity.
Qed.

Section FormatRenderFacts.
Context {style : RenderStyle}.
Variable get_terminal_size : Z * Z.

(** X9: [_format_render] lays a render of several rows out row by row:
    above it come the rows of the top padding, each row of the render gets
    the left and the right padding, below it come the rows of the bottom
    padding, the padding rows being as wide as the padding width.  The two
    horizontal paddings add up to what the padding width exceeds the
    rendered width by (all of it on the right for [<], on the left for [>],
    halved otherwise, the odd column on the right), and the two vertical
    ones likewise (all below for [^], above for [_]); nothing is added on an
    axis whose padding does not exceed the rendered size. *)
Theorem format_render_rows self rows fmt cols lines :
  rendered_size get_terminal_size self = Ok (cols, lines) ->
  rows <> [] -> forallb one_line rows = true ->
  let width := or_default (fmt_width fmt)
                 (fst get_terminal_size - _h_allow self) in
  let height := or_default (fmt_height fmt)
                  (snd get_terminal_size - _v_allow self) in
  let lpad := left_padding (fmt_h_align fmt) width cols in
  let rpad := right_padding (fmt_h_align fmt) width cols in
  let top := top_padding (fmt_v_align fmt) height lines in
  let bottom := bottom_padding (fmt_v_align fmt) height lines in
  _format_render get_terminal_size self (join_lines rows) fmt
  = Ok (join_lines (replicate (Z.to_nat top) (spaces width)
                    ++ map (fun r => spaces lpad +:+ r +:+ spaces rpad) rows
                    ++ replicate (Z.to_nat bottom) (spaces width)))
  /\ 0 <= lpad /\ 0 <= rpad /\ lpad + rpad = Z.max 0 (width - cols)
  /\ 0 <= top /\ 0 <= bottom /\ top + bottom = Z.max 0 (height - lines).
Proof.
  intros Hsize Hne Hrows width height lpad rpad top bottom.
  pose proof (paddings_add (fmt_h_align fmt) width cols) as (H1 & H2 & H3).
  pose proof (vertical_paddings_add (fmt_v_align fmt) height lines)
    as (H4 & H5 & H6).
  split; [|tauto].
  unfold _format_render. rewrite Hsize. cbn [bind]. cbv zeta.
  fold width height.
  rewrite horizontal_pieces, vertical_pieces. fold lpad rpad top bottom.
  rewrite assemble_rows by assumption.
  destruct ((width >? cols) || (height >? lines)) eqn:Hc; [reflexivity|].
  apply orb_false_iff in Hc as [Hw Hh].
  rewrite Z.gtb_ltb in Hw; apply Z.ltb_ge in Hw. rewrite Z.gtb_ltb in Hh; apply Z.ltb_ge in Hh.
  replace lpad with 0 by lia. replace rpad with 0 by lia.
  replace top with 0 by lia. replace bottom with 0 by lia.
  change (spaces 0) with "". cbn [Z.to_nat replicate app String.append].
  rewrite app_nil_r.
  replace (map (fun r => r +:+ "") rows) with rows; [reflexivity|].
  induction rows as [|r rows IH]; [reflexivity|].
  simpl. rewrite append_nil_r. f_equal.
  destruct rows; [reflexivity|]. apply IH; [discriminate|].
  simpl in Hrows. now apply andb_true_iff in Hrows as [_ Hrows].
Qed.

(** X10: when neither the padding width exceeds the rendered width nor the
    padding height the rendered height, [_format_render] returns the render
    as it is, whatever it contains. *)
Theorem format_render_without_padding self render fmt cols lines :
  rendered_size get_terminal_size self = Ok (cols, lines) ->
  or_default (fmt_width fmt) (fst get_terminal_size - _h_allow self) <= cols ->
  or_default (fmt_height fmt) (snd get_terminal_size - _v_allow self) <= lines ->
  _format_render get_terminal_size self render fmt = Ok render.
Proof.
  intros Hsize Hw Hh. unfold _format_render. rewrite Hsize. cbn [bind]. cbv zeta.
  replace (_ >? cols) with false by (symmetry; rewrite Z.gtb_ltb; apply Z.ltb_ge; lia).
  replace (_ >? lines) with false by (symmetry; rewrite Z.gtb_ltb; apply Z.ltb_ge; lia).
  reflexivity.
Qed.

End FormatRenderFacts.

Lemma format_render_rows_witness :
  _format_render (style := graphics_1x2) (80, 24) (image drawable_1x1) "x"
    {| fmt_h_align := None; fmt_width := Some 3;
       fmt_v_align := None; fmt_height := Some 2 |}
  = Ok (" x " +:+ String newline "   ").
Proof.
  exact (proj1 (format_render_rows (style := graphics_1x2) (80, 24)
                  (image drawable_1x1) ["x"]
                  {| fmt_h_align := None; fmt_width := Some 3;
                     fmt_v_align := None; fmt_height := Some 2 |} 1 1
                  eq_refl ltac:(discriminate) eq_refl)).
Defined.

Lemma format_render_without_padding_witness :
  _format_render (style := graphics_1x2) (80, 24) (image drawable_1x1) "x"
    {| fmt_h_align := Some "<"; fmt_width := Some 1;
       fmt_v_align := None; fmt_height := Some 1 |}
  = Ok "x".
Proof.
  apply (format_render_without_padding (style := graphics_1x2) (80, 24)
           (image drawable_1x1) "x" _ 1 1 eq_refl); simpl; lia.
Defined.

(** ** Scale, seek and the minimal render size *)

Lemma check_scale_2_in_range v x :
  _check_scale_2 v = inl x -> v = VFloat x /\ scale_in_range x = true.
Proof.
  unfold _check_scale_2. destruct v as [f|t]; [|discriminate].
  destruct (scale_in_range f) eqn:E; [|discriminate].
  intros [= <-]. now split.
Qed.

Lemma check_scale_in_range items s :
  _check_scale items = inl s ->
  items = [VFloat (fst s); VFloat (snd s)]
  /\ scale_in_range (fst s) = true /\ scale_in_range (snd s) = true.
Proof.
  unfold _check_scale.
  destruct (negb (forallb is_VFloat items)); [discriminate|].
  destruct items as [|[x|?] [|[y|?] [|? ?]]]; try discriminate.
  destruct (scale_in_range x && scale_in_range y) eqn:E; [|discriminate].
  apply andb_true_iff in E as [Hx Hy]. intros [= <-]. now repeat split.
Qed.

(** X11: the setters of [scale], [scale_x] and [scale_y] keep both scale
    values within [0.0 < x <= 1.0]: a call that returns has stored values in
    that range (the one given, for both axes or for its own axis, the other
    axis being left alone) and changed nothing else of the image, and a call
    that raises has changed nothing at all. *)
Theorem scale_setters_keep_the_scale_in_range :
  (forall self a self',
     set_scale self a = (self', None) ->
     scale_valid self' = true
     /\ self' = with_scale self (_scale self')
     /\ (forall x, a = SValue x -> _scale self' = (x, x))
     /\ (forall x y, a = STuple [VFloat x; VFloat y] -> _scale self' = (x, y)))
  /\ (forall self v self',
        scale_valid self = true -> set_scale_x self v = (self', None) ->
        scale_valid self' = true
        /\ self' = with_scale self (_scale self')
        /\ v = VFloat (fst (_scale self'))
        /\ snd (_scale self') = snd (_scale self))
  /\ (forall self v self',
        scale_valid self = true -> set_scale_y self v = (self', None) ->
        scale_valid self' = true
        /\ self' = with_scale self (_scale self')
        /\ v = VFloat (snd (_scale self'))
        /\ fst (_scale self') = fst (_scale self))
  /\ (forall self a self' e, set_scale self a = (self', Some e) -> self' = self)
  /\ (forall self v self' e, set_scale_x self v = (self', Some e) -> self' = self)
  /\ (forall self v self' e, set_scale_y self v = (self', Some e) -> self' = self).
Proof.
  split; [|split; [|split; [|split; [|split]]]].
  - intros self a self'. unfold set_scale, scale_valid.
    destruct a as [x|items|t]; [| |discriminate].
    + destruct (scale_in_range x) eqn:E; [|discriminate].
      intros [= <-]. simpl. rewrite E. repeat split.
      * now intros y [= <-].
      * discriminate.
    + destruct (_check_scale items) as [s|e] eqn:E; [|discriminate].
      apply check_scale_in_range in E as (-> & Hx & Hy).
      intros [= <-]. simpl. rewrite Hx, Hy. repeat split.
      * discriminate.
      * intros x y [= <- <-]. now destruct s.
  - intros self v self' Hv. unfold set_scale_x, scale_valid in *.
    destruct (_check_scale_2 v) as [x|e] eqn:E; [|discriminate].
    apply check_scale_2_in_range in E as (-> & Hx).
    intros [= <-]. simpl. apply andb_true_iff in Hv as [_ Hy].
    rewrite Hx, Hy. now repeat split.
  - intros self v self' Hv. unfold set_scale_y, scale_valid in *.
    destruct (_check_scale_2 v) as [x|e] eqn:E; [|discriminate].
    apply check_scale_2_in_range in E as (-> & Hx).
    intros [= <-]. simpl. apply andb_true_iff in Hv as [Hy _].
    rewrite Hx, Hy. now repeat split.
  - intros self a self' e. unfold set_scale.
    destruct a as [x|items|t]; [| |now intros [= <-]].
    + destruct (scale_in_range x); [discriminate|now intros [= <-]].
    + destruct (_check_scale items); [discriminate|now intros [= <-]].
  - intros self v self' e. unfold set_scale_x.
    destruct (_check_scale_2 v); [discriminate|now intros [= <-]].
  - intros self v self' e. unfold set_scale_y.
    destruct (_check_scale_2 v); [discriminate|now intros [= <-]].
Qed.

(** X12: a [seek] that returns is read back by [tell]: the position given
    was a frame number of the image (0 for an image that is not animated),
    and [tell] returns it; a [seek] that raises does so for a position that
    is no frame number, and leaves the image as it was. *)
Theorem seek_then_tell self pos :
  (forall self', image_seek self pos = (self', None) ->
     tell self' = pos /\ 0 <= pos < image_frames self
     /\ image_frames self' = image_frames self)
  /\ (forall self' e, image_seek self pos = (self', Some e) ->
        self' = self /\ e = Frame_number_out_of_range pos (image_frames self)
        /\ ~ (0 <= pos < image_frames self)).
Proof.
  unfold image_seek, tell, image_frames. split.
  - intros self'.
    destruct ((0 <=? pos) && (pos <? _)) eqn:E; [|discriminate]. simpl.
    apply andb_true_iff in E as [H1 H2].
    apply Z.leb_le in H1. apply Z.ltb_lt in H2.
    intros [= <-]. destruct (_is_animated self) eqn:Ha; simpl; rewrite ?Ha; lia.
  - intros self' e.
    destruct ((0 <=? pos) && (pos <? _)) eqn:E; [discriminate|]. simpl.
    intros [= <- <-]. split; [reflexivity|]. split; [reflexivity|].
    apply andb_false_iff in E as [E|E];
      [apply Z.leb_gt in E|apply Z.ltb_ge in E]; lia.
Qed.

Section MinimalRenderSizeFacts.
Variable cell_size : Z * Z.
Variable get_terminal_size : Z * Z.

(** X13: the height that [_get_minimal_render_size] returns when it adjusts
    is a multiple of the rendered height: the least one that is not below
    the height it returns without adjusting, the width being the same.
    Without adjusting, it returns the render size if that has fewer pixels
    than the original image, and the original size otherwise. *)
Theorem minimal_render_size_is_a_multiple self w0 h0 w h rh :
  _get_minimal_render_size cell_size get_terminal_size self false = Ok (w0, h0) ->
  _get_minimal_render_size cell_size get_terminal_size self true = Ok (w, h) ->
  rendered_height (style := GraphicsImage cell_size) get_terminal_size self = Ok rh ->
  0 < rh ->
  w = w0 /\ h mod rh = 0 /\ h0 <= h < h0 + rh
  /\ (exists render_size,
        _get_render_size cell_size get_terminal_size self = Ok render_size
        /\ (w0, h0) = smaller_of render_size (_original_size self)
        /\ w0 * h0 <= fst render_size * snd render_size
        /\ w0 * h0 <= fst (_original_size self) * snd (_original_size self)).
Proof.
  unfold _get_minimal_render_size. intros H0 H1 Hrh Hpos.
  destruct (_get_render_size cell_size get_terminal_size self) as [rs|e] eqn:Hrs;
    [|discriminate].
  rewrite Hrh in *. cbn [bind] in *.
  destruct (smaller_of rs (_original_size self)) as [w1 h1] eqn:Hsm.
  injection H0 as <- <-.
  assert (Hor : or_1 rh = rh) by (unfold or_1; destruct (rh =? 0) eqn:E; lia).
  rewrite Hor in H1.
  pose proof (Z.mod_pos_bound h1 rh Hpos) as Hb.
  pose proof (Z.div_mod h1 rh ltac:(lia)) as Hd.
  split; [|split; [|split]].
  - destruct (h1 mod rh =? 0); congruence.
  - destruct (h1 mod rh =? 0) eqn:E; injection H1 as <- <-.
    + now apply Z.eqb_eq in E.
    + replace (h1 - h1 mod rh + rh) with ((h1 / rh + 1) * rh) by lia.
      apply Z.mod_mul. lia.
  - destruct (h1 mod rh =? 0) eqn:E; injection H1 as <- <-; [lia|].
    apply Z.eqb_neq in E. lia.
  - exists rs. split; [reflexivity|]. split; [now symmetry|].
    unfold smaller_of in Hsm.
    destruct (fst rs * snd rs <? fst (_original_size self) * snd (_original_size self))
      eqn:E.
    + apply Z.ltb_lt in E. rewrite Hsm in E |- *. simpl in *. lia.
    + apply Z.ltb_ge in E. rewrite Hsm in E |- *. simpl in *. lia.
Qed.

End MinimalRenderSizeFacts.

(** The 3 by 5 example in cells of 10 by 20 pixels: the render size
    (20, 40) has more pixels than the original, so the original size is
    used, and its height 5 is raised to 6, the next multiple of the rendered
    height 2. *)

Lemma minimal_render_size_is_a_multiple_witness :
  _get_minimal_render_size (10, 20) (80, 24) image_3x5 false = Ok (3, 5)
  /\ _get_minimal_render_size (10, 20) (80, 24) image_3x5 true = Ok (3, 6)
  /\ 3 = 3 /\ 6 mod 2 = 0 /\ 5 <= 6 < 5 + 2.
Proof.
  split; [vm_compute; reflexivity|]. split; [vm_compute; reflexivity|].
  destruct (minimal_render_size_is_a_multiple (10, 20) (80, 24) image_3x5
              3 5 3 6 2) as (H1 & H2 & H3 & _).
  - vm_compute; reflexivity.
  - vm_compute; reflexivity.
  - vm_compute; reflexivity.
  - lia.
  - exact (conj H1 (conj H2 H3)).
Defined.

(** ** The iterator between calls *)

Section Consistency.
Variable hash : Z * Z -> Z.
Variables repeat frames : Z.

Lemma escaping_not_stop e : class_of (escaping e) <> CStopIteration.
Proof. destruct e; discriminate. Qed.

Ltac range :=
  unfold loop_no_in_range in *; simpl in *;
  repeat match goal with
         | H : context [if ?b then _ else _] |- _ => destruct b eqn:?
         | |- context [if ?b then _ else _] => destruct b eqn:?
         end; try lia.

Lemma insert_length_slot (cache : list slot) i x :
  length (<[i := x]> cache) = length cache.
Proof. apply length_insert. Qed.

Lemma store_length w cache n frame cache' :
  store hash w cache n frame = Ok cache' -> length cache' = length cache.
Proof.
  unfold store. destruct (current_rendered_size w); simpl; [|discriminate].
  destruct (_ && _); [|discriminate]. intros [= <-]. apply length_insert.
Qed.

Lemma second_loop_body_resumed w sent g it :
  _repeat it = repeat -> n_frames it = frames -> repeat <> 0 ->
  loop_no_in_range repeat (_loop_no it) ->
  g_repeat g <> 0 -> _loop_no it = Some (g_repeat g) ->
  length (g_cache g) = Z.to_nat frames ->
  resumed repeat frames (second_loop_body hash w sent g it).
Proof.
  intros Hr Hn Hr0 Hl Hg Hlg Hc.
  unfold second_loop_body, second_loop_frame, gen_yield, gen_raise, resumed,
    consistent_with.
  repeat case_match; simplify_eq; simpl;
    repeat match goal with
           | H : store _ _ _ _ _ = Ok _ |- _ => apply store_length in H
           end;
    split_and!; auto using escaping_not_stop; try congruence.
Qed.

Lemma wrap_around_spec g it g' it' :
  wrap_around g it = (g', it') ->
  _repeat it = repeat -> n_frames it = frames -> repeat <> 0 ->
  loop_no_in_range repeat (_loop_no it) ->
  g_repeat g <> 0 -> _loop_no it = Some (g_repeat g) ->
  _repeat it' = repeat /\ n_frames it' = frames
  /\ loop_no_in_range repeat (_loop_no it')
  /\ _loop_no it' = Some (g_repeat g') /\ _seek_position it' = 0
  /\ g_n g' = 0 /\ g_cache g' = g_cache g /\ g_cached g' = g_cached g
  /\ pc g' = pc g
  /\ (g_repeat g' = 0 -> 0 < repeat)
  /\ (g_repeat g' < 0 -> repeat < 0)
  /\ (0 < g_repeat g' -> 0 < repeat).
Proof.
  unfold wrap_around. intros H Hr Hn Hr0 Hl Hg Hlg.
  rewrite Hlg in Hl. simpl in H.
  destruct (g_repeat g >? 0) eqn:E; injection H as <- <-; simpl;
    rewrite ?Hlg; unfold loop_no_in_range in *;
    destruct (repeat <? 0) eqn:E'; split_and!; auto; try lia.
Qed.

Lemma spin_resumed g it :
  _repeat it = repeat -> n_frames it = frames -> repeat <> 0 ->
  loop_no_in_range repeat (_loop_no it) ->
  g_repeat g <> 0 -> _loop_no it = Some (g_repeat g) ->
  _seek_position it = 0 ->
  (g_cached g = true -> length (g_cache g) = Z.to_nat frames) ->
  (pc g = GSecondLoop -> length (g_cache g) = Z.to_nat frames) ->
  (g_repeat g < 0 -> repeat < 0) -> (0 < g_repeat g -> 0 < repeat) ->
  resumed repeat frames (spin g it).
Proof.
  intros Hr Hn Hr0 Hl Hg Hlg Hs Hc Hc2 Hneg Hpos.
  unfold spin, gen_return, resumed, consistent_with.
  destruct (g_repeat g >? 0) eqn:E; simpl.
  - assert (0 < repeat) by lia.
    split_and!; auto; unfold loop_no_in_range; try lia.
    destruct (repeat <? 0) eqn:E'; lia.
  - split_and!; auto; [|lia].
    destruct (pc g); auto.
Qed.

Lemma second_loop_resumed w sent g it :
  _repeat it = repeat -> n_frames it = frames -> repeat <> 0 ->
  loop_no_in_range repeat (_loop_no it) ->
  g_repeat g <> 0 -> _loop_no it = Some (g_repeat g) ->
  length (g_cache g) = Z.to_nat frames ->
  resumed repeat frames (second_loop hash w sent g it).
Proof.
  intros Hr Hn Hr0 Hl Hg Hlg Hc. unfold second_loop.
  destruct (g_n g <? _) eqn:E.
  { now apply second_loop_body_resumed. }
  destruct (wrap_around g it) as [g' it'] eqn:Hw.
  destruct (wrap_around_spec g it g' it' Hw Hr Hn Hr0 Hl Hg Hlg)
    as (Hr' & Hn' & Hl' & Hlg' & Hs' & Hn0 & Hc' & Hcd' & Hpc' & Hz & Hneg & Hpos).
  destruct (g_repeat g' =? 0) eqn:E0.
  { apply Z.eqb_eq in E0. unfold gen_return, resumed, consistent_with. simpl.
    rewrite E0 in Hlg'. split_and!; auto. }
  apply Z.eqb_neq in E0.
  destruct (0 <? _) eqn:E1.
  { apply second_loop_body_resumed; auto. congruence. }
  apply spin_resumed; auto; intros; congruence.
Qed.

Lemma first_loop_again_resumed w g it :
  _repeat it = repeat -> n_frames it = frames -> repeat <> 0 ->
  loop_no_in_range repeat (_loop_no it) ->
  _loop_no it = Some (g_repeat g) -> _seek_position it = 0 ->
  (g_cached g = true -> length (g_cache g) = Z.to_nat frames) ->
  (pc g = GSecondLoop -> length (g_cache g) = Z.to_nat frames) ->
  (g_repeat g = 0 -> 0 < repeat) ->
  (g_repeat g < 0 -> repeat < 0) -> (0 < g_repeat g -> 0 < repeat) ->
  resumed repeat frames (first_loop_again w g it).
Proof.
  intros Hr Hn Hr0 Hl Hlg Hs Hc Hc2 Hz Hneg Hpos. unfold first_loop_again.
  destruct (g_repeat g =? 0) eqn:E0.
  { apply Z.eqb_eq in E0. unfold gen_return, resumed, consistent_with. simpl.
    rewrite E0 in Hlg. split_and!; auto. }
  apply Z.eqb_neq in E0.
  destruct (render_frame w 0) as [frame|e] eqn:Hf.
  { unfold gen_yield, resumed, consistent_with. simpl. split_and!; auto. }
  assert (Hraise : resumed repeat frames
                     (gen_raise e g (set_seek_position 0 it))).
  { unfold gen_raise, resumed, consistent_with. simpl.
    split_and!; auto using escaping_not_stop. }
  destruct e; try exact Hraise.
  apply spin_resumed; auto.
Qed.

Lemma first_loop_resumed w sent g it :
  _repeat it = repeat -> n_frames it = frames -> repeat <> 0 ->
  loop_no_in_range repeat (_loop_no it) ->
  g_repeat g <> 0 -> _loop_no it = Some (g_repeat g) ->
  (g_cached g = true -> length (g_cache g) = Z.to_nat frames) ->
  pc g <> GSecondLoop ->
  resumed repeat frames (first_loop hash w sent g it).
Proof.
  intros Hr Hn Hr0 Hl Hg Hlg Hc Hpc. unfold first_loop.
  destruct (g_repeat g =? 0) eqn:E0; [apply Z.eqb_eq in E0; contradiction|].
  destruct sent as [pos|].
  { unfold gen_yield, resumed, consistent_with. simpl. split_and!; auto. }
  destruct (render_frame w (g_n g)) as [frame|e] eqn:Hf.
  { destruct (g_cached g) eqn:Hcd.
    - destruct (store hash w (g_cache g) (g_n g) frame) as [cache|e] eqn:Hst.
      + apply store_length in Hst.
        unfold gen_yield, resumed, consistent_with. simpl.
        split_and!; auto. intros _. rewrite Hst. auto.
      + unfold gen_raise, resumed, consistent_with. simpl.
        split_and!; auto using escaping_not_stop.
    - unfold gen_yield, resumed, consistent_with. simpl.
      split_and!; auto. rewrite Hcd. discriminate. }
  assert (Hraise : resumed repeat frames
                     (gen_raise e g (set_seek_position (g_n g) it))).
  { unfold gen_raise, resumed, consistent_with. simpl.
    split_and!; auto using escaping_not_stop. }
  destruct e; try exact Hraise.
  destruct (wrap_around g (set_seek_position (g_n g) it)) as [g' it'] eqn:Hw.
  destruct (wrap_around_spec g _ g' it' Hw Hr Hn Hr0 Hl Hg Hlg)
    as (Hr' & Hn' & Hl' & Hlg' & Hs' & Hn0 & Hc' & Hcd' & Hpc' & Hz & Hneg & Hpos).
  destruct (g_cached g') eqn:Hcd.
  - destruct (g_repeat g' =? 0) eqn:E1.
    + apply Z.eqb_eq in E1. unfold gen_return, resumed, consistent_with. simpl.
      rewrite E1 in Hlg'. split_and!; auto.
    + apply Z.eqb_neq in E1. apply second_loop_resumed; auto.
      rewrite Hc'. apply Hc. congruence.
  - apply first_loop_again_resumed; auto.
    + rewrite Hcd. discriminate.
    + intros. congruence.
Qed.

(** One resumption of a generator that has not finished, by [next()] or by
    [send()]. *)
Lemma gen_send_resumed w sent g it :
  consistent_with repeat frames (Some g) it ->
  pc g <> GFinished -> (pc g = GCreated -> sent = None) ->
  resumed repeat frames (gen_send hash w sent g it).
Proof.
  intros (Hr & Hn & Hr0 & Hl & Hg) Hpc Hsent. unfold gen_send.
  destruct (pc g) eqn:E; [| | |contradiction].
  - rewrite (Hsent eq_refl).
    apply first_loop_resumed; simpl; auto; try congruence.
    + unfold loop_no_in_range. rewrite Hr. destruct (repeat <? 0) eqn:E'; lia.
    + destruct (_cached it); [|discriminate]. intros _.
      rewrite length_replicate. now rewrite Hn.
  - destruct Hg as (Hg & Hlg & Hc).
    apply first_loop_resumed; simpl; auto. rewrite E. discriminate.
  - destruct Hg as (Hg & Hlg & Hc).
    apply second_loop_resumed; simpl; auto.
Qed.

Lemma consistent_with_same og it it' :
  consistent_with repeat frames og it ->
  _repeat it' = _repeat it -> n_frames it' = n_frames it ->
  _loop_no it' = _loop_no it ->
  consistent_with repeat frames og it'.
Proof.
  unfold consistent_with. intros H -> -> ->. exact H.
Qed.

Lemma consistent_with_None og it :
  consistent_with repeat frames og it -> consistent_with repeat frames None it.
Proof. unfold consistent_with. tauto. Qed.

Lemma close_fields it :
  _repeat (close it) = _repeat it /\ n_frames (close it) = n_frames it
  /\ _loop_no (close it) = _loop_no it
  /\ _seek_position (close it) = _seek_position it.
Proof.
  unfold close. destruct (_animator it); [|auto]. simpl.
  destruct (_img it); [|auto]. destruct (_source it); [|auto].
  destruct (Nat.eqb _ _); simpl; auto.
Qed.

Lemma close_consistent it :
  consistent repeat frames it -> consistent repeat frames (close it).
Proof.
  intros H. unfold consistent.
  replace (_animator (close it)) with (@None generator).
  - destruct (close_fields it) as (H1 & H2 & H3 & _).
    eapply consistent_with_same; [eapply consistent_with_None, H|..]; auto.
  - unfold close. destruct (_animator it) eqn:E; [|now rewrite E]. simpl.
    destruct (_img it); [|reflexivity]. destruct (_source it); [|reflexivity].
    destruct (Nat.eqb _ _); reflexivity.
Qed.

Lemma set_animator_consistent g it :
  consistent_with repeat frames (Some g) it ->
  consistent repeat frames (set_animator (Some g) it).
Proof. intros H. exact H. Qed.

Lemma gen_send_finished w sent g it :
  pc g = GFinished -> gen_send hash w sent g it = (it, g, GReturn).
Proof. unfold gen_send. now intros ->. Qed.

Lemma set_animator_same g it :
  _animator it = Some g -> set_animator (Some g) it = it.
Proof. destruct it. simpl. now intros ->. Qed.

Lemma pc_dec (p q : gen_pc) : {p = q} + {p <> q}.
Proof. decide equality. Qed.

Lemma next_consistent w it :
  consistent repeat frames it ->
  consistent repeat frames (fst (__next__ hash w it)).
Proof.
  intros H. unfold __next__. destruct (_animator it) as [g|] eqn:Ea; [|exact H].
  unfold consistent in H. rewrite Ea in H.
  destruct (pc_dec (pc g) GFinished) as [Hf|Hf].
  { rewrite (gen_send_finished w None g it Hf). simpl.
    apply close_consistent, set_animator_consistent, H. }
  pose proof (gen_send_resumed w None g it H Hf (fun _ => eq_refl)) as Hres.
  destruct (gen_send hash w None g it) as [[it' g'] out].
  destruct Hres as [Hc _].
  pose proof (set_animator_consistent g' it' Hc) as Hc'.
  destruct out as [f| |e|]; simpl; auto using close_consistent.
  destruct e; simpl; auto using close_consistent.
  destruct (endswith _ _); simpl; auto using close_consistent.
Qed.

Lemma seek_consistent w pos it :
  consistent repeat frames it ->
  consistent repeat frames (fst (seek hash w pos it)).
Proof.
  intros H. unfold seek. destruct (negb _); [exact H|].
  destruct (_animator it) as [g|] eqn:Ea; [|exact H].
  unfold consistent in H. rewrite Ea in H.
  destruct (pc_dec (pc g) GFinished) as [Hf|Hf].
  { rewrite (gen_send_finished w (Some pos) g it Hf). simpl.
    apply set_animator_consistent, H. }
  destruct (pc_dec (pc g) GCreated) as [Hc|Hc].
  { unfold gen_send. rewrite Hc. simpl. apply set_animator_consistent, H. }
  pose proof (gen_send_resumed w (Some pos) g it H Hf
                (fun E => False_ind _ (Hc E))) as Hres.
  destruct (gen_send hash w (Some pos) g it) as [[it' g'] out].
  destruct Hres as [Hc' _].
  pose proof (set_animator_consistent g' it' Hc') as Hc''.
  destruct out as [f| |e|]; simpl; auto.
  destruct (class_of e); simpl; auto.
Qed.

Lemma perform_consistent c it :
  consistent repeat frames it ->
  consistent repeat frames (fst (perform hash c it)).
Proof.
  intros H. destruct c as [w|w pos|]; simpl.
  - pose proof (next_consistent w it H) as H'.
    destruct (__next__ hash w it). exact H'.
  - pose proof (seek_consistent w pos it H) as H'.
    destruct (seek hash w pos it). exact H'.
  - now apply close_consistent.
Qed.

Lemma perform_all_consistent cs : forall it,
  consistent repeat frames it ->
  consistent repeat frames (fst (perform_all hash cs it)).
Proof.
  induction cs as [|c cs IH]; intros it H; [exact H|]. simpl.
  pose proof (perform_consistent c it H) as H1.
  destruct (perform hash c it) as [it1 r1]. simpl in H1.
  specialize (IH it1 H1). destruct (perform_all hash cs it1). exact IH.
Qed.

End Consistency.

Lemma init_consistent is_animated N sp src r fmt cached img it :
  ImageIterator_init is_animated N sp src r fmt cached img = Ok it ->
  consistent r N it.
Proof.
  unfold ImageIterator_init.
  destruct (negb is_animated); [discriminate|].
  destruct (r =? 0) eqn:E; [discriminate|]. apply Z.eqb_neq in E.
  destruct fmt; [|discriminate]. simpl.
  destruct (match cached with CBool _ => _ | CInt _ => _ end); [|discriminate].
  simpl. destruct img; [|discriminate]. simpl. intros [= <-].
  unfold consistent, consistent_with. simpl. auto.
Qed.

(** Whatever calls are made on an iterator since its creation. *)
Lemma consistent_in_use hash is_animated N sp src r fmt cached img it0 cs it rs :
  ImageIterator_init is_animated N sp src r fmt cached img = Ok it0 ->
  perform_all hash cs it0 = (it, rs) ->
  consistent r N it.
Proof.
  intros Hi Hp. apply init_consistent in Hi.
  pose proof (perform_all_consistent hash r N cs it0 Hi) as H.
  now rewrite Hp in H.
Qed.

Section Steps.
Variable hash : Z * Z -> Z.

(** What [__next__] makes of one resumption of the generator. *)
Lemma next_of_gen_send w it g it' g' out it2 o :
  _animator it = Some g ->
  gen_send hash w None g it = (it', g', out) ->
  __next__ hash w it = (it2, o) ->
  _seek_position it2 = _seek_position it'
  /\ _loop_no it2 = _loop_no it'
  /\ (forall f, o = Returns f -> out = GYield f)
  /\ (o = Raises (StopIteration reached_repeat_count) ->
      (out = GReturn \/ exists e, out = GRaise e /\ class_of e = CStopIteration)
      /\ closed it2).
Proof.
  intros Ha Hg. unfold __next__. rewrite Ha, Hg.
  set (it3 := set_animator (Some g') it').
  destruct (close_fields it3) as (_ & _ & Hl & Hs).
  pose proof (close_closes it3) as Hcl.
  destruct out as [f| |e|].
  - intros [= <- <-]. split_and!; try reflexivity.
    + now intros f' [= <-].
    + discriminate.
  - intros [= <- <-]. rewrite Hl, Hs. split_and!; try reflexivity.
    + discriminate.
    + intros _. split; [now left|exact Hcl].
  - intros H.
    assert (Hcase : (it2 = it3 \/ it2 = close it3)
                    /\ ((o = Raises e /\ (is_Exception e = true -> it2 = close it3))
                        \/ (o = Raises (StopIteration exhausted_or_closed)
                            /\ class_of e = CAttributeError))).
    { destruct e; simpl in H; try (injection H as <- <-; split; [now right|left; auto]).
      - destruct (endswith _ _); injection H as <- <-.
        + split; [now left|right; auto].
        + split; [now right|left; auto].
      - injection H as <- <-. split; [now left|left].
        split; [reflexivity|discriminate]. }
    destruct Hcase as [Hit Ho].
    assert (Hf : _seek_position it2 = _seek_position it'
                 /\ _loop_no it2 = _loop_no it').
    { destruct Hit as [->| ->]; [split; reflexivity|]. now rewrite Hl, Hs. }
    destruct Hf as [Hf1 Hf2]. split_and!; auto.
    + intros f ->. destruct Ho as [[Ho _]|[Ho _]]; discriminate.
    + intros ->. destruct Ho as [[Ho Hex]|[Ho _]]; [|discriminate].
      injection Ho as <-. split.
      * right. eexists. split; reflexivity.
      * rewrite (Hex eq_refl). exact Hcl.
  - intros [= <- <-]. split_and!; try reflexivity; discriminate.
Qed.

(** [seek] on a generator suspended in the first loop. *)
Lemma seek_in_first_loop w pos it g :
  _animator it = Some g -> pc g = GFirstLoop -> g_repeat g <> 0 ->
  0 <= pos < n_frames it ->
  seek hash w pos it
  = (set_animator (Some (set_pc GFirstLoop (set_n (pos - 1) g))) it, Returns tt).
Proof.
  intros Ha Hpc Hg Hpos. unfold seek.
  replace ((0 <=? pos) && (pos <? n_frames it)) with true
    by (symmetry; apply andb_true_iff; lia).
  cbn [negb]. rewrite Ha. unfold gen_send. rewrite Hpc.
  unfold first_loop. cbn [g_repeat set_n next_n].
  apply Z.eqb_neq in Hg. rewrite Hg. reflexivity.
Qed.

(** [seek] on a generator suspended in the second loop. *)
Lemma seek_in_second_loop w pos it g :
  _animator it = Some g -> pc g = GSecondLoop ->
  length (g_cache g) = Z.to_nat (n_frames it) ->
  0 <= pos < n_frames it ->
  seek hash w pos it
  = (set_animator (Some (set_pc GSecondLoop (set_n (pos - 1) g))) it, Returns tt).
Proof.
  intros Ha Hpc Hlen Hpos. unfold seek.
  replace ((0 <=? pos) && (pos <? n_frames it)) with true
    by (symmetry; apply andb_true_iff; lia).
  cbn [negb]. rewrite Ha. unfold gen_send. rewrite Hpc.
  unfold second_loop. cbn [g_cache g_n set_n next_n].
  replace (pos - 1 <? Z.of_nat (length (g_cache g))) with true
    by (symmetry; apply Z.ltb_lt; lia).
  reflexivity.
Qed.

(** The first loop at frame [pos], when that frame renders. *)
Lemma first_loop_at w g it pos f it' g' out :
  g_n g = pos -> g_repeat g <> 0 -> render_frame w pos = Ok f ->
  first_loop hash w None g it = (it', g', out) ->
  _seek_position it' = pos /\ forall f', out = GYield f' -> f' = f.
Proof.
  intros Hn Hg Hf. unfold first_loop. apply Z.eqb_neq in Hg. rewrite Hg, Hn, Hf.
  destruct (g_cached g).
  - destruct (store hash w (g_cache g) pos f) as [cache|e].
    + unfold gen_yield. intros [= <- <- <-]. split; [reflexivity|].
      now intros f' [= <-].
    + unfold gen_raise. intros [= <- <- <-]. split; [reflexivity|discriminate].
  - unfold gen_yield. intros [= <- <- <-]. split; [reflexivity|].
    now intros f' [= <-].
Qed.

(** The second loop at frame [pos], when that frame renders. *)
Lemma second_loop_at w g it pos f it' g' out :
  g_n g = pos -> 0 <= pos < Z.of_nat (length (g_cache g)) ->
  render_frame w pos = Ok f ->
  second_loop hash w None g it = (it', g', out) ->
  _seek_position it' = pos
  /\ forall f', out = GYield f' ->
       f' = f
       \/ exists size,
            current_rendered_size w = Ok size
            /\ g_cache g !! Z.to_nat pos = Some (Some (f', hash size)).
Proof.
  intros Hn Hpos Hf. unfold second_loop. rewrite Hn.
  replace (pos <? Z.of_nat (length (g_cache g))) with true
    by (symmetry; apply Z.ltb_lt; lia).
  unfold second_loop_body, second_loop_frame. rewrite Hn, Hf.
  destruct (g_cache g !! Z.to_nat pos) as [cached_slot|] eqn:Hc.
  2: { unfold gen_raise. intros [= <- <- <-]. split; [reflexivity|discriminate]. }
  destruct (current_rendered_size w) as [size|e] eqn:Hs.
  2: { unfold gen_raise. intros [= <- <- <-]. split; [reflexivity|discriminate]. }
  assert (Hnew : forall s,
            match store hash w (g_cache g) pos f with
            | Ok cache => gen_yield GSecondLoop (set_frame f cache g)
                            (set_seek_position pos it)
            | Raise e => gen_raise e g (set_seek_position pos it)
            end = s ->
            s = (it', g', out) ->
            _seek_position it' = pos /\ forall f', out = GYield f' -> f' = f).
  { intros s <-. destruct (store hash w (g_cache g) pos f).
    - unfold gen_yield. intros [= <- <- <-]. split; [reflexivity|].
      now intros f' [= <-].
    - unfold gen_raise. intros [= <- <- <-]. split; [reflexivity|discriminate]. }
  destruct cached_slot as [[frame size_hash]|].
  - destruct (hash size =? size_hash) eqn:Eh.
    + apply Z.eqb_eq in Eh. unfold gen_yield. intros [= <- <- <-].
      split; [reflexivity|]. intros f' [= <-]. right. exists size.
      split; [reflexivity|]. now rewrite Eh.
    + intros H. destruct (Hnew _ eq_refl H) as [H1 H2]. split; [exact H1|].
      intros f' Hf'. left. now apply H2.
  - intros H. destruct (Hnew _ eq_refl H) as [H1 H2]. split; [exact H1|].
    intros f' Hf'. left. now apply H2.
Qed.

End Steps.

(** X14: [seek] chooses the frame of the next iteration.  On an iterator
    that is suspended at a frame, [seek(pos)] with a frame number of the
    image returns, and leaves the image's seek position, [loop_no] and the
    cache as they are; the [__next__] after it, in a world where frame [pos]
    renders, sets the image's seek position to [pos], and the frame it
    returns, if it returns one, is the render of frame [pos] or the cached
    frame of slot [pos], whose fingerprint is that of the current size. *)
Theorem seek_chooses_the_next_frame
    hash is_animated N sp src r fmt cached img it0 cs it rs w pos :
  ImageIterator_init is_animated N sp src r fmt cached img = Ok it0 ->
  perform_all hash cs it0 = (it, rs) ->
  suspended it ->
  0 <= pos < N ->
  exists it1,
    seek hash w pos it = (it1, Returns tt)
    /\ _seek_position it1 = _seek_position it
    /\ _loop_no it1 = _loop_no it
    /\ cache_of it1 = cache_of it
    /\ forall w' f it2 o,
         render_frame w' pos = Ok f ->
         __next__ hash w' it1 = (it2, o) ->
         _seek_position it2 = pos
         /\ forall f', o = Returns f' ->
              f' = f
              \/ exists size,
                   current_rendered_size w' = Ok size
                   /\ cache_of it !! Z.to_nat pos = Some (Some (f', hash size)).
Proof.
  intros Hi Hp (g & Ha & Hpc) Hpos.
  pose proof (consistent_in_use _ _ _ _ _ _ _ _ _ _ _ _ _ Hi Hp) as Hc.
  unfold consistent in Hc. rewrite Ha in Hc.
  destruct Hc as (Hr & Hn & Hr0 & Hl & Hg). rewrite <- Hn in Hpos.
  destruct Hpc as [Hpc|Hpc]; rewrite Hpc in Hg; destruct Hg as (Hg0 & Hlg & Hlen).
  - (* the first loop *)
    eexists. split; [apply seek_in_first_loop; [exact Ha|exact Hpc|exact Hg0|exact Hpos]|].
    split; [reflexivity|]. split; [reflexivity|].
    split; [unfold cache_of; cbn; now rewrite Ha|].
    intros w' f it2 o Hf Hnext.
    destruct (gen_send hash w' None (set_pc GFirstLoop (set_n (pos - 1) g))
                (set_animator (Some (set_pc GFirstLoop (set_n (pos - 1) g))) it))
      as [[it' g'] out] eqn:Hsend.
    assert (Ha1 : _animator (set_animator (Some (set_pc GFirstLoop (set_n (pos - 1) g))) it)
                  = Some (set_pc GFirstLoop (set_n (pos - 1) g))) by reflexivity.
    destruct (next_of_gen_send hash w' _ _ it' g' out it2 o Ha1 Hsend Hnext)
      as (Hs & _ & Hy & _).
    unfold gen_send in Hsend. cbn [pc set_pc set_n next_n g_n] in Hsend.
    apply (first_loop_at hash w' _ _ pos f) in Hsend as [Hs' Hy'];
      [|cbn; lia|exact Hg0|exact Hf].
    split; [congruence|]. intros f' Ho. left. apply Hy', Hy, Ho.
  - (* the second loop *)
    rewrite <- Hn in Hlen.
    eexists. split; [apply seek_in_second_loop; [exact Ha|exact Hpc|exact Hlen|exact Hpos]|].
    split; [reflexivity|]. split; [reflexivity|].
    split; [unfold cache_of; cbn; now rewrite Ha|].
    intros w' f it2 o Hf Hnext.
    destruct (gen_send hash w' None (set_pc GSecondLoop (set_n (pos - 1) g))
                (set_animator (Some (set_pc GSecondLoop (set_n (pos - 1) g))) it))
      as [[it' g'] out] eqn:Hsend.
    assert (Ha1 : _animator (set_animator (Some (set_pc GSecondLoop (set_n (pos - 1) g))) it)
                  = Some (set_pc GSecondLoop (set_n (pos - 1) g))) by reflexivity.
    destruct (next_of_gen_send hash w' _ _ it' g' out it2 o Ha1 Hsend Hnext)
      as (Hs & _ & Hy & _).
    unfold gen_send in Hsend. cbn [pc set_pc set_n next_n g_n] in Hsend.
    apply (second_loop_at hash w' _ _ pos f) in Hsend as [Hs' Hy'];
      [|cbn; lia|cbn; lia|exact Hf].
    split; [congruence|]. intros f' Ho.
    destruct (Hy' f' (Hy f' Ho)) as [->|(size & H1 & H2)]; [now left|].
    right. exists size. split; [exact H1|].
    unfold cache_of. rewrite Ha. exact H2.
Qed.

(** After the first of two frames, [seek(0)] makes the next [__next__]
    visit frame 0 again. *)
Lemma seek_chooses_the_next_frame_witness :
  two_loops (CInt 100) = Ok cached_iterator
  /\ snd (seek small_hash (two_frames "a" (1, 1)) 0
            (fst (perform_all small_hash [Call_next (two_frames "a" (1, 1))]
                    cached_iterator))) = Returns tt
  /\ _seek_position
       (fst (__next__ small_hash (two_frames "b" (1, 1))
               (fst (seek small_hash (two_frames "a" (1, 1)) 0
                       (fst (perform_all small_hash
                               [Call_next (two_frames "a" (1, 1))]
                               cached_iterator)))))) = 0.
Proof.
  split; [reflexivity|].
  destruct (seek_chooses_the_next_frame small_hash true 2 0 (Some 0%nat) 2
              (Ok tt) (CInt 100) (Ok 0%nat) cached_iterator
              [Call_next (two_frames "a" (1, 1))]
              (fst (perform_all small_hash [Call_next (two_frames "a" (1, 1))]
                      cached_iterator))
              (snd (perform_all small_hash [Call_next (two_frames "a" (1, 1))]
                      cached_iterator))
              (two_frames "a" (1, 1)) 0)
    as (it1 & Hseek & _ & _ & _ & Hnext).
  - reflexivity.
  - reflexivity.
  - eexists. split; [reflexivity|]. left. reflexivity.
  - lia.
  - rewrite Hseek. cbn [fst snd]. split; [reflexivity|].
    destruct (__next__ small_hash (two_frames "b" (1, 1)) it1) as [it2 o] eqn:E.
    exact (proj1 (Hnext (two_frames "b" (1, 1)) "b0" it2 o eq_refl E)).
Defined.

(** X15: when [seek] raises, the iterator is as it was, and the exception
    tells why: [ValueError] exactly for a position that is no frame number
    of the image; otherwise [TermImageError] "Iterator exhausted or closed"
    for a closed iterator, [TermImageError] "Iteration has not yet started"
    before the first [__next__], and the generator's own [StopIteration]
    if an exception that is no [Exception] had ended the generator. *)
Theorem seek_raises_and_changes_nothing
    hash is_animated N sp src r fmt cached img it0 cs it rs w pos it' e :
  ImageIterator_init is_animated N sp src r fmt cached img = Ok it0 ->
  perform_all hash cs it0 = (it, rs) ->
  seek hash w pos it = (it', Raises e) ->
  it' = it
  /\ (~ (0 <= pos < N) <-> e = Frame_out_of_range pos)
  /\ (0 <= pos < N ->
      (closed it /\ e = Iterator_closed)
      \/ (not_started it /\ e = Iteration_not_started)
      \/ (generator_finished it /\ e = StopIteration "")).
Proof.
  intros Hi Hp.
  pose proof (consistent_in_use _ _ _ _ _ _ _ _ _ _ _ _ _ Hi Hp) as Hc.
  unfold consistent in Hc.
  assert (Hn : n_frames it = N) by (destruct Hc as (_ & Hn & _); exact Hn).
  unfold seek. rewrite Hn.
  destruct ((0 <=? pos) && (pos <? N)) eqn:E; cbn [negb].
  2: { intros [= <- <-]. apply andb_false_iff in E.
       assert (~ (0 <= pos < N)) by (destruct E as [E|E]; lia).
       split; [reflexivity|]. split; [tauto|]. intros; contradiction. }
  apply andb_true_iff in E. assert (Hpos : 0 <= pos < N) by lia. clear E.
  destruct (_animator it) as [g|] eqn:Ha.
  2: { intros [= <- <-]. split; [reflexivity|]. split.
       - split; [intros; contradiction|discriminate].
       - intros _. left. split; [exact Ha|reflexivity]. }
  destruct (pc g) eqn:Hpc.
  - (* not started *)
    unfold gen_send. rewrite Hpc. cbn. intros [= <- <-].
    split; [now apply set_animator_same|]. split.
    + split; [intros; contradiction|discriminate].
    + intros _. right. left. split; [|reflexivity]. now exists g.
  - (* suspended in the first loop: [seek] returns *)
    destruct Hc as (_ & _ & _ & _ & Hg). rewrite Hpc in Hg.
    destruct Hg as (Hg & _).
    pose proof (seek_in_first_loop hash w pos it g Ha Hpc Hg
                  ltac:(rewrite Hn; exact Hpos)) as Hs.
    unfold seek in Hs. rewrite Hn in Hs.
    replace ((0 <=? pos) && (pos <? N)) with true in Hs
      by (symmetry; apply andb_true_iff; lia).
    cbn [negb] in Hs. rewrite Ha in Hs. rewrite Hs. discriminate.
  - (* suspended in the second loop: [seek] returns *)
    destruct Hc as (_ & _ & _ & _ & Hg). rewrite Hpc in Hg.
    destruct Hg as (_ & _ & Hlen).
    pose proof (seek_in_second_loop hash w pos it g Ha Hpc
                  ltac:(rewrite Hn; exact Hlen)
                  ltac:(rewrite Hn; exact Hpos)) as Hs.
    unfold seek in Hs. rewrite Hn in Hs.
    replace ((0 <=? pos) && (pos <? N)) with true in Hs
      by (symmetry; apply andb_true_iff; lia).
    cbn [negb] in Hs. rewrite Ha in Hs. rewrite Hs. discriminate.
  - (* the generator has ended *)
    rewrite (gen_send_finished hash w (Some pos) g it Hpc). intros [= <- <-].
    split; [now apply set_animator_same|]. split.
    + split; [intros; contradiction|discriminate].
    + intros _. right. right. split; [|reflexivity]. now exists g.
Qed.

(** Before the first [__next__], [seek(1)] raises and changes nothing. *)
Lemma seek_raises_and_changes_nothing_witness :
  two_loops (CInt 100) = Ok cached_iterator
  /\ snd (seek small_hash (two_frames "a" (1, 1)) 1 cached_iterator)
     = Raises Iteration_not_started
  /\ fst (seek small_hash (two_frames "a" (1, 1)) 1 cached_iterator)
     = cached_iterator.
Proof.
  split; [reflexivity|]. split; [reflexivity|].
  exact (proj1 (seek_raises_and_changes_nothing small_hash true 2 0 (Some 0%nat)
                  2 (Ok tt) (CInt 100) (Ok 0%nat) cached_iterator [] cached_iterator
                  [] (two_frames "a" (1, 1)) 1
                  (fst (seek small_hash (two_frames "a" (1, 1)) 1 cached_iterator))
                  Iteration_not_started eq_refl eq_refl eq_refl)).
Defined.

(** X16: an iterator that ends by itself resets the image.  When [__next__]
    raises [StopIteration] for the repeat count, the iterator is closed;
    and unless the generator had already ended, the repeat count was
    positive, [loop_no] is 0 and the image's seek position is 0. *)
Theorem exhausted_iterator_is_reset
    hash is_animated N sp src r fmt cached img it0 cs it rs w it' :
  ImageIterator_init is_animated N sp src r fmt cached img = Ok it0 ->
  perform_all hash cs it0 = (it, rs) ->
  __next__ hash w it = (it', Raises (StopIteration reached_repeat_count)) ->
  closed it'
  /\ (generator_finished it
      \/ (0 < r /\ _loop_no it' = Some 0 /\ _seek_position it' = 0)).
Proof.
  intros Hi Hp Hnext.
  pose proof (consistent_in_use _ _ _ _ _ _ _ _ _ _ _ _ _ Hi Hp) as Hc.
  unfold consistent in Hc.
  destruct (_animator it) as [g|] eqn:Ha.
  2: { unfold __next__ in Hnext. rewrite Ha in Hnext. discriminate. }
  destruct (gen_send hash w None g it) as [[it1 g1] out] eqn:Hsend.
  destruct (next_of_gen_send hash w it g it1 g1 out it' _ Ha Hsend Hnext)
    as (Hs & Hl & _ & Hstop).
  destruct (Hstop eq_refl) as [Hout Hcl]. split; [exact Hcl|].
  destruct (pc_dec (pc g) GFinished) as [Hf|Hf]; [left; now exists g|right].
  pose proof (gen_send_resumed hash r N w None g it Hc Hf (fun _ => eq_refl))
    as Hres.
  rewrite Hsend in Hres. destruct Hres as [_ Hres].
  destruct Hout as [->|(e & -> & He)].
  - destruct Hres as (_ & Hl0 & Hs0 & Hr). rewrite Hl, Hs. auto.
  - destruct Hres as [_ Hne]. contradiction.
Qed.

(** Two loops over two frames: the fifth [__next__] ends the iteration. *)
Lemma exhausted_iterator_is_reset_witness :
  two_loops (CBool false) = Ok uncached_iterator
  /\ snd (__next__ small_hash (two_frames "a" (1, 1))
            (fst (advance_all small_hash
                    [two_frames "a" (1, 1); two_frames "a" (1, 1);
                     two_frames "a" (1, 1); two_frames "a" (1, 1)]
                    uncached_iterator)))
     = Raises (StopIteration reached_repeat_count)
  /\ closed (fst (__next__ small_hash (two_frames "a" (1, 1))
                    (fst (advance_all small_hash
                            [two_frames "a" (1, 1); two_frames "a" (1, 1);
                             two_frames "a" (1, 1); two_frames "a" (1, 1)]
                            uncached_iterator)))).
Proof.
  unfold advance_all.
  set (cs := map Call_next [two_frames "a" (1, 1); two_frames "a" (1, 1);
                            two_frames "a" (1, 1); two_frames "a" (1, 1)]).
  set (it := fst (perform_all small_hash cs uncached_iterator)).
  assert (Hi : ImageIterator_init true 2 0 (Some 0%nat) 2 (Ok tt) (CBool false)
                 (Ok 0%nat) = Ok uncached_iterator) by (vm_compute; reflexivity).
  assert (Hp : perform_all small_hash cs uncached_iterator
               = (it, snd (perform_all small_hash cs uncached_iterator)))
    by apply surjective_pairing.
  assert (Hn : __next__ small_hash (two_frames "a" (1, 1)) it
               = (fst (__next__ small_hash (two_frames "a" (1, 1)) it),
                  Raises (StopIteration reached_repeat_count)))
    by (vm_compute; reflexivity).
  split; [exact Hi|]. split; [now rewrite Hn|].
  exact (proj1 (exhausted_iterator_is_reset small_hash true 2 0 (Some 0%nat) 2
                  (Ok tt) (CBool false) (Ok 0%nat) uncached_iterator cs it
                  (snd (perform_all small_hash cs uncached_iterator))
                  (two_frames "a" (1, 1))
                  (fst (__next__ small_hash (two_frames "a" (1, 1)) it))
                  Hi Hp Hn)).
Defined.

(** X17: [loop_no] counts down within the repeat count.  Whatever calls are
    made on an iterator, its [loop_no] is [None] (before the first
    [__next__]), or the repeat count itself if that is negative, or a
    number from 0 to the repeat count; and while the iterator is suspended
    at a frame, [loop_no] is set and is not 0. *)
Theorem loop_no_stays_in_range
    hash is_animated N sp src r fmt cached img it0 cs it rs :
  ImageIterator_init is_animated N sp src r fmt cached img = Ok it0 ->
  perform_all hash cs it0 = (it, rs) ->
  _repeat it = r /\ r <> 0
  /\ match _loop_no it with
     | None => True
     | Some k => if r <? 0 then k = r else 0 <= k <= r
     end
  /\ (suspended it -> exists k, _loop_no it = Some k /\ k <> 0).
Proof.
  intros Hi Hp.
  pose proof (consistent_in_use _ _ _ _ _ _ _ _ _ _ _ _ _ Hi Hp) as Hc.
  destruct Hc as (Hr & Hn & Hr0 & Hl & Hg).
  split; [exact Hr|]. split; [exact Hr0|]. split; [exact Hl|].
  intros (g & Ha & Hpc). rewrite Ha in Hg.
  destruct Hpc as [Hpc|Hpc]; rewrite Hpc in Hg; destruct Hg as (Hg0 & Hlg & _);
    exists (g_repeat g); split; assumption.
Qed.

(** In the second of two loops, [loop_no] is 1. *)
Lemma loop_no_stays_in_range_witness :
  two_loops (CBool false) = Ok uncached_iterator
  /\ _loop_no (fst (advance_all small_hash
                      [two_frames "a" (1, 1); two_frames "a" (1, 1);
                       two_frames "a" (1, 1)] uncached_iterator)) = Some 1
  /\ 0 <= 1 <= 2.
Proof.
  unfold advance_all.
  set (cs := map Call_next [two_frames "a" (1, 1); two_frames "a" (1, 1);
                            two_frames "a" (1, 1)]).
  set (it := fst (perform_all small_hash cs uncached_iterator)).
  assert (Hi : ImageIterator_init true 2 0 (Some 0%nat) 2 (Ok tt) (CBool false)
                 (Ok 0%nat) = Ok uncached_iterator) by (vm_compute; reflexivity).
  assert (Hp : perform_all small_hash cs uncached_iterator
               = (it, snd (perform_all small_hash cs uncached_iterator)))
    by apply surjective_pairing.
  assert (Hl : _loop_no it = Some 1) by (vm_compute; reflexivity).
  split; [exact Hi|]. split; [exact Hl|].
  clearbody it cs.
  pose proof (proj1 (proj2 (proj2 (loop_no_stays_in_range small_hash true 2 0
                  (Some 0%nat) 2 (Ok tt) (CBool false) (Ok 0%nat)
                  uncached_iterator cs it
                  (snd (perform_all small_hash cs uncached_iterator))
                  Hi Hp)))) as H.
  rewrite Hl in H. exact H.
Defined.

(** ** Iterating without a cache *)

Section UncachedRuns.
Variable hash : Z * Z -> Z.
Variable r : Z.
Variable N : nat.
Hypothesis r_ge_1 : 1 <= r.
Hypothesis N_ge_1 : (1 <= N)%nat.
Local Abbreviation NZ := (Z.of_nat N).





End UncachedRuns.



(** ** What drawing leaves *)

Section DrawFrame.
Context {style : RenderStyle}.
Variable get_terminal_size : Z * Z.
Variable hash : Z * Z -> Z.

Lemma with_seek_position_same self :
  with_seek_position self (image_seek_position self) = self.
Proof. now destruct self. Qed.

Lemma display_animated_ended self img fmt repeat cached env d ws r :
  _display_animated get_terminal_size hash self img fmt repeat cached env
  = (d, ws, Ended r) ->
  d = self.
Proof.
  unfold _display_animated.
  destruct (animation_lines get_terminal_size self fmt) as [lines|e];
    [|now intros [= <- _ _]].
  destruct (ImageIterator_init _ _ _ _ _ _ _ _) as [image_it|e];
    [|now intros [= <- _ _]].
  destruct (first_and_later_frames hash lines env _) as [[it ws'] e].
  destruct e; intros [= <- _ _]. apply with_seek_position_same.
Qed.

Lemma draw_render_ended self args fmt env img d ws r :
  draw_render get_terminal_size hash self args fmt env img = (d, ws, Ended r) ->
  d = self.
Proof.
  unfold draw_render.
  destruct (checked_style_args env) as [[]|e].
  - destruct (_is_animated self && a_animate args).
    + destruct (_display_animated get_terminal_size hash self img fmt _ _ env)
        as [[d' ws'] e] eqn:E.
      destruct e as [r'| |]; intros [= <- _ _].
      now apply display_animated_ended in E.
    + destruct (still_render env); now intros [= <- _ _].
  - now intros [= <- _ _].
Qed.

Lemma set_size_keeps self width height h_allow v_allow maxsize :
  _original_size (fst (set_size get_terminal_size self width height
                         h_allow v_allow maxsize)) = _original_size self
  /\ _scale (fst (set_size get_terminal_size self width height
                    h_allow v_allow maxsize)) = _scale self.
Proof.
  unfold set_size. destruct (negb _ && negb _); [now split|].
  destruct (_ <- check_dimension "width" width ;; _) as [[[[size f] h] v]|e];
    now split.
Qed.

(** X19: a call of [draw] that ends, whether it returns or raises, leaves
    the image as it was.  With a stored size nothing at all has changed,
    the seek position of an animation included; with a dynamic size the
    image is as the [size] setter leaves it for the same enum member.  The
    size setting, the scale and the seek position are never changed. *)
Theorem draw_leaves_the_image_as_it_was self args env d ws r :
  draw get_terminal_size hash self args env = (d, ws, Ended r) ->
  (forall size, _size (image self) = Fixed size -> d = self)
  /\ (forall s, _size (image self) = Dynamic s ->
        d = self \/ d = with_image self (set_size_enum (image self) s))
  /\ _size (image d) = _size (image self)
  /\ _scale (image d) = _scale (image self)
  /\ _original_size (image d) = _original_size (image self)
  /\ image_seek_position d = image_seek_position self.
Proof.
  intros H.
  assert (Hd : d = self
               \/ exists s, _size (image self) = Dynamic s
                            /\ d = with_image self (set_size_enum (image self) s)).
  { revert H. unfold draw.
    destruct (check_draw_args get_terminal_size self args) as [fmt|e];
      [|intros [= <- _ _]; now left].
    unfold _renderer. destruct (_size (image self)) as [s|size] eqn:E.
    - right. exists s. split; [reflexivity|]. revert H.
      destruct (set_size_keeps (image self) (DSize s) DNone (AInt 0) (AInt 2) MNone)
        as [Ho Hs].
      destruct (set_size get_terminal_size (image self) (DSize s) DNone
                  (AInt 0) (AInt 2) MNone) as [i res].
      simpl in Ho, Hs.
      assert (Hsame : set_size_enum i s = set_size_enum (image self) s).
      { unfold set_size_enum. now rewrite Ho, Hs. }
      destruct res as [[]|e].
      + destruct (get_image env) as [img|e].
        * destruct (draw_render get_terminal_size hash (with_image self i)
                      args fmt env img) as [[d0 ws0] e0] eqn:Er.
          intros [= <- _ ->]. apply draw_render_ended in Er. subst d0.
          simpl. now rewrite Hsame.
        * intros [= <- _ _]. simpl. now rewrite Hsame.
      + intros [= <- _ _]. simpl. now rewrite Hsame.
    - left. revert H.
      destruct (check_render_size _ _ _ _ _) as [[]|e].
      + destruct (get_image env) as [img|e].
        * destruct (draw_render get_terminal_size hash self args fmt env img)
            as [[d0 ws0] e0] eqn:Er.
          intros [= <- _ ->]. now apply draw_render_ended in Er.
        * now intros [= <- _ _].
      + now intros [= <- _ _]. }
  destruct Hd as [->|(s & E & ->)].
  - split; [reflexivity|]. split; [now left|]. now split_and!.
  - split; [intros size E'; congruence|].
    split; [intros s' E'; right; congruence|].
    simpl. now rewrite E.
Qed.

(** X20: an animation with a stored size is drawn only if it fits.  If
    [draw] writes anything for an image that it animates and whose size is
    not dynamic, then the image's rendered width is within the terminal
    width less [h_allow], and its rendered height within the terminal
    height less [v_allow]. *)
Theorem animation_is_drawn_only_if_it_fits self args env d ws e size :
  _size (image self) = Fixed size ->
  negb (a_native args) && _is_animated self && a_animate args = true ->
  draw get_terminal_size hash self args env = (d, ws, e) ->
  ws <> [] ->
  exists width height,
    rendered_size get_terminal_size (image self) = Ok (width, height)
    /\ rendered_height get_terminal_size (image self) = Ok height
    /\ width <= fst get_terminal_size - _h_allow (image self)
    /\ height <= snd get_terminal_size - _v_allow (image self).
Proof.
  intros Hsize Hanim. unfold draw.
  destruct (check_draw_args get_terminal_size self args) as [fmt|e0];
    [|intros [= _ <- _]; contradiction].
  unfold _renderer. rewrite Hsize, Hanim.
  destruct (check_render_size get_terminal_size (image self) (a_scroll args)
              (a_check_size args) true) as [[]|e0] eqn:Hc;
    [|intros [= _ <- _]; contradiction].
  intros _ _. revert Hc. unfold check_render_size.
  rewrite orb_true_r. cbn [orb].
  unfold rendered_size, rendered_height. rewrite Hsize. cbn [bind].
  destruct (scaled (fst size) (fst (_scale (image self)))) as [w|e1];
    [|discriminate]. cbn [bind].
  destruct (scaled (snd size) (snd (_scale (image self)))) as [h|e1];
    [|discriminate]. cbn [bind fst snd].
  destruct ((w >? _) || (_ >? _)) eqn:E1; [discriminate|].
  destruct (h >? _) eqn:E2; [discriminate|]. intros _.
  apply orb_false_iff in E1 as [E1 _].
  exists w, h. split; [reflexivity|]. split; [reflexivity|].
  rewrite Z.gtb_ltb in E1, E2. apply Z.ltb_ge in E1, E2. lia.
Qed.

End DrawFrame.

(** The interrupted animation of the three-frame example: the image is as
    before, at frame 0. *)
Lemma draw_leaves_the_image_as_it_was_witness :
  draw (style := graphics_1x2) (80, 24) small_hash drawable_1x1 default_draw_args
    (tty_env [interrupted three_frames])
  = (drawable_1x1,
     [HideCursor; Text "0"; CursorDown 22; ColorReset; ShowCursor; Newline],
     Ended (Raise KeyboardInterrupt))
  /\ image_seek_position drawable_1x1 = image_seek_position drawable_1x1.
Proof.
  assert (Hd : draw (style := graphics_1x2) (80, 24) small_hash drawable_1x1
                 default_draw_args (tty_env [interrupted three_frames])
               = (drawable_1x1,
                  [HideCursor; Text "0"; CursorDown 22; ColorReset; ShowCursor; Newline],
                  Ended (Raise KeyboardInterrupt))) by (vm_compute; reflexivity).
  split; [exact Hd|].
  exact (proj2 (proj2 (proj2 (proj2 (proj2
           (draw_leaves_the_image_as_it_was (style := graphics_1x2) (80, 24)
              small_hash drawable_1x1 default_draw_args
              (tty_env [interrupted three_frames]) _ _ _ Hd)))))).
Defined.

(** The three-frame example of size (1, 1) on an 80 by 24 terminal. *)
Lemma animation_is_drawn_only_if_it_fits_witness :
  snd (fst (draw (style := graphics_1x2) (80, 24) small_hash drawable_1x1
              default_draw_args (tty_env [interrupted three_frames])))
  = [HideCursor; Text "0"; CursorDown 22; ColorReset; ShowCursor; Newline]
  /\ exists width height,
       rendered_size (style := graphics_1x2) (80, 24) (image drawable_1x1)
       = Ok (width, height)
       /\ rendered_height (style := graphics_1x2) (80, 24) (image drawable_1x1)
          = Ok height
       /\ width <= 80 - 0 /\ height <= 24 - 2.
Proof.
  assert (Hd : draw (style := graphics_1x2) (80, 24) small_hash drawable_1x1
                 default_draw_args (tty_env [interrupted three_frames])
               = (drawable_1x1,
                  [HideCursor; Text "0"; CursorDown 22; ColorReset; ShowCursor; Newline],
                  Ended (Raise KeyboardInterrupt))) by (vm_compute; reflexivity).
  split; [now rewrite Hd|].
  apply (animation_is_drawn_only_if_it_fits (style := graphics_1x2) (80, 24)
           small_hash drawable_1x1 default_draw_args
           (tty_env [interrupted three_frames]) _ _ _ (1, 1)
           eq_refl eq_refl Hd).
  discriminate.
Defined.
